(** * Domain hierarchy and domain-scoped access control

    A shallow embedding of [backend/core/models.py] (class [Domain]),
    [backend/core/domain_utils.py] and [DomainViewSet] of
    [backend/core/views.py], with the properties of the materialized-path
    tree and of the visibility policy.

    Conventions.
    - Python [str] is [string]; [int] is [Z].
    - A database table is a finite map from primary key to row.
    - Code that writes to the database is a function from database to an
      outcome that carries the database left behind: Django runs in
      autocommit mode here (no [ATOMIC_REQUESTS], no [transaction.atomic]
      around [save]), so writes made before an exception stay.
    - Unbounded Python recursion takes a [fuel] argument; running out of
      fuel is the interpreter's [RecursionError].
    - The database is PostgreSQL, as in the settings: the [path]
      column takes no value longer than [max_length=1000], and a write
      of one ends in [DataError].
    - Query sets of [Domain] are ordered by [path] in byte order. *)

From Stdlib Require Import ZArith Ascii String List Lia.
From Stdlib Require Import Decimal DecimalString DecimalZ Sorting.Sorted Permutation.
From stdpp Require Import base option list sorting fin_maps gmap.

Set Warnings "-clear-no-such-hyp".

(** ** Python strings *)

Module Py.

Definition slash : ascii := "/"%char.

(** [f"{n}"] for an [int]. *)
Definition str (n : Z) : string := NilZero.string_of_int (Z.to_int n).

(** [int(s)] on a decimal literal with an optional minus sign; [None] is
    [ValueError].  Python also accepts surrounding white space, a plus
    sign and underscores between digits; no path segment written by
    [Domain.save] has any of these. *)
Definition int (s : string) : option Z := option_map Z.of_int (NilZero.int_of_string s).

(** [s.startswith(p)] *)
Definition startswith (s p : string) : bool := String.prefix p s.

Fixpoint lstrip (c : ascii) (s : string) : string :=
  match s with
  | EmptyString => EmptyString
  | String a s' => if Ascii.eqb a c then lstrip c s' else s
  end.

Fixpoint rstrip (c : ascii) (s : string) : string :=
  match s with
  | EmptyString => EmptyString
  | String a s' =>
      match rstrip c s' with
      | EmptyString => if Ascii.eqb a c then EmptyString else String a EmptyString
      | r => String a r
      end
  end.

(** [s.strip(c)] for a one-character [c]. *)
Definition strip (c : ascii) (s : string) : string := rstrip c (lstrip c s).

(** [s.split(c)] for a one-character separator: never the empty list. *)
Fixpoint split (c : ascii) (s : string) : list string :=
  match s with
  | EmptyString => [EmptyString]
  | String a s' =>
      if Ascii.eqb a c then EmptyString :: split c s'
      else match split c s' with
           | [] => [String a EmptyString]
           | h :: t => String a h :: t
           end
  end.

(** Truthiness of a [str]. *)
Definition truthy (s : string) : bool :=
  match s with EmptyString => false | _ => true end.

(** [[int(x) for x in xs]]: the first [ValueError] aborts the whole
    comprehension. *)
Fixpoint ints (xs : list string) : option (list Z) :=
  match xs with
  | [] => Some []
  | x :: r =>
      match int x with
      | None => None
      | Some n => match ints r with None => None | Some ns => Some (n :: ns) end
      end
  end.

End Py.

(** [c] does not occur in [s]. *)
Fixpoint free_of (c : ascii) (s : string) : bool :=
  match s with
  | EmptyString => true
  | String a s' => negb (Ascii.eqb a c) && free_of c s'
  end.

(** ** The database *)

(** A row of table [core_domain], without its primary key.  The time
    stamps [created_at] and [updated_at] take no part in what follows. *)
Record Row := mkRow {
  name : string;
  path : string;
  parent_id : option positive
}.

(** Primary keys come from the table's sequence ([AutoField]), which
    starts at 1, and the serializers make [id] read-only: [positive]. *)
Abbreviation table := (gmap positive Row).

(** A table whose rows are seen only through their nullable foreign key
    [domain]: the map gives [domain_id] for each primary key. *)
Abbreviation tagged := (gmap positive (option positive)).

Record DB := mkDB {
  domains : table;
  domain_seq : positive;      (* next value of the id sequence *)
  projects : tagged;          (* Project.domain, on_delete=PROTECT *)
  tasks : tagged;             (* Task.domain, on_delete=PROTECT *)
  users : tagged;             (* UserProfile.domain, on_delete=SET_NULL *)
  report_notes : tagged;      (* ReportNote.domain, on_delete=CASCADE *)
  saved_reports : tagged      (* SavedReport.domain, on_delete=CASCADE *)
}.

Definition set_domains (f : table → table) (db : DB) : DB :=
  mkDB (f (domains db)) (domain_seq db) (projects db) (tasks db) (users db)
       (report_notes db) (saved_reports db).

(** A [Domain] object that has a primary key: what a query returns and
    what a foreign-key cache holds. *)
Record Domain := mkDomain { id : positive; row : Row }.

Definition dpath (d : Domain) : string := path (row d).

(** A [Domain] object as [save] receives it: [pk] is [None] before the
    first save; [parent] is the related object the instance holds. *)
Record Instance := mkInstance {
  pk : option positive;
  self_name : string;
  self_path : string;
  parent : option Domain
}.

Inductive exn :=
  | NotFound            (* a primary key that does not resolve *)
  | InvalidHierarchy    (* the specification's signal; see [save] *)
  | ProtectedError (n : nat)   (* n = len(e.protected_objects) *)
  | Blocked (n : nat)   (* the ValidationError of [perform_destroy] *)
  | RecursionError
  | TypeError
  | DatabaseError
  | DataError           (* a value too long for its column *)
  | IntegrityError
  | ValueError.

(** What a call leaves: a value or an exception, and the database. *)
Inductive outcome (A : Type) :=
  | Ok (a : A) (db : DB)
  | Raise (e : exn) (db : DB).
Arguments Ok {A} a db.
Arguments Raise {A} e db.

Definition M (A : Type) : Type := DB → outcome A.

Definition ret {A} (a : A) : M A := λ db, Ok a db.
Definition raise {A} (e : exn) : M A := λ db, Raise e db.
Definition bind {A B} (m : M A) (k : A → M B) : M B :=
  λ db, match m db with
        | Ok a db' => k a db'
        | Raise e db' => Raise e db'
        end.
Definition read {A} (f : DB → A) : M A := λ db, Ok (f db) db.

Notation "'let*' x ':=' m 'in' k" := (bind m (λ x, k))
  (at level 10, x name, m at level 100, k at level 200).

(** [for x in xs: body(x)] *)
Fixpoint for_each {A} (xs : list A) (body : A → M unit) : M unit :=
  match xs with
  | [] => ret tt
  | x :: r => let* _ := body x in for_each r body
  end.

Definition db_of {A} (o : outcome A) : DB :=
  match o with Ok _ db => db | Raise _ db => db end.

(** ** Query sets *)

(** [Meta.ordering = ['path']]: every query set of [Domain] is sorted by
    [path] (byte order, as under the C collation); rows with equal paths
    come in the order of the table scan. *)
Fixpoint insert_by_path (d : Domain) (l : list Domain) : list Domain :=
  match l with
  | [] => [d]
  | x :: r => if String.leb (dpath d) (dpath x) then d :: l
              else x :: insert_by_path d r
  end.

Definition order_by_path (l : list Domain) : list Domain :=
  foldr insert_by_path [] l.

Definition scan (t : table) : list Domain :=
  map (λ kv, mkDomain (fst kv) (snd kv)) (map_to_list t).

(** [Domain.objects.filter(...)] *)
Definition objects_filter (t : table) (keep : Domain → bool) : list Domain :=
  order_by_path (filter (λ d, keep d = true) (scan t)).

(** [self.children.all()]: the reverse side of [parent]. *)
Definition children_all (t : table) (i : positive) : list Domain :=
  objects_filter t (λ d, bool_decide (parent_id (row d) = Some i)).

(** ** Domain.save and Domain._update_children_paths *)

(** [f"{d.path}{d.id}/"] *)
Definition child_path (ppath : string) (pid : positive) : string :=
  String.append ppath (String.append (Py.str (Z.pos pid)) "/").

(** [path = models.CharField(max_length=1000)]: the column is
    [varchar(1000)], and PostgreSQL, the database of the settings,
    refuses a longer value with [DataError]. *)
Definition max_length : nat := 1000.

(** What the column takes when a row is written: a value within the
    limit.  The value a row already holds is one the column has taken,
    so writing it back is accepted as well. *)
Definition column_accepts (stored : option Row) (p : string) : bool :=
  bool_decide (String.length p ≤ max_length) ||
  bool_decide (path <$> stored = Some p).

(** [Model.save()] without [update_fields]: an INSERT with a fresh key
    when [pk] is [None], else an UPDATE of every column, which becomes
    an INSERT under that key when no row has it.  The database checks
    the length of [path] and then the foreign key constraint on
    [parent_id].  The name reaches [save] through the serializer, which
    has checked it against [max_length=255]. *)
Definition base_save (self : Instance) : M positive :=
  λ db,
    let r := mkRow (self_name self) (self_path self) (id <$> parent self) in
    let stored := pk self ≫= λ i, domains db !! i in
    if column_accepts stored (self_path self) then
      match parent self with
      | Some p =>
          if bool_decide (is_Some (domains db !! id p)) then
            match pk self with
            | None =>
                let i := domain_seq db in
                Ok i (mkDB (<[i := r]> (domains db)) (Pos.succ i) (projects db)
                           (tasks db) (users db) (report_notes db) (saved_reports db))
            | Some i =>
                Ok i (mkDB (<[i := r]> (domains db)) (Pos.max (domain_seq db) (Pos.succ i))
                           (projects db) (tasks db) (users db) (report_notes db)
                           (saved_reports db))
            end
          else Raise IntegrityError db
      | None =>
          match pk self with
          | None =>
              let i := domain_seq db in
              Ok i (mkDB (<[i := r]> (domains db)) (Pos.succ i) (projects db)
                         (tasks db) (users db) (report_notes db) (saved_reports db))
          | Some i =>
              Ok i (mkDB (<[i := r]> (domains db)) (Pos.max (domain_seq db) (Pos.succ i))
                         (projects db) (tasks db) (users db) (report_notes db)
                         (saved_reports db))
          end
      end
    else Raise DataError db.

(** [Model.save(update_fields=['path'])]: an UPDATE of one column,
    refused with [DataError] when the value is too long; Django raises
    [DatabaseError] when it touches no row. *)
Definition base_save_path (i : positive) (p : string) : M unit :=
  λ db,
    if column_accepts (domains db !! i) p then
      match domains db !! i with
      | Some r => Ok tt (set_domains (<[i := mkRow (name r) p (parent_id r)]>) db)
      | None => Raise DatabaseError db
      end
    else Raise DataError db.

(** [Domain.objects.get(pk=i).parent], inside [try ... except
    Domain.DoesNotExist: pass]: the key of the stored parent, or [None]
    when the row or its parent does not resolve. *)
Definition stored_parent (i : positive) : M (option positive) :=
  read (λ db,
    match domains db !! i with
    | Some r =>
        match parent_id r with
        | Some p => if bool_decide (is_Some (domains db !! p)) then Some p else None
        | None => None
        end
    | None => None
    end).

(** [Domain.save], with the recursive call of [_update_children_paths]
    abstracted as [ucp].  [update_fields] is [true] for the call
    [child.save(update_fields=['path'])] and [false] for a plain
    [save()].  The comparison [old_parent != self.parent] is Django's
    model equality: equality of primary keys.

    The branch [if not self.parent.pk: self.parent.save()] is for a
    parent that was never saved; a parent here is a stored object.  In
    the nested call, a changed parent would pass [update_fields] to
    [Model.save] twice, a [TypeError].

    Nothing here looks at whether the new parent is [self] or lies
    below [self]: no branch raises [InvalidHierarchy]. *)
Definition save_with (ucp : Domain → M unit) (update_fields : bool)
    (self : Instance) : M Domain :=
  let* old_parent := match pk self with
                     | Some i => stored_parent i
                     | None => ret None
                     end in
  let is_new := bool_decide (pk self = None) in
  let new_path := match parent self with
                  | Some p => child_path (dpath p) (id p)
                  | None => "/"%string
                  end in
  let self := if is_new
              then mkInstance (pk self) (self_name self) new_path (parent self)
              else self in
  let* i := (if update_fields
             then match pk self with
                  | Some i => let* _ := base_save_path i (self_path self) in ret i
                  | None => raise ValueError
                  end
             else base_save self) in
  let moved := negb (bool_decide (old_parent = (id <$> parent self))) in
  let* p := (if negb is_new && moved
             then (if update_fields then raise TypeError
                   else let* _ := base_save_path i new_path in ret new_path)
             else ret (self_path self)) in
  let saved := mkDomain i (mkRow (self_name self) p (id <$> parent self)) in
  let* _ := (if is_new || moved then ucp saved else ret tt) in
  ret saved.

(** [Domain._update_children_paths].  Each child comes out of
    [self.children.all()] with [self] in its foreign-key cache, so
    [child.parent] is this very object. *)
Fixpoint _update_children_paths (fuel : nat) (self : Domain) : M unit :=
  match fuel with
  | O => raise RecursionError
  | S fuel' =>
      let* kids := read (λ db, children_all (domains db) (id self)) in
      for_each kids (λ child,
        let child := mkInstance (Some (id child)) (name (row child))
                                (child_path (dpath self) (id self)) (Some self) in
        let* child := save_with (_update_children_paths fuel') true child in
        _update_children_paths fuel' child)
  end.

Definition save (fuel : nat) (self : Instance) : M Domain :=
  save_with (_update_children_paths fuel) false self.

(** ** The API: DomainViewSet *)

(** A primary key as the view and the serializer resolve it
    ([get_object], [PrimaryKeyRelatedField]). *)
Definition resolve (i : positive) : M Domain :=
  λ db, match domains db !! i with
        | Some r => Ok (mkDomain i r) db
        | None => Raise NotFound db
        end.

Definition resolve_opt (i : option positive) : M (option Domain) :=
  match i with
  | Some i => let* d := resolve i in ret (Some d)
  | None => ret None
  end.

(** [perform_create]: [Domain.objects.create(name=..., parent=...)]. *)
Definition create (fuel : nat) (name : string) (parent_id : option positive) : M Domain :=
  let* p := resolve_opt parent_id in
  save fuel (mkInstance None name "" p).

(** [perform_update] on a PATCH: a field that is [None] here is absent
    from the request and keeps its value; [new_parent = Some None]
    detaches the node. *)
Definition update (fuel : nat) (i : positive) (new_name : option string)
    (new_parent : option (option positive)) : M Domain :=
  let* d := resolve i in
  let* p := resolve_opt (default (parent_id (row d)) new_parent) in
  save fuel (mkInstance (Some i) (default (name (row d)) new_name) (dpath d) p).

Definition move (fuel : nat) (i : positive) (new_parent : option positive) : M Domain :=
  update fuel i None (Some new_parent).

Definition rename (fuel : nat) (i : positive) (new_name : string) : M Domain :=
  update fuel i (Some new_name) None.

(** ** Hierarchy queries *)

(** [Domain.is_ancestor_of] *)
Definition is_ancestor_of (self other : Domain) : bool :=
  Py.startswith (dpath other) (child_path (dpath self) (id self)).

(** [Domain.is_descendant_of] *)
Definition is_descendant_of (self other : Domain) : bool :=
  Py.startswith (dpath self) (child_path (dpath other) (id other)).

(** [Domain.get_descendants] *)
Definition get_descendants (t : table) (self : Domain) : list Domain :=
  objects_filter t (λ d, Py.startswith (dpath d) (child_path (dpath self) (id self))).

(** [Domain.get_all_descendant_ids] *)
Definition get_all_descendant_ids (t : table) (self : Domain) : list positive :=
  map id (get_descendants t self) ++ [id self].

(** [[int(id) for id in self.path.strip('/').split('/') if id]] *)
Definition path_ids (p : string) : option (list Z) :=
  Py.ints (filter (λ s, Py.truthy s = true) (Py.split Py.slash (Py.strip Py.slash p))).

(** [Domain.get_ancestors]; [None] is the [ValueError] of [int]. *)
Definition get_ancestors (t : table) (self : Domain) : option (list Domain) :=
  match parent_id (row self) with
  | None => Some []
  | Some _ =>
      match path_ids (dpath self) with
      | None => None
      | Some ids => Some (objects_filter t (λ d, bool_decide (Z.pos (id d) ∈ ids)))
      end
  end.

(** ** Deletion *)

(** A nullable foreign key that points into [ds]. *)
Definition points_into (ds : gset positive) (fk : option positive) : bool :=
  match fk with
  | Some d => bool_decide (d ∈ ds)
  | None => false
  end.

(** Rows of a tagged table whose foreign key points into [ds]. *)
Definition referencing (tg : tagged) (ds : gset positive) : gset positive :=
  dom (filter (λ kv, points_into ds (snd kv) = true) tg).

(** Rows of [core_domain] whose [parent] points into [ds]. *)
Definition children_of (t : table) (ds : gset positive) : gset positive :=
  dom (filter (λ kv, points_into ds (parent_id (snd kv)) = true) t).

(** Django's [Collector.collect] along [Domain.parent] (CASCADE): the
    objects not collected yet are added, then the rows that point at
    them are collected in turn. *)
Fixpoint collect (fuel : nat) (t : table) (seen objs : gset positive)
    : option (gset positive) :=
  match fuel with
  | O => None
  | S fuel' =>
      let new_objs := objs ∖ seen in
      if decide (new_objs = ∅) then Some seen
      else collect fuel' t (seen ∪ new_objs) (children_of t new_objs)
  end.

(** [Model.delete()] on a [Domain].  The collector gathers the whole
    cascade and every row that a PROTECT key ties to it before anything
    is written; with at least one such row it raises [ProtectedError]
    over all of them.  Otherwise the collected domains go, with the
    report notes and saved reports that point at them (CASCADE), and
    user profiles that point at them get [domain = NULL] (SET_NULL). *)
Definition delete (fuel : nat) (i : positive) : M unit :=
  λ db,
    match collect fuel (domains db) ∅ {[ i ]} with
    | None => Raise RecursionError db
    | Some gone =>
        let protected_objects :=
          size (referencing (projects db) gone) + size (referencing (tasks db) gone) in
        if decide (protected_objects = 0) then
          Ok tt (mkDB (filter (λ kv, fst kv ∉ gone) (domains db))
                      (domain_seq db)
                      (projects db)
                      (tasks db)
                      ((λ d, match d with
                             | Some x => if decide (x ∈ gone) then None else Some x
                             | None => None
                             end) <$> users db)
                      (filter (λ kv, fst kv ∉ referencing (report_notes db) gone)
                              (report_notes db))
                      (filter (λ kv, fst kv ∉ referencing (saved_reports db) gone)
                              (saved_reports db)))
        else Raise (ProtectedError protected_objects) db
    end.

(** [DomainViewSet.perform_destroy]: [ProtectedError] becomes a
    [ValidationError] whose message carries
    [len(e.protected_objects)]. *)
Definition perform_destroy (fuel : nat) (i : positive) : M unit :=
  λ db,
    match resolve i db with
    | Raise e db' => Raise e db'
    | Ok _ db' =>
        match delete fuel i db' with
        | Raise (ProtectedError n) db'' => Raise (Blocked n) db''
        | o => o
        end
    end.

(** ** Access policy: domain_utils.py *)

(** What the policy reads of a user: [is_staff], and through
    [user.profile] (absent for a user without profile) the profile's
    [domain] key. *)
Record User := mkUser {
  is_staff : bool;
  profile : option (option positive)
}.

(** What the policy reads of a project, task or report: its [domain]. *)
Record Entity := mkEntity {
  entity_id : positive;
  domain : option positive
}.

(** [get_user_domain] *)
Definition get_user_domain (t : table) (user : User) : option Domain :=
  match profile user with
  | Some (Some d) => mkDomain d <$> t !! d
  | _ => None
  end.

(** [get_user_accessible_domain_ids] *)
Definition get_user_accessible_domain_ids (t : table) (user : User) : list positive :=
  match get_user_domain t user with
  | None => []
  | Some user_domain => get_all_descendant_ids t user_domain
  end.

(** [domain__id__in=ids]: SQL's [IN] is never true of a NULL key. *)
Definition id_in (ids : list positive) (fk : option positive) : bool :=
  match fk with
  | Some d => bool_decide (d ∈ ids)
  | None => false
  end.

(** [filter_by_domain] on a query set given as the list of its rows. *)
Definition filter_by_domain (t : table) (queryset : list Entity) (user : User)
    : list Entity :=
  if is_staff user then queryset
  else
    match get_user_accessible_domain_ids t user with
    | [] => []
    | accessible_domain_ids =>
        filter (λ e, id_in accessible_domain_ids (domain e) = true) queryset
    end.

(** [user_can_access_domain] *)
Definition user_can_access_domain (t : table) (user : User) (d : Domain) : bool :=
  if is_staff user then true
  else
    match get_user_domain t user with
    | None => false
    | Some user_domain =>
        if bool_decide (id user_domain = id d) then true
        else if is_ancestor_of user_domain d then true
        else false
    end.

(** [user_can_access_entity] *)
Definition user_can_access_entity (t : table) (user : User) (e : Entity) : bool :=
  if is_staff user then true
  else
    match domain e ≫= (λ d, mkDomain d <$> t !! d) with
    | None => false
    | Some entity_domain => user_can_access_domain t user entity_domain
    end.

(** ** Invariants of the tree *)

(** The path that Invariant I1 asks of a row. *)
Definition expected_path (t : table) (r : Row) : option string :=
  match parent_id r with
  | None => Some "/"%string
  | Some p => (λ pr, child_path (path pr) p) <$> t !! p
  end.

(** Invariant I1: every node's path is its parent's path followed by
    the parent's id and a slash, and ["/"] at a root. *)
Definition I1 (t : table) : Prop :=
  map_Forall (λ _ r, expected_path t r = Some (path r)) t.

#[global] Instance I1_dec (t : table) : Decision (I1 t).
Proof. unfold I1. apply _. Defined.

(** [desc t a d]: [d] is reached from [a] by following [parent]
    backwards at least once. *)
Inductive desc (t : table) (a : positive) : positive → Prop :=
  | desc_child d r :
      t !! d = Some r → parent_id r = Some a → desc t a d
  | desc_step d r p :
      t !! d = Some r → parent_id r = Some p → desc t a p → desc t a d.

(** Longest path in the table: it bounds the depth of the tree. *)
Definition max_path_length (t : table) : nat :=
  map_fold (λ _ r m, Nat.max (String.length (path r)) m) 0 t.

(** The keys in use lie below the sequence. *)
Definition seq_ok (db : DB) : Prop :=
  map_Forall (λ i _, (i < domain_seq db)%positive) (domains db).

#[global] Instance seq_ok_dec (db : DB) : Decision (seq_ok db).
Proof. unfold seq_ok. apply _. Defined.

(** The precondition of a move in the specification: the new parent,
    when there is one, exists, is not the node and is not one of its
    descendants ([is_ancestor_of] is the descendant test of the
    code). *)
Definition valid_target (t : table) (x : positive) (new_parent : option positive)
    : bool :=
  match new_parent with
  | None => true
  | Some y =>
      match t !! x, t !! y with
      | Some rx, Some ry =>
          negb (bool_decide (y = x)) &&
          negb (is_ancestor_of (mkDomain x rx) (mkDomain y ry))
      | _, _ => false
      end
  end.

(** The object that a key resolves to, for a nullable key. *)
Definition lookup_obj (t : table) (k : option positive) : option Domain :=
  k ≫= λ y, mkDomain y <$> t !! y.

(** The path of a node whose ancestors, root first, are [ids]. *)
Fixpoint segments (ids : list positive) : string :=
  match ids with
  | [] => ""%string
  | i :: r => String.append (Py.str (Z.pos i)) (String "/" (segments r))
  end.

Definition render (ids : list positive) : string := String "/" (segments ids).

(** [chain t i ids]: following [parent] from [i] up to a root visits
    [ids], listed root first. *)
Inductive chain (t : table) : positive → list positive → Prop :=
  | chain_root i r :
      t !! i = Some r → parent_id r = None → chain t i []
  | chain_step i r p ids :
      t !! i = Some r → parent_id r = Some p → chain t p ids →
      chain t i (ids ++ [p]).

(** What [_update_children_paths] never writes: a row's name and
    parent. *)
Definition shape (r : Row) : string * option positive := (name r, parent_id r).

Definition same_tree (t t' : table) : Prop :=
  ∀ i, shape <$> t !! i = shape <$> t' !! i.

Definition with_path (r : Row) (s : string) : Row := mkRow (name r) s (parent_id r).

(** [repaired t a pa d s]: [s] is the path that node [d], below [a],
    must get when [a] has path [pa]. *)
Inductive repaired (t : table) (a : positive) (pa : string)
    : positive → string → Prop :=
  | repaired_child d r :
      t !! d = Some r → parent_id r = Some a →
      repaired t a pa d (child_path pa a)
  | repaired_step d r p s :
      t !! d = Some r → parent_id r = Some p → repaired t a pa p s →
      repaired t a pa d (child_path s p).

(** [height_le t a h]: the subtree at [a] has at most [h] levels. *)
Inductive height_le (t : table) : positive → nat → Prop :=
  | height_le_intro a h :
      (∀ c r, t !! c = Some r → parent_id r = Some a → height_le t c h) →
      height_le t a (S h).

(** [writes R t t']: [t'] is [t] with some rows' paths set to what [R]
    asks of them. *)
Definition writes (R : positive → string → Prop) (t t' : table) : Prop :=
  ∀ d, t' !! d = t !! d ∨
       ∃ s r, R d s ∧ t !! d = Some r ∧ t' !! d = Some (with_path r s).

(** [path_lt d1 d2]: the path of [d2] properly extends that of [d1]. *)
Definition path_lt (d1 d2 : Domain) : Prop :=
  ∃ s, s ≠ ""%string ∧ dpath d2 = String.append (dpath d1) s.

(** The stored objects for a list of keys. *)
Definition objects_of (t : table) (ids : list positive) : list Domain :=
  omap (λ i, mkDomain i <$> t !! i) ids.

(** ** The tree action: DomainViewSet.tree and DomainTreeSerializer *)

(** What [DomainTreeSerializer] makes of one object: the object (its
    own columns, and the counts read off it) and, under [children],
    what the serializer makes of each of [obj.children.all()]. *)
#[warnings="-register-all"]
Inductive TreeData := TreeNode (obj : Domain) (children : list TreeData).

(** [DomainTreeSerializer(obj).data]; [get_children] calls the
    serializer on every child, and [None] is the [RecursionError] of a
    nesting that is too deep. *)
Fixpoint to_representation (fuel : nat) (t : table) (obj : Domain)
    : option TreeData :=
  match fuel with
  | O => None
  | S fuel' =>
      mapM (to_representation fuel' t) (children_all t (id obj))
        ≫= λ children, Some (TreeNode obj children)
  end.

(** [DomainViewSet.tree]: the serializer on
    [Domain.objects.filter(parent__isnull=True)]. *)
Definition tree (fuel : nat) (t : table) : option (list TreeData) :=
  mapM (to_representation fuel t)
       (objects_filter t (λ d, bool_decide (parent_id (row d) = None))).

(** The objects of a nested answer, parents before children. *)
Fixpoint flatten (n : TreeData) : list Domain :=
  match n with
  | TreeNode obj children => obj :: flat_map flatten children
  end.

(** Referential integrity, as the foreign-key constraints of the
    database keep it: a key that is not NULL names a stored domain. *)
Definition fk_ok (t : table) (tg : tagged) : Prop :=
  map_Forall (λ _ fk, match fk with
                      | Some d => is_Some (t !! d)
                      | None => True
                      end) tg.

#[global] Instance fk_ok_dec (t : table) (tg : tagged) : Decision (fk_ok t tg).
Proof. unfold fk_ok. apply map_Forall_dec. intros _ [d|]; apply _. Defined.

Definition refs_ok (db : DB) : Prop :=
  fk_ok (domains db) (projects db) ∧ fk_ok (domains db) (tasks db) ∧
  fk_ok (domains db) (users db) ∧ fk_ok (domains db) (report_notes db) ∧
  fk_ok (domains db) (saved_reports db).

(** ** Sample data *)

(** An empty database. *)
Definition db_empty : DB := mkDB ∅ 1 ∅ ∅ ∅ ∅ ∅.

(** Root [R] (1), its child [C] (2) and grandchild [G] (3), as three
    calls of [create] leave them. *)
Definition t_rcg : table :=
  <[1%positive := mkRow "R" "/" None]>
    (<[2%positive := mkRow "C" "/1/" (Some 1%positive)]>
       (<[3%positive := mkRow "G" "/1/2/" (Some 2%positive)]> ∅)).

Definition db_rcg : DB := mkDB t_rcg 4 ∅ ∅ ∅ ∅ ∅.

(** The same tree with one user profile attached to [C]. *)
Definition db_rcg_user : DB :=
  mkDB t_rcg 4 ∅ ∅ (<[1%positive := Some 2%positive]> ∅) ∅ ∅.

(** The same tree with a project on [C] and a task on [G]. *)
Definition db_rcg_work : DB :=
  mkDB t_rcg 4 (<[1%positive := Some 2%positive]> ∅)
       (<[1%positive := Some 3%positive]> ∅) ∅ ∅ ∅.

(** What the request [PATCH /domains/1/ {parent: 3}] leaves of the
    tree [R > C > G]: the root under its grandchild.  The depth
    allowed is that of the interpreter's default limit. *)
Definition db_rcg_cyclic : DB := db_of (move 1000 1 (Some 3%positive) db_rcg).

(** A chain of [n] domains made through the API, each one created
    under the one before; their keys are [1] to [n]. *)
Fixpoint db_chain (n : nat) : DB :=
  match n with
  | O => db_empty
  | S n' =>
      db_of (create 1 "n" match n' with
                          | O => None
                          | S _ => Some (Pos.of_nat n')
                          end (db_chain n'))
  end.

(** A chain of 276 domains, whose last path is 993 characters long,
    and beside it a root [A] (277) with one child [B] (278). *)
Definition db_deep : DB :=
  db_of (create 1 "B" (Some 277%positive)
           (db_of (create 1 "A" None (db_chain 276)))).

(** What the request [PATCH /domains/277/ {parent: 276}] leaves of it:
    [A] under the end of the chain. *)
Definition db_deep_moved : DB :=
  db_of (move 1000 277 (Some 276%positive) db_deep).

(** Callers: an administrator, a member of [C], and a user whose
    profile has no domain. *)
Definition user_admin : User := mkUser true None.
Definition user_c : User := mkUser false (Some (Some 2%positive)).
Definition user_none : User := mkUser false (Some None).

(** Entities: one without domain, one on [C], one on [R]. *)
Definition e_none : Entity := mkEntity 1 None.
Definition e_c : Entity := mkEntity 2 (Some 2%positive).
Definition e_r : Entity := mkEntity 3 (Some 1%positive).

Definition dom_r : Domain := mkDomain 1 (mkRow "R" "/" None).
Definition dom_c : Domain := mkDomain 2 (mkRow "C" "/1/" (Some 1%positive)).
Definition dom_g : Domain := mkDomain 3 (mkRow "G" "/1/2/" (Some 2%positive)).

(** * Properties *)

(** ** Strings *)

Section strings.
Implicit Types (s p r : string) (c a : ascii).

Lemma append_cons a s p :
  String.append (String a s) p = String a (String.append s p).
Proof. reflexivity. Qed.

Lemma append_nil_l s : String.append "" s = s.
Proof. reflexivity. Qed.

Lemma append_nil_r s : String.append s "" = s.
Proof.
  induction s as [|a s IH]; [done|]. by rewrite append_cons, IH.
Qed.

Lemma append_assoc s p r :
  String.append (String.append s p) r = String.append s (String.append p r).
Proof.
  induction s as [|a s IH]; [done|]. by rewrite !append_cons, IH.
Qed.

Lemma length_append s p :
  String.length (String.append s p) = String.length s + String.length p.
Proof.
  induction s as [|a s IH]; [done|]. rewrite append_cons. simpl. by rewrite IH.
Qed.

Lemma append_inv_head s p r : String.append s p = String.append s r → p = r.
Proof.
  induction s as [|a s IH]; [done|]. rewrite !append_cons. intros [= H]. auto.
Qed.

Lemma prefix_nil s : String.prefix "" s = true.
Proof. by destruct s. Qed.

Lemma prefix_append p s : String.prefix p (String.append p s) = true.
Proof.
  induction p as [|a p IH]; [apply prefix_nil|].
  rewrite append_cons. simpl. destruct (ascii_dec a a); [done | congruence].
Qed.

Lemma prefix_inv p s : String.prefix p s = true → ∃ r, s = String.append p r.
Proof.
  revert s. induction p as [|a p IH]; intros s H.
  - by exists s.
  - destruct s as [|b s]; simpl in H; [done|].
    destruct (ascii_dec a b) as [->|]; [|done].
    destruct (IH _ H) as [r ->]. by exists r.
Qed.

Lemma startswith_iff s p : Py.startswith s p = true ↔ ∃ r, s = String.append p r.
Proof.
  split; [apply prefix_inv | intros [r ->]; apply prefix_append].
Qed.

Lemma startswith_length s p :
  Py.startswith s p = true → String.length p ≤ String.length s.
Proof. intros [r ->]%startswith_iff. rewrite length_append. lia. Qed.

Lemma startswith_trans s p r :
  Py.startswith s p = true → Py.startswith p r = true → Py.startswith s r = true.
Proof.
  intros [x ->]%startswith_iff [y ->]%startswith_iff.
  apply startswith_iff. exists (String.append y x). by rewrite append_assoc.
Qed.

Lemma free_of_append c s p :
  free_of c (String.append s p) = free_of c s && free_of c p.
Proof.
  induction s as [|a s IH]; [done|].
  rewrite append_cons. simpl. rewrite IH. by destruct (Ascii.eqb a c).
Qed.

Lemma free_of_digits d : free_of Py.slash (NilEmpty.string_of_uint d) = true.
Proof. induction d; simpl; auto. Qed.

Lemma free_of_uint d : free_of Py.slash (NilZero.string_of_uint d) = true.
Proof. destruct d; try done; apply (free_of_digits (_ d)). Qed.

Lemma str_free n : free_of Py.slash (Py.str n) = true.
Proof.
  unfold Py.str. destruct (Z.to_int n) as [d|d]; simpl.
  - apply free_of_uint.
  - apply free_of_uint.
Qed.

Lemma str_nonempty n : Py.str n ≠ ""%string.
Proof.
  unfold Py.str. destruct (Z.to_int n) as [d|d]; simpl; [|done].
  by destruct d.
Qed.

Lemma to_int_proper n : Z.to_int n ≠ Pos Nil ∧ Z.to_int n ≠ Neg Nil.
Proof.
  destruct n as [|q|q]; simpl; split; try done.
  - intros [= H]. by apply DecimalPos.Unsigned.to_uint_nonnil in H.
  - intros [= H]. by apply DecimalPos.Unsigned.to_uint_nonnil in H.
Qed.

(** Printing then parsing an integer gives it back. *)
Lemma int_str n : Py.int (Py.str n) = Some n.
Proof.
  unfold Py.int, Py.str. destruct (to_int_proper n) as [H1 H2].
  rewrite NilZero.isi by done. simpl. by rewrite DecimalZ.of_to.
Qed.

Lemma str_inj n m : Py.str n = Py.str m → n = m.
Proof.
  intros H. assert (Some n = Some m) as [= ?]; [|done].
  by rewrite <- !int_str, H.
Qed.
End strings.

(** ** Paths and the parent relation *)

Section paths.
Implicit Types (t : table) (r : Row) (i a d p : positive).

Lemma child_path_length s p :
  String.length s < String.length (child_path s p).
Proof. unfold child_path. rewrite !length_append. simpl. lia. Qed.

Lemma segments_snoc ids p :
  segments (ids ++ [p]) =
  String.append (segments ids) (String.append (Py.str (Z.pos p)) "/").
Proof.
  induction ids as [|i ids IH]; simpl.
  - by rewrite append_nil_l.
  - by rewrite IH, append_assoc, append_cons.
Qed.

Lemma render_snoc ids p : render (ids ++ [p]) = child_path (render ids) p.
Proof.
  unfold render, child_path. by rewrite append_cons, segments_snoc.
Qed.

Lemma I1_root t i r :
  I1 t → t !! i = Some r → parent_id r = None → path r = "/"%string.
Proof.
  intros H Hi Hp. apply (map_Forall_lookup_1 _ _ _ _ H) in Hi.
  unfold expected_path in Hi. rewrite Hp in Hi. by injection Hi.
Qed.

Lemma I1_parent t i r p :
  I1 t → t !! i = Some r → parent_id r = Some p →
  ∃ pr, t !! p = Some pr ∧ path r = child_path (path pr) p.
Proof.
  intros H Hi Hp. apply (map_Forall_lookup_1 _ _ _ _ H) in Hi.
  unfold expected_path in Hi. rewrite Hp in Hi.
  destruct (t !! p) as [pr|]; simpl in Hi; [|done].
  exists pr. split; [done|]. by injection Hi.
Qed.

(** Under I1 every node has a chain of ancestors that ends at a root,
    and its path spells that chain. *)
Lemma I1_chain t :
  I1 t → ∀ n i r, String.length (path r) ≤ n → t !! i = Some r →
  ∃ ids, chain t i ids ∧ path r = render ids.
Proof.
  intros H. induction n as [|n IH]; intros i r Hn Hi.
  - destruct (parent_id r) as [p|] eqn:Hp.
    + destruct (I1_parent _ _ _ _ H Hi Hp) as (pr & _ & E).
      pose proof (child_path_length (path pr) p). rewrite <- E in *. lia.
    + exists []. split; [by eapply chain_root|]. by eapply I1_root.
  - destruct (parent_id r) as [p|] eqn:Hp.
    + destruct (I1_parent _ _ _ _ H Hi Hp) as (pr & Hpr & E).
      pose proof (child_path_length (path pr) p) as Hl. rewrite <- E in Hl.
      destruct (IH p pr) as (ids & Hc & Er); [lia|done|].
      exists (ids ++ [p]). split; [by eapply chain_step|].
      by rewrite render_snoc, <- Er.
    + exists []. split; [by eapply chain_root|]. by eapply I1_root.
Qed.

Lemma chain_fun t i ids1 ids2 : chain t i ids1 → chain t i ids2 → ids1 = ids2.
Proof.
  intros H1. revert ids2. induction H1 as [i r Hi Hp|i r p ids Hi Hp Hc IH];
    intros ids2 H2; inversion H2; subst; simplify_eq; [done|].
  f_equal. by apply IH.
Qed.

Lemma chain_path t i r ids :
  I1 t → chain t i ids → t !! i = Some r → path r = render ids.
Proof.
  intros H Hc Hi. destruct (I1_chain t H _ i r (le_n _) Hi) as (ids' & Hc' & E).
  by rewrite (chain_fun _ _ _ _ Hc Hc').
Qed.

Lemma chain_desc t d ids a : chain t d ids → a ∈ ids → desc t a d.
Proof.
  induction 1 as [i r Hi Hp|i r p ids Hi Hp Hc IH]; intros Ha.
  - by apply elem_of_nil in Ha.
  - apply elem_of_app in Ha as [Ha|Ha%list_elem_of_singleton].
    + eapply desc_step; eauto.
    + subst. eapply desc_child; eauto.
Qed.

Lemma desc_chain t d ids a : chain t d ids → desc t a d → a ∈ ids.
Proof.
  intros Hc Hd. revert ids Hc.
  induction Hd as [d r Hd Hp|d r p Hd Hp Hdesc IH]; intros ids Hc;
    inversion Hc; subst; simplify_eq.
  - apply elem_of_app. right. by apply list_elem_of_singleton.
  - apply elem_of_app. left. by apply IH.
Qed.

Lemma desc_lookup t a d : desc t a d → is_Some (t !! d).
Proof. destruct 1; eauto. Qed.

Lemma desc_trans t a b d : desc t a b → desc t b d → desc t a d.
Proof.
  intros Hab Hbd. induction Hbd as [d r Hd Hp|d r p Hd Hp _ IH].
  - eapply desc_step; eauto.
  - eapply desc_step; eauto.
Qed.

(** Two strings cut at their first slash agree piece by piece. *)
Lemma segment_inj (u v x y : string) :
  free_of Py.slash u = true → free_of Py.slash v = true →
  String.append u (String "/" x) = String.append v (String "/" y) →
  u = v ∧ x = y.
Proof.
  revert v. induction u as [|a u IH]; intros [|b v] Hu Hv H.
  - rewrite !append_nil_l in H. by injection H.
  - rewrite append_nil_l, append_cons in H. injection H as <- _. done.
  - rewrite append_nil_l, append_cons in H. injection H as -> _. done.
  - rewrite !append_cons in H. injection H as -> H.
    simpl in Hu, Hv. apply andb_prop in Hu as [_ Hu]. apply andb_prop in Hv as [_ Hv].
    destruct (IH v Hu Hv H) as [-> ->]. done.
Qed.

Lemma segments_prefix (l1 l2 : list positive) (s : string) :
  segments l2 = String.append (segments l1) s → l1 `prefix_of` l2.
Proof.
  revert l2. induction l1 as [|i l1 IH]; intros l2 H.
  - apply list.prefix_nil.
  - destruct l2 as [|j l2]; simpl in H.
    + symmetry in H. rewrite append_assoc in H.
      destruct (Py.str (Z.pos i)) eqn:E; [by apply str_nonempty in E|].
      by rewrite append_cons in H.
    + rewrite append_assoc, append_cons in H.
      apply segment_inj in H as [E H]; [|apply str_free..].
      apply str_inj in E. injection E as ->.
      apply prefix_cons. by apply IH.
Qed.

Lemma startswith_child_path s p : Py.startswith (child_path s p) s = true.
Proof. apply startswith_iff. by eexists. Qed.

Lemma startswith_refl s : Py.startswith s s = true.
Proof. apply startswith_iff. exists ""%string. by rewrite append_nil_r. Qed.

(** Invariant I3, from parents to paths. *)
Lemma desc_startswith t a d ra rd :
  I1 t → desc t a d → t !! a = Some ra → t !! d = Some rd →
  Py.startswith (path rd) (child_path (path ra) a) = true.
Proof.
  intros H Hd Ha. revert rd.
  induction Hd as [d r Hd Hp|d r p Hd Hp Hdesc IH]; intros rd Hrd.
  - rewrite Hd in Hrd. injection Hrd as <-.
    destruct (I1_parent _ _ _ _ H Hd Hp) as (pr & Hpr & ->).
    rewrite Ha in Hpr. injection Hpr as <-. apply startswith_refl.
  - rewrite Hd in Hrd. injection Hrd as <-.
    destruct (I1_parent _ _ _ _ H Hd Hp) as (pr & Hpr & ->).
    eapply startswith_trans; [apply startswith_child_path | by apply IH].
Qed.

(** Invariant I3, from paths to parents. *)
Lemma startswith_desc t a d ra rd :
  I1 t → t !! a = Some ra → t !! d = Some rd →
  Py.startswith (path rd) (child_path (path ra) a) = true → desc t a d.
Proof.
  intros H Ha Hd Hs.
  destruct (I1_chain t H _ a ra (le_n _) Ha) as (ca & Hca & Ea).
  destruct (I1_chain t H _ d rd (le_n _) Hd) as (cd & Hcd & Ed).
  rewrite Ea, Ed, <- render_snoc in Hs.
  apply startswith_iff in Hs as [s Hs]. unfold render in Hs.
  rewrite append_cons in Hs. injection Hs as Hs.
  apply segments_prefix in Hs as [k ->].
  eapply chain_desc; [done|]. rewrite !elem_of_app, list_elem_of_singleton. auto.
Qed.

Lemma is_ancestor_of_desc t a d ra rd :
  I1 t → t !! a = Some ra → t !! d = Some rd →
  is_ancestor_of (mkDomain a ra) (mkDomain d rd) = true ↔ desc t a d.
Proof.
  intros H Ha Hd. unfold is_ancestor_of, dpath. simpl. split.
  - by eapply startswith_desc.
  - intros. by eapply desc_startswith.
Qed.

(** Under I1 no node lies below itself: the parent relation is a
    forest (Invariant I2). *)
Lemma I1_acyclic t a : I1 t → ¬ desc t a a.
Proof.
  intros H Hd. destruct (desc_lookup _ _ _ Hd) as [r Hr].
  pose proof (desc_startswith _ _ _ _ _ H Hd Hr Hr) as Hs.
  apply startswith_length in Hs. pose proof (child_path_length (path r) a). lia.
Qed.
End paths.

(** ** Tables that differ in paths only *)

Section same_tree.
Implicit Types (t : table) (r : Row) (i a d p : positive).

Lemma same_tree_refl t : same_tree t t.
Proof. by intros i. Qed.

Lemma same_tree_sym t t' : same_tree t t' → same_tree t' t.
Proof. intros H i. by rewrite H. Qed.

Lemma same_tree_trans t1 t2 t3 :
  same_tree t1 t2 → same_tree t2 t3 → same_tree t1 t3.
Proof. intros H1 H2 i. by rewrite H1, H2. Qed.

Lemma same_tree_lookup t t' i r :
  same_tree t t' → t !! i = Some r →
  ∃ r', t' !! i = Some r' ∧ name r' = name r ∧ parent_id r' = parent_id r.
Proof.
  intros H Hi. specialize (H i). rewrite Hi in H. simpl in H.
  destruct (t' !! i) as [r'|]; simpl in H; [|done].
  exists r'. unfold shape in H. by simplify_eq.
Qed.

Lemma same_tree_is_Some t t' i :
  same_tree t t' → is_Some (t !! i) → is_Some (t' !! i).
Proof.
  intros H [r Hr]. destruct (same_tree_lookup _ _ _ _ H Hr) as (r' & ? & _). eauto.
Qed.

Lemma same_tree_set_path t i r s :
  t !! i = Some r → same_tree t (<[i := with_path r s]> t).
Proof.
  intros Hi j. destruct (decide (j = i)) as [->|Hne].
  - by rewrite lookup_insert_eq, Hi.
  - by rewrite lookup_insert_ne.
Qed.

Lemma same_tree_desc t t' a d : same_tree t t' → desc t a d → desc t' a d.
Proof.
  intros H. induction 1 as [d r Hd Hp|d r p Hd Hp _ IH].
  - destruct (same_tree_lookup _ _ _ _ H Hd) as (r' & Hd' & _ & Hp').
    apply (desc_child _ _ _ r' Hd'). by rewrite Hp'.
  - destruct (same_tree_lookup _ _ _ _ H Hd) as (r' & Hd' & _ & Hp').
    apply (desc_step _ _ _ r' p Hd'); [by rewrite Hp'|done].
Qed.

Lemma same_tree_repaired t t' a pa d s :
  same_tree t t' → repaired t a pa d s → repaired t' a pa d s.
Proof.
  intros H. induction 1 as [d r Hd Hp|d r p s Hd Hp _ IH].
  - destruct (same_tree_lookup _ _ _ _ H Hd) as (r' & Hd' & _ & Hp').
    apply (repaired_child _ _ _ _ r' Hd'). by rewrite Hp'.
  - destruct (same_tree_lookup _ _ _ _ H Hd) as (r' & Hd' & _ & Hp').
    apply (repaired_step _ _ _ _ r' p s Hd'); [by rewrite Hp'|done].
Qed.

Lemma same_tree_height t t' a h : same_tree t t' → height_le t a h → height_le t' a h.
Proof.
  intros H. induction 1 as [a h _ IH]. constructor. intros c r' Hc Hp.
  destruct (same_tree_lookup _ _ _ _ (same_tree_sym _ _ H) Hc) as (r & Hr & _ & Hpr).
  apply (IH c r Hr). by rewrite Hpr.
Qed.

Lemma height_le_mono t a h h' : height_le t a h → h ≤ h' → height_le t a h'.
Proof.
  intros H. revert h'. induction H as [a h _ IH]. intros [|h'] Hle; [lia|].
  constructor. intros c r Hc Hp. eapply IH; [done..|lia].
Qed.

Lemma height_le_desc t a d h : desc t a d → height_le t a (S h) → height_le t d h.
Proof.
  induction 1 as [d r Hd Hp|d r p Hd Hp _ IH]; intros Hh.
  - inversion Hh; subst. eauto.
  - specialize (IH Hh). inversion IH; subst.
    eapply height_le_mono; [eauto|lia].
Qed.

(** A subtree of bounded height has no cycle through its root. *)
Lemma height_le_acyclic t a h : height_le t a h → ¬ desc t a a.
Proof.
  revert a. induction h as [|h IH]; intros a Hh Hd.
  - inversion Hh.
  - eapply IH; [|exact Hd]. by eapply height_le_desc.
Qed.

Lemma repaired_desc t a pa d s : repaired t a pa d s → desc t a d.
Proof.
  induction 1; [by eapply desc_child | by eapply desc_step].
Qed.

Lemma desc_repaired t a pa d : desc t a d → ∃ s, repaired t a pa d s.
Proof.
  induction 1 as [d r Hd Hp|d r p Hd Hp _ [s IH]].
  - eexists. by eapply repaired_child.
  - eexists. by eapply repaired_step.
Qed.

Lemma repaired_fun t a pa d s s' :
  ¬ desc t a a → repaired t a pa d s → repaired t a pa d s' → s = s'.
Proof.
  intros Ha H. revert s'.
  induction H as [d r Hd Hp|d r p s Hd Hp Hr IH]; intros s' H';
    inversion H'; subst; simplify_eq; try done.
  - exfalso. apply Ha. by eapply repaired_desc.
  - exfalso. apply Ha. by eapply repaired_desc.
  - f_equal. by apply IH.
Qed.

(** The targets below a child [c] of [a] are targets below [a]. *)
Lemma repaired_lift t a pa c rc d s :
  t !! c = Some rc → parent_id rc = Some a →
  repaired t c (child_path pa a) d s → repaired t a pa d s.
Proof.
  intros Hc Hp. induction 1 as [d r Hd Hpd|d r p s Hd Hpd _ IH].
  - eapply repaired_step; [done..|]. by eapply repaired_child.
  - eapply repaired_step; done.
Qed.

(** Every target below [a] starts with the path of [a]'s children. *)
Lemma repaired_startswith t a pa d s :
  repaired t a pa d s → Py.startswith s (child_path pa a) = true.
Proof.
  induction 1 as [d r Hd Hpd|d r p s Hd Hpd _ IH].
  - apply startswith_refl.
  - eapply startswith_trans; [apply startswith_child_path|done].
Qed.
End same_tree.

Section writes.
Context (R : positive → string → Prop).
Implicit Types (t : table).

Lemma writes_refl t : writes R t t.
Proof. intros d. by left. Qed.

Lemma writes_same_tree t t' : writes R t t' → same_tree t t'.
Proof.
  intros H d. destruct (H d) as [->|(s & r & _ & -> & ->)]; done.
Qed.

Lemma writes_trans t1 t2 t3 : writes R t1 t2 → writes R t2 t3 → writes R t1 t3.
Proof.
  intros H1 H2 d.
  destruct (H2 d) as [E2|(s2 & r2 & HR2 & E2 & E3)].
  - rewrite E2. apply H1.
  - right. destruct (H1 d) as [E1|(s1 & r1 & HR1 & E1 & E1')].
    + exists s2, r2. by rewrite <- E1.
    + exists s2, r1. rewrite E1' in E2. injection E2 as <-. done.
Qed.

Lemma writes_mono (R' : positive → string → Prop) t t' :
  (∀ d s, R' d s → R d s) → writes R' t t' → writes R t t'.
Proof.
  intros HR H d. destruct (H d) as [E|(s & r & ? & ? & ?)]; [by left|].
  right. exists s, r. auto.
Qed.

Lemma writes_set t d r s :
  t !! d = Some r → R d s → writes R t (<[d := with_path r s]> t).
Proof.
  intros Hd HR j. destruct (decide (j = d)) as [->|Hne].
  - right. exists s, r. by rewrite lookup_insert_eq.
  - left. by rewrite lookup_insert_ne.
Qed.

(** A row that holds its target keeps it. *)
Lemma writes_keep t t' d s :
  (∀ s1 s2, R d s1 → R d s2 → s1 = s2) →
  writes R t t' → R d s → path <$> t !! d = Some s → path <$> t' !! d = Some s.
Proof.
  intros Hfun H HR Hd. destruct (H d) as [->|(s' & r & HR' & E & ->)]; [done|].
  simpl. f_equal. by apply Hfun.
Qed.

Lemma writes_other t t' d : writes R t t' → (∀ s, ¬ R d s) → t' !! d = t !! d.
Proof.
  intros H Hn. destruct (H d) as [E|(s & r & HR & _)]; [done|]. by apply Hn in HR.
Qed.
End writes.

(** ** Query sets *)

Section queries.
Implicit Types (t : table) (d : Domain) (l : list Domain).

Lemma scan_spec t d : d ∈ scan t ↔ t !! id d = Some (row d).
Proof.
  unfold scan. rewrite list_elem_of_fmap. split.
  - intros ([i r] & -> & H). simpl. by apply elem_of_map_to_list.
  - intros H. exists (id d, row d). split; [by destruct d|].
    by apply elem_of_map_to_list.
Qed.

Lemma insert_by_path_perm d l : insert_by_path d l ≡ₚ d :: l.
Proof.
  induction l as [|x l IH]; simpl; [done|].
  destruct (String.leb _ _); [done|]. rewrite IH. apply Permutation_swap.
Qed.

Lemma order_by_path_perm l : order_by_path l ≡ₚ l.
Proof.
  induction l as [|x l IH]; simpl; [done|].
  by rewrite insert_by_path_perm, IH.
Qed.

Lemma objects_filter_spec t keep d :
  d ∈ objects_filter t keep ↔ t !! id d = Some (row d) ∧ keep d = true.
Proof.
  unfold objects_filter. rewrite order_by_path_perm, list_elem_of_filter, scan_spec.
  tauto.
Qed.

Lemma children_all_spec t a d :
  d ∈ children_all t a ↔ t !! id d = Some (row d) ∧ parent_id (row d) = Some a.
Proof.
  unfold children_all. rewrite objects_filter_spec, bool_decide_eq_true. tauto.
Qed.
End queries.

(** ** Domain.save on a tree *)

Section save.
Implicit Types (t : table) (db : DB) (self : Domain).

Lemma set_domains_set f g db :
  set_domains f (set_domains g db) = set_domains (λ t, f (g t)) db.
Proof. reflexivity. Qed.

Lemma set_domains_id db : set_domains (λ _, domains db) db = db.
Proof. by destruct db. Qed.

Lemma column_accepts_stored r : column_accepts (Some r) (path r) = true.
Proof.
  unfold column_accepts. simpl.
  rewrite (bool_decide_eq_true_2 (Some (path r) = Some (path r))) by done.
  apply orb_true_r.
Qed.

Lemma column_accepts_fits stored p :
  String.length p ≤ max_length → column_accepts stored p = true.
Proof. intros H. unfold column_accepts. by rewrite bool_decide_eq_true_2. Qed.

Lemma column_accepts_false stored p :
  column_accepts stored p = false → max_length < String.length p.
Proof.
  unfold column_accepts. intros [H _]%orb_false_iff.
  apply bool_decide_eq_false in H. lia.
Qed.

Lemma column_accepts_path r r' p :
  path r = path r' → column_accepts (Some r) p = column_accepts (Some r') p.
Proof. intros E. unfold column_accepts. simpl. by rewrite E. Qed.

(** [child.save(update_fields=['path'])] for a child that is stored
    under [self]: one UPDATE of the path, when the column takes it, and
    nothing else. *)
Lemma save_child ucp self c rc nm cp db :
  domains db !! c = Some rc → parent_id rc = Some (id self) →
  is_Some (domains db !! id self) →
  save_with ucp true (mkInstance (Some c) nm cp (Some self)) db =
  if column_accepts (Some rc) cp
  then Ok (mkDomain c (mkRow nm cp (Some (id self))))
          (set_domains (<[c := with_path rc cp]>) db)
  else Raise DataError db.
Proof.
  intros Hc Hp Hs. unfold save_with, bind, stored_parent, read, base_save_path, ret.
  simpl. rewrite Hc, Hp. rewrite (bool_decide_eq_true_2 _ Hs). simpl.
  destruct (column_accepts (Some rc) cp); [|done].
  rewrite (bool_decide_eq_true_2 (Some (id self) = Some (id self))) by done.
  simpl. unfold with_path. by rewrite Hp.
Qed.

Lemma repaired_split t a pa d s :
  repaired t a pa d s →
  (∃ r, t !! d = Some r ∧ parent_id r = Some a ∧ s = child_path pa a) ∨
  (∃ k rk, t !! k = Some rk ∧ parent_id rk = Some a ∧
           repaired t k (child_path pa a) d s).
Proof.
  induction 1 as [d r Hd Hp|d r p s Hd Hp _ IH].
  - left. eauto.
  - right. destruct IH as [(rp & Hrp & Hpp & ->)|(k & rk & Hk & Hpk & Hr)].
    + exists p, rp. split_and!; [done..|]. by eapply repaired_child.
    + exists k, rk. split_and!; [done..|]. by eapply repaired_step.
Qed.

(** One turn of the loop of [_update_children_paths]. *)
Lemma update_children_paths_step fuel self db tc k ks rc :
  let a := id self in
  let cp := child_path (dpath self) a in
  let body := λ child : Domain,
    let* child := save_with (_update_children_paths fuel) true
                    (mkInstance (Some (id child)) (name (row child)) cp (Some self)) in
    _update_children_paths fuel child in
  tc !! id k = Some rc → parent_id rc = Some a → is_Some (tc !! a) →
  for_each (k :: ks) body (set_domains (λ _, tc) db) =
  if column_accepts (Some rc) cp then
    match _update_children_paths fuel
            (mkDomain (id k) (mkRow (name (row k)) cp (Some a)))
            (set_domains (λ _, <[id k := with_path rc cp]> tc) db) with
    | Ok _ db' => for_each ks body db'
    | Raise e db' => Raise e db'
    end
  else Raise DataError (set_domains (λ _, tc) db).
Proof.
  intros a cp body Hk Hp Ha. simpl. unfold bind at 1. unfold body at 1.
  unfold bind at 1.
  rewrite (save_child _ self (id k) rc (name (row k)) cp); simpl; [|done..].
  by destruct (column_accepts (Some rc) cp).
Qed.

(** The repair walk over a subtree of bounded height: it returns,
    having given every node below [self] the path its chain of parents
    asks for, unless one of these paths is too long for the column; it
    writes nothing else. *)
Lemma update_children_paths_correct fuel :
  ∀ self db,
    height_le (domains db) (id self) fuel →
    is_Some (domains db !! id self) →
    ∃ t', writes (repaired (domains db) (id self) (dpath self)) (domains db) t' ∧
          ((_update_children_paths fuel self db = Ok tt (set_domains (λ _, t') db) ∧
            ∀ d s, repaired (domains db) (id self) (dpath self) d s →
                   path <$> t' !! d = Some s) ∨
           (_update_children_paths fuel self db =
              Raise DataError (set_domains (λ _, t') db) ∧
            ∃ d s, repaired (domains db) (id self) (dpath self) d s ∧
                   max_length < String.length s)).
Proof.
  induction fuel as [|fuel IHf]; intros self db Hh Hself; [inversion Hh|].
  set (t0 := domains db). set (a := id self). set (pa := dpath self).
  set (cp := child_path pa a). set (R := repaired t0 a pa).
  assert (Hacyc : ¬ desc t0 a a) by by eapply height_le_acyclic.
  assert (Rfun : ∀ d s1 s2, R d s1 → R d s2 → s1 = s2).
  { intros d s1 s2. by apply repaired_fun. }
  set (body := λ child : Domain,
    let* child := save_with (_update_children_paths fuel) true
                    (mkInstance (Some (id child)) (name (row child)) cp (Some self)) in
    _update_children_paths fuel child).
  assert (Hloop : ∀ ks,
    (∀ k, k ∈ ks → t0 !! id k = Some (row k) ∧ parent_id (row k) = Some a) →
    ∀ tc, writes R t0 tc →
    ∃ t', writes R tc t' ∧
          ((for_each ks body (set_domains (λ _, tc) db) =
              Ok tt (set_domains (λ _, t') db) ∧
            ∀ k, k ∈ ks →
              path <$> t' !! id k = Some cp ∧
              ∀ d s, repaired t0 (id k) cp d s → path <$> t' !! d = Some s) ∨
           (for_each ks body (set_domains (λ _, tc) db) =
              Raise DataError (set_domains (λ _, t') db) ∧
            ∃ d s, R d s ∧ max_length < String.length s))).
  { induction ks as [|k ks IHks]; intros Hks tc Htc.
    - exists tc. split; [apply writes_refl|]. left. split; [done|].
      intros k Hk. by apply elem_of_nil in Hk.
    - destruct (Hks k) as [Hk Hpk]; [by left|].
      pose proof (writes_same_tree _ _ _ Htc) as Hst.
      destruct (same_tree_lookup _ _ _ _ Hst Hk) as (rc & Hrc & Hnm & Hprc).
      assert (HRk : R (id k) cp) by (by eapply repaired_child).
      assert (Hstep : for_each (k :: ks) body (set_domains (λ _, tc) db) =
                if column_accepts (Some rc) cp then
                  match _update_children_paths fuel
                          (mkDomain (id k) (mkRow (name (row k)) cp (Some a)))
                          (set_domains (λ _, <[id k := with_path rc cp]> tc) db) with
                  | Ok _ db' => for_each ks body db'
                  | Raise e db' => Raise e db'
                  end
                else Raise DataError (set_domains (λ _, tc) db)).
      { apply (update_children_paths_step fuel self db tc k ks rc Hrc);
          [by rewrite Hprc|by eapply same_tree_is_Some]. }
      rewrite Hstep. clear Hstep.
      destruct (column_accepts (Some rc) cp) eqn:Hacc.
      2:{ exists tc. split; [apply writes_refl|]. right. split; [done|].
          exists (id k), cp. split; [done|]. by eapply column_accepts_false. }
      set (t1 := <[id k := with_path rc cp]> tc).
      assert (Hst1 : same_tree t0 t1).
      { eapply same_tree_trans; [done|]. by apply same_tree_set_path. }
      assert (Hhk : height_le t1 (id k) fuel).
      { eapply same_tree_height; [done|]. inversion Hh; subst. eauto. }
      destruct (IHf (mkDomain (id k) (mkRow (name (row k)) cp (Some a)))
                    (set_domains (λ _, t1) db) Hhk) as (t2 & Hw2 & Hout2).
      { simpl. unfold t1. rewrite lookup_insert_eq. eauto. }
      simpl in Hw2, Hout2. fold t1 in Hw2, Hout2.
      assert (Hlift : ∀ d s, repaired t1 (id k) cp d s → R d s).
      { intros d s Hr. eapply repaired_lift; [exact Hk|exact Hpk|].
        eapply same_tree_repaired; [|exact Hr]. by apply same_tree_sym. }
      assert (Hwc2 : writes R tc t2).
      { eapply writes_trans.
        - by apply (writes_set R tc (id k) rc cp).
        - eapply writes_mono; [exact Hlift|exact Hw2]. }
      destruct Hout2 as [[Hrun Hdone2]|[Hrun (d & s & Hr & Hlong)]]; rewrite Hrun.
      2:{ exists t2. split; [done|]. right. split; [done|].
          exists d, s. split; [by apply Hlift|done]. }
      destruct (IHks (λ k' Hk', Hks k' (list_elem_of_further _ _ _ Hk')) t2)
        as (t' & Hw' & Hout').
      { by eapply writes_trans. }
      exists t'. split; [by eapply writes_trans|].
      destruct Hout' as [[Hrest Hdone']|[Hrest Hlong]]; [left|by right].
      split; [done|].
      intros k' [->|Hk']%elem_of_cons; [|by apply Hdone'].
      assert (path <$> t2 !! id k = Some cp) as Hk2.
      { destruct (Hw2 (id k)) as [E|(s & r & Hr & _ & E)].
        - rewrite E. unfold t1. by rewrite lookup_insert_eq.
        - exfalso. apply repaired_desc in Hr.
          apply (same_tree_desc _ _ _ _ (same_tree_sym _ _ Hst1)) in Hr.
          eapply height_le_acyclic; [|exact Hr].
          inversion Hh; subst. eauto. }
      split.
      * exact (writes_keep R t2 t' (id k) cp (Rfun (id k)) Hw' HRk Hk2).
      * intros d s Hr.
        assert (R d s) as HRd
          by (eapply repaired_lift; [exact Hk|exact Hpk|exact Hr]).
        apply (writes_keep R t2 t' d s (Rfun d) Hw' HRd).
        apply Hdone2. by eapply same_tree_repaired. }
  destruct (Hloop (children_all t0 a)) with (tc := t0) as (t' & Hw & Hout).
  { intros k Hk. by apply children_all_spec in Hk. }
  { apply writes_refl. }
  assert (Hrun : _update_children_paths (S fuel) self db =
                 for_each (children_all t0 a) body (set_domains (λ _, t0) db)).
  { change (set_domains (λ _, t0) db) with (set_domains (λ _, domains db) db).
    by rewrite set_domains_id. }
  exists t'. split; [done|]. rewrite Hrun.
  destruct Hout as [[Hok Hdone]|Hraise]; [left|by right]. split; [done|].
  intros d s Hr. apply repaired_split in Hr
    as [(r & Hd & Hp & ->)|(k & rk & Hk & Hpk & Hr)].
  - destruct (Hdone (mkDomain d r)) as [E _]; [by apply children_all_spec|].
    exact E.
  - destruct (Hdone (mkDomain k rk)) as [_ E]; [by apply children_all_spec|].
    by apply E.
Qed.

(** Whatever the shape of the table and the depth allowed, the repair
    walk writes paths below [self] only.  It returns only when the
    depth allowed covers the subtree; otherwise it exhausts the stack,
    or it stops at a path that is too long for the column. *)
Lemma update_children_paths_outcome fuel :
  ∀ self db,
    is_Some (domains db !! id self) →
    ∃ t', writes (repaired (domains db) (id self) (dpath self)) (domains db) t' ∧
          ((_update_children_paths fuel self db = Ok tt (set_domains (λ _, t') db) ∧
            height_le (domains db) (id self) fuel) ∨
           _update_children_paths fuel self db =
             Raise RecursionError (set_domains (λ _, t') db) ∨
           (_update_children_paths fuel self db =
              Raise DataError (set_domains (λ _, t') db) ∧
            ∃ d s, repaired (domains db) (id self) (dpath self) d s ∧
                   max_length < String.length s)).
Proof.
  induction fuel as [|fuel IHf]; intros self db Hself.
  { exists (domains db). split; [apply writes_refl|]. right. left.
    by rewrite set_domains_id. }
  set (t0 := domains db). set (a := id self). set (pa := dpath self).
  set (cp := child_path pa a). set (R := repaired t0 a pa).
  set (body := λ child : Domain,
    let* child := save_with (_update_children_paths fuel) true
                    (mkInstance (Some (id child)) (name (row child)) cp (Some self)) in
    _update_children_paths fuel child).
  assert (Hloop : ∀ ks,
    (∀ k, k ∈ ks → t0 !! id k = Some (row k) ∧ parent_id (row k) = Some a) →
    ∀ tc, writes R t0 tc →
    ∃ t', writes R tc t' ∧
          ((for_each ks body (set_domains (λ _, tc) db) =
              Ok tt (set_domains (λ _, t') db) ∧
            ∀ k, k ∈ ks → height_le t0 (id k) fuel) ∨
           for_each ks body (set_domains (λ _, tc) db) =
             Raise RecursionError (set_domains (λ _, t') db) ∨
           (for_each ks body (set_domains (λ _, tc) db) =
              Raise DataError (set_domains (λ _, t') db) ∧
            ∃ d s, R d s ∧ max_length < String.length s))).
  { induction ks as [|k ks IHks]; intros Hks tc Htc.
    - exists tc. split; [apply writes_refl|]. left. split; [done|].
      intros k Hk. by apply elem_of_nil in Hk.
    - destruct (Hks k) as [Hk Hpk]; [by left|].
      pose proof (writes_same_tree _ _ _ Htc) as Hst.
      destruct (same_tree_lookup _ _ _ _ Hst Hk) as (rc & Hrc & Hnm & Hprc).
      assert (HRk : R (id k) cp) by (by eapply repaired_child).
      assert (Hstep : for_each (k :: ks) body (set_domains (λ _, tc) db) =
                if column_accepts (Some rc) cp then
                  match _update_children_paths fuel
                          (mkDomain (id k) (mkRow (name (row k)) cp (Some a)))
                          (set_domains (λ _, <[id k := with_path rc cp]> tc) db) with
                  | Ok _ db' => for_each ks body db'
                  | Raise e db' => Raise e db'
                  end
                else Raise DataError (set_domains (λ _, tc) db)).
      { apply (update_children_paths_step fuel self db tc k ks rc Hrc);
          [by rewrite Hprc|by eapply same_tree_is_Some]. }
      rewrite Hstep. clear Hstep.
      destruct (column_accepts (Some rc) cp) eqn:Hacc.
      2:{ exists tc. split; [apply writes_refl|]. right. right. split; [done|].
          exists (id k), cp. split; [done|]. by eapply column_accepts_false. }
      set (t1 := <[id k := with_path rc cp]> tc).
      assert (Hst1 : same_tree t0 t1).
      { eapply same_tree_trans; [done|]. by apply same_tree_set_path. }
      destruct (IHf (mkDomain (id k) (mkRow (name (row k)) cp (Some a)))
                    (set_domains (λ _, t1) db)) as (t2 & Hw2 & Hout2).
      { simpl. unfold t1. rewrite lookup_insert_eq. eauto. }
      simpl in Hw2, Hout2. fold t1 in Hw2, Hout2.
      assert (Hlift : ∀ d s, repaired t1 (id k) cp d s → R d s).
      { intros d s Hr. eapply repaired_lift; [exact Hk|exact Hpk|].
        eapply same_tree_repaired; [|exact Hr]. by apply same_tree_sym. }
      assert (Hwc2 : writes R tc t2).
      { eapply writes_trans.
        - by apply (writes_set R tc (id k) rc cp).
        - eapply writes_mono; [exact Hlift|exact Hw2]. }
      destruct Hout2 as [[Hrun Hhk]|[Hrun|[Hrun (d & s & Hr & Hlong)]]];
        rewrite Hrun.
      + destruct (IHks (λ k' Hk', Hks k' (list_elem_of_further _ _ _ Hk')) t2)
          as (t' & Hw' & Hout').
        { by eapply writes_trans. }
        exists t'. split; [by eapply writes_trans|].
        destruct Hout' as [[Hrest Hall]|[Hrest|Hrest]];
          [left|by right; left|by right; right].
        split; [done|].
        intros k' [->|Hk']%elem_of_cons; [|by apply Hall].
        eapply same_tree_height; [|exact Hhk]. by apply same_tree_sym.
      + exists t2. split; [done|]. right. by left.
      + exists t2. split; [done|]. right. right. split; [done|].
        exists d, s. split; [by apply Hlift|done]. }
  destruct (Hloop (children_all t0 a)) with (tc := t0) as (t' & Hw & Hout).
  { intros k Hk. by apply children_all_spec in Hk. }
  { apply writes_refl. }
  assert (Hrun : _update_children_paths (S fuel) self db =
                 for_each (children_all t0 a) body (set_domains (λ _, t0) db)).
  { change (set_domains (λ _, t0) db) with (set_domains (λ _, domains db) db).
    by rewrite set_domains_id. }
  exists t'. split; [done|]. rewrite Hrun.
  destruct Hout as [[Hok Hall]|[Hraise|Hraise]];
    [left|by right; left|by right; right].
  split; [done|]. constructor. intros c rc Hc Hpc.
  apply (Hall (mkDomain c rc)). by apply children_all_spec.
Qed.

Lemma max_path_length_ge t i r :
  t !! i = Some r → String.length (path r) ≤ max_path_length t.
Proof.
  unfold max_path_length. revert i r.
  apply (map_fold_weak_ind
           (λ m t, ∀ i r, t !! i = Some r → String.length (path r) ≤ m)).
  - intros i r H. by rewrite lookup_empty in H.
  - intros j x m n Hj IH i r Hi. destruct (decide (i = j)) as [->|Hne].
    + rewrite lookup_insert_eq in Hi. injection Hi as ->. lia.
    + rewrite lookup_insert_ne in Hi by done. specialize (IH i r Hi). lia.
Qed.

(** A rank that grows from parent to child and is bounded gives a
    bound on the height. *)
Lemma height_le_rank t (P : positive → Prop) (rk : positive → nat) (m : nat) :
  (∀ a c r, P a → t !! c = Some r → parent_id r = Some a →
            P c ∧ rk a < rk c ∧ rk c ≤ m) →
  ∀ n a, P a → m - rk a < n → height_le t a n.
Proof.
  intros Hstep. induction n as [|n IH]; intros a Ha Hn; [lia|].
  constructor. intros c r Hc Hp.
  destruct (Hstep a c r Ha Hc Hp) as (Hc' & Hlt & Hle). apply IH; [done|lia].
Qed.

Lemma I1_fk t i r p :
  I1 t → t !! i = Some r → parent_id r = Some p → is_Some (t !! p).
Proof. intros H Hi Hp. destruct (I1_parent _ _ _ _ H Hi Hp) as (pr & ? & _). eauto. Qed.

(** The stored parent of a row under I1 is its [parent_id]. *)
Lemma stored_parent_I1 db i r :
  (∀ p, parent_id r = Some p → is_Some (domains db !! p)) →
  domains db !! i = Some r →
  stored_parent i db = Ok (parent_id r) db.
Proof.
  intros Hfk Hi. unfold stored_parent, read. rewrite Hi.
  destruct (parent_id r) as [p|]; [|done].
  by rewrite bool_decide_eq_true_2 by auto.
Qed.

(** [save] of a stored node, as [perform_update] calls it: one UPDATE
    of the row when the parent is the stored one, and otherwise a
    second UPDATE, of the path, followed by the repair walk.  The first
    UPDATE writes the path the row has; the second one is refused when
    the new path is too long, and the new parent is stored by then. *)
Lemma save_existing fuel x rx nm np db :
  domains db !! x = Some rx →
  (∀ p, parent_id rx = Some p → is_Some (domains db !! p)) →
  (∀ y, np = Some y → is_Some (domains db !! id y)) →
  save fuel (mkInstance (Some x) nm (path rx) np) db =
  let seq := Pos.max (domain_seq db) (Pos.succ x) in
  let new_path := match np with
                  | Some p => child_path (dpath p) (id p)
                  | None => "/"%string
                  end in
  if decide (parent_id rx = id <$> np) then
    Ok (mkDomain x (mkRow nm (path rx) (id <$> np)))
       (mkDB (<[x := mkRow nm (path rx) (id <$> np)]> (domains db)) seq
             (projects db) (tasks db) (users db) (report_notes db) (saved_reports db))
  else if column_accepts (Some rx) new_path then
    let saved := mkDomain x (mkRow nm new_path (id <$> np)) in
    match _update_children_paths fuel saved
            (mkDB (<[x := mkRow nm new_path (id <$> np)]> (domains db)) seq
                  (projects db) (tasks db) (users db) (report_notes db)
                  (saved_reports db)) with
    | Ok _ db' => Ok saved db'
    | Raise e db' => Raise e db'
    end
  else
    Raise DataError
      (mkDB (<[x := mkRow nm (path rx) (id <$> np)]> (domains db)) seq
            (projects db) (tasks db) (users db) (report_notes db) (saved_reports db)).
Proof.
  intros Hx Hfk Hnp. unfold save, save_with.
  unfold bind at 1. cbn [pk self_name self_path parent].
  rewrite (stored_parent_I1 db x rx Hfk Hx).
  rewrite (bool_decide_eq_false_2 (Some x = None)) by done.
  cbn [pk self_name self_path parent negb andb orb].
  unfold bind at 1.
  assert (base_save (mkInstance (Some x) nm (path rx) np) db =
          Ok x (mkDB (<[x := mkRow nm (path rx) (id <$> np)]> (domains db))
                     (Pos.max (domain_seq db) (Pos.succ x))
                     (projects db) (tasks db) (users db) (report_notes db)
                     (saved_reports db))) as ->.
  { unfold base_save. cbn [pk self_name self_path parent mbind option_bind].
    rewrite Hx, column_accepts_stored. destruct np as [y|]; [|done].
    by rewrite bool_decide_eq_true_2 by auto. }
  simpl. destruct (decide (parent_id rx = id <$> np)) as [E|E].
  - rewrite (bool_decide_eq_true_2 _ E). simpl. unfold bind, ret. done.
  - rewrite (bool_decide_eq_false_2 _ E). simpl.
    unfold bind at 1. unfold bind at 1. unfold base_save_path. simpl.
    rewrite lookup_insert_eq.
    rewrite (column_accepts_path (mkRow nm (path rx) (id <$> np)) rx) by done.
    destruct (column_accepts (Some rx) _); [|done].
    simpl. unfold set_domains. simpl.
    rewrite insert_insert_eq. unfold bind, ret. done.
Qed.
End save.

(** ** Re-parenting a node *)

Section reparent.
Context (t : table) (x : positive) (r2 : Row).
Implicit Types (d : positive).

(** The table after [x]'s row has been rewritten with a parent that is
    neither [x] nor below [x]. *)
Let t1 : table := <[x := r2]> t.

Hypothesis target_ok :
  ∀ y, parent_id r2 = Some y → y ≠ x ∧ ¬ desc t x y.

Lemma desc_reparent_old d : desc t1 x d → desc t x d.
Proof.
  induction 1 as [d r Hd Hp|d r p Hd Hp _ IH].
  - destruct (decide (d = x)) as [->|Hne].
    + unfold t1 in Hd. rewrite lookup_insert_eq in Hd. injection Hd as <-.
      by destruct (target_ok _ Hp).
    + unfold t1 in Hd. rewrite lookup_insert_ne in Hd by done.
      by eapply desc_child.
  - destruct (decide (d = x)) as [->|Hne].
    + unfold t1 in Hd. rewrite lookup_insert_eq in Hd. injection Hd as <-.
      by destruct (target_ok _ Hp).
    + unfold t1 in Hd. rewrite lookup_insert_ne in Hd by done.
      by eapply desc_step.
Qed.

Lemma desc_reparent_new d : ¬ desc t x x → desc t x d → desc t1 x d.
Proof.
  intros Hacyc. induction 1 as [d r Hd Hp|d r p Hd Hp Hdesc IH].
  - assert (d ≠ x) by (intros ->; apply Hacyc; by eapply desc_child).
    eapply desc_child; [|done]. unfold t1. by rewrite lookup_insert_ne.
  - assert (d ≠ x) by (intros ->; apply Hacyc; by eapply desc_step).
    eapply desc_step; [|done..]. unfold t1. by rewrite lookup_insert_ne.
Qed.
End reparent.

Section moved.
Implicit Types (t : table) (db : DB).

Lemma lookup_path_Some t d s :
  path <$> t !! d = Some s → ∃ r, t !! d = Some r ∧ path r = s.
Proof. destruct (t !! d) as [r|]; intros [= <-]; eauto. Qed.

Lemma same_tree_insert_shape (t : table) (x : positive) (r r' : Row) :
  shape r = shape r' → same_tree (<[x := r]> t) (<[x := r']> t).
Proof.
  intros E i. destruct (decide (i = x)) as [->|Hne].
  - rewrite !lookup_insert_eq. simpl. by rewrite E.
  - by rewrite !lookup_insert_ne.
Qed.

(** The subtree of a node of a consistent tree is no higher than the
    longest path allows, also once the node's own row has been
    rewritten with a parent outside the subtree. *)
Lemma height_le_moved t x r2 fuel :
  I1 t → (∀ y, parent_id r2 = Some y → y ≠ x ∧ ¬ desc t x y) →
  max_path_length t < fuel → height_le (<[x := r2]> t) x fuel.
Proof.
  intros HI1 Hok Hfuel.
  apply (height_le_rank (<[x := r2]> t) (λ c, c = x ∨ desc t x c)
           (λ c, match t !! c with
                 | Some r => String.length (path r)
                 | None => 0
                 end) (max_path_length t)); [|by left|lia].
  intros a c r Ha Hc Hp. destruct (decide (c = x)) as [->|Hne].
  - rewrite lookup_insert_eq in Hc. injection Hc as <-.
    destruct (Hok _ Hp) as [? ?]. by destruct Ha.
  - rewrite lookup_insert_ne in Hc by done.
    destruct (I1_parent _ _ _ _ HI1 Hc Hp) as (ra & Hra & Hpath).
    rewrite Hra, Hc. split_and!.
    + right. destruct Ha as [->|Ha]; [by eapply desc_child|by eapply desc_step].
    + rewrite Hpath. apply child_path_length.
    + by eapply max_path_length_ge.
Qed.

(** [save] after the parent of a stored node of a consistent tree
    changed to a node that is not the node itself and not below it.
    Whatever the outcome, only paths of the subtree are written.  When
    the call returns, the table satisfies I1 again; it fails to return
    only when the depth allowed is not above the longest path, or when
    a new path is too long for the column. *)
Lemma save_moved_outcome fuel db x rx nm np :
  let t := domains db in
  let new_path := match np with
                  | Some p => child_path (dpath p) (id p)
                  | None => "/"%string
                  end in
  let r2 := mkRow nm new_path (id <$> np) in
  let run := save fuel (mkInstance (Some x) nm (path rx) np) db in
  I1 t → t !! x = Some rx →
  (∀ y, np = Some y → t !! id y = Some (row y)) →
  (∀ y, np = Some y → id y ≠ x ∧ ¬ desc t x (id y)) →
  parent_id rx ≠ id <$> np →
  ∃ t',
    db_of run =
      mkDB t' (Pos.max (domain_seq db) (Pos.succ x)) (projects db)
           (tasks db) (users db) (report_notes db) (saved_reports db) ∧
    same_tree (<[x := r2]> t) t' ∧
    (∀ d, d ≠ x → ¬ desc t x d → t' !! d = t !! d) ∧
    ((run = Ok (mkDomain x r2) (db_of run) ∧
      I1 t' ∧ t' !! x = Some r2 ∧
      (∀ d, desc t x d →
            ∃ rd, t' !! d = Some rd ∧
                  Py.startswith (path rd) (child_path new_path x) = true)) ∨
     (run = Raise RecursionError (db_of run) ∧ fuel ≤ max_path_length t) ∨
     (run = Raise DataError (db_of run) ∧
      (max_length < String.length new_path ∨
       ∃ d s, repaired (<[x := r2]> t) x new_path d s ∧
              max_length < String.length s))).
Proof.
  intros t new_path r2 run HI1 Hx Hnp Hok Hmoved.
  assert (Hacyc : ¬ desc t x x) by by apply I1_acyclic.
  assert (Hok' : ∀ y, parent_id r2 = Some y → y ≠ x ∧ ¬ desc t x y).
  { intros y Hy. simpl in Hy. destruct np as [p|]; [|done].
    injection Hy as <-. by apply Hok. }
  set (t1 := <[x := r2]> t).
  set (db1 := mkDB t1 (Pos.max (domain_seq db) (Pos.succ x)) (projects db)
                   (tasks db) (users db) (report_notes db) (saved_reports db)).
  assert (Hrun : run =
    if column_accepts (Some rx) new_path then
      match _update_children_paths fuel (mkDomain x r2) db1 with
      | Ok _ db' => Ok (mkDomain x r2) db'
      | Raise e db' => Raise e db'
      end
    else
      Raise DataError
        (mkDB (<[x := mkRow nm (path rx) (id <$> np)]> t)
              (Pos.max (domain_seq db) (Pos.succ x)) (projects db)
              (tasks db) (users db) (report_notes db) (saved_reports db))).
  { unfold run. rewrite (save_existing fuel x rx nm np db Hx).
    - cbv zeta. by rewrite decide_False by done.
    - intros p Hp. by eapply I1_fk.
    - intros y Hy. exists (row y). by apply Hnp. }
  rewrite Hrun. clearbody run. clear Hrun.
  destruct (column_accepts (Some rx) new_path) eqn:Hacc.
  2:{ exists (<[x := mkRow nm (path rx) (id <$> np)]> t). split_and!.
      - done.
      - by apply same_tree_insert_shape.
      - intros d Hne _. by rewrite lookup_insert_ne.
      - right. right. split; [done|]. left. by eapply column_accepts_false. }
  destruct (update_children_paths_outcome fuel (mkDomain x r2) db1)
    as (t' & Hw & Hout).
  { simpl. unfold t1. rewrite lookup_insert_eq. eauto. }
  simpl in Hw, Hout. change (dpath (mkDomain x r2)) with new_path in Hw, Hout.
  set (R := repaired t1 x new_path) in *.
  assert (HnoR : ∀ d, ¬ desc t x d → ∀ s, ¬ R d s).
  { intros d Hd s Hr. apply Hd. apply (desc_reparent_old t x r2 Hok').
    by eapply repaired_desc. }
  assert (Hx' : t' !! x = Some r2).
  { rewrite (writes_other R t1 t' x Hw (HnoR x Hacyc)).
    unfold t1. by rewrite lookup_insert_eq. }
  assert (Hframe : ∀ d, d ≠ x → ¬ desc t x d → t' !! d = t !! d).
  { intros d Hne Hd. rewrite (writes_other R t1 t' d Hw (HnoR d Hd)).
    unfold t1. by rewrite lookup_insert_ne. }
  exists t'.
  assert (Hdb : set_domains (λ _, t') db1 =
                mkDB t' (Pos.max (domain_seq db) (Pos.succ x)) (projects db)
                     (tasks db) (users db) (report_notes db) (saved_reports db))
    by done.
  destruct Hout as [[Hok1 Hh]|[Hrec|[Hdata Hlong]]].
  - rewrite Hok1. split_and!; [done|by eapply writes_same_tree|done|]. left.
    destruct (update_children_paths_correct fuel (mkDomain x r2) db1 Hh)
      as (t2 & _ & [[Hok2 Hdone]|[Hbad _]]).
    { simpl. unfold t1. rewrite lookup_insert_eq. eauto. }
    2:{ rewrite Hok1 in Hbad. done. }
    rewrite Hok1 in Hok2. injection Hok2 as <-.
    simpl in Hdone. change (dpath (mkDomain x r2)) with new_path in Hdone.
    fold t1 in Hdone. fold R in Hdone.
    assert (Hin : ∀ d, desc t x d → ∃ s, R d s ∧ path <$> t' !! d = Some s).
    { intros d Hd. apply (desc_reparent_new t x r2 d Hacyc) in Hd.
      destruct (desc_repaired t1 x new_path d Hd) as [s Hs]. eauto. }
    split_and!; [done| |done|].
    + apply map_Forall_lookup_2. intros i r' Hi.
      destruct (decide (i = x)) as [->|Hne].
      { rewrite Hx' in Hi. injection Hi as <-. unfold expected_path. simpl.
        destruct np as [y|]; simpl; [|done].
        destruct (Hok y eq_refl) as [Hy1 Hy2].
        rewrite (Hframe (id y) Hy1 Hy2), (Hnp y eq_refl). done. }
      destruct (same_tree_lookup _ _ _ _
                  (same_tree_sym _ _ (writes_same_tree _ _ _ Hw)) Hi)
        as (ri & Hri & _ & Hpi).
      unfold t1 in Hri. rewrite lookup_insert_ne in Hri by done.
      unfold expected_path. rewrite <- Hpi.
      destruct (Py.startswith (path ri) (child_path (path rx) x)) eqn:Hs.
      * apply (startswith_desc t x i rx ri HI1 Hx Hri) in Hs.
        destruct (Hin i Hs) as (s & HR & Hp). rewrite Hi in Hp. injection Hp as Hp.
        rewrite Hp. inversion HR as [d r Hd Hpar|d r p sp Hd Hpar HRp]; subst.
        -- unfold t1 in Hd. rewrite lookup_insert_ne in Hd by done.
           rewrite Hri in Hd. injection Hd as <-. rewrite Hpar, Hx'. done.
        -- unfold t1 in Hd. rewrite lookup_insert_ne in Hd by done.
           rewrite Hri in Hd. injection Hd as <-. rewrite Hpar.
           destruct (lookup_path_Some t' p sp) as (rp & -> & <-); [|done].
           apply Hdone, HRp.
      * assert (Hnd : ¬ desc t x i).
        { intros Hd. apply (desc_startswith t x i rx ri HI1) in Hd; [|done..].
          congruence. }
        rewrite (Hframe i Hne Hnd) in Hi. rewrite Hri in Hi. injection Hi as <-.
        destruct (parent_id ri) as [p|] eqn:Hp.
        -- destruct (I1_parent _ _ _ _ HI1 Hri Hp) as (pr & Hpr & ->).
           rewrite Hframe, Hpr; [done| |].
           ++ intros ->. apply Hnd. by eapply desc_child.
           ++ intros Hd. apply Hnd. by eapply desc_step.
        -- by rewrite (I1_root _ _ _ HI1 Hri Hp).
    + intros d Hd. destruct (Hin d Hd) as (s & HR & Hp).
      destruct (lookup_path_Some t' d s Hp) as (rd & Hrd & <-).
      exists rd. split; [done|]. by eapply repaired_startswith.
  - rewrite Hrec. split_and!; [done|by eapply writes_same_tree|done|].
    right. left. split; [done|].
    destruct (decide (fuel ≤ max_path_length t)) as [|Hgt]; [done|]. exfalso.
    assert (Hh : height_le t1 x fuel) by (apply height_le_moved; [done..|lia]).
    destruct (update_children_paths_correct fuel (mkDomain x r2) db1 Hh)
      as (t2 & _ & [[Hbad _]|[Hbad _]]).
    { simpl. unfold t1. rewrite lookup_insert_eq. eauto. }
    + rewrite Hrec in Hbad. done.
    + rewrite Hrec in Hbad. done.
  - rewrite Hdata. split_and!; [done|by eapply writes_same_tree|done|].
    right. right. split; [done|]. by right.
Qed.
End moved.

(** ** The API calls on a tree *)

Section api.
Implicit Types (t : table) (db : DB).

Lemma resolve_opt_Some db k :
  (∀ y, k = Some y → is_Some (domains db !! y)) →
  resolve_opt k db = Ok (lookup_obj (domains db) k) db.
Proof.
  intros H. destruct k as [y|]; simpl; [|done].
  destruct (H y eq_refl) as [ry Hy]. unfold bind, resolve, ret. by rewrite Hy.
Qed.

Lemma resolve_opt_None db y :
  domains db !! y = None → resolve_opt (Some y) db = Raise NotFound db.
Proof. intros H. simpl. unfold bind, resolve. by rewrite H. Qed.

Lemma update_run fuel db x rx new_name new_parent :
  domains db !! x = Some rx →
  (∀ y, default (parent_id rx) new_parent = Some y → is_Some (domains db !! y)) →
  update fuel x new_name new_parent db =
  save fuel (mkInstance (Some x) (default (name rx) new_name) (path rx)
               (lookup_obj (domains db) (default (parent_id rx) new_parent))) db.
Proof.
  intros Hx Hy. unfold update. unfold bind at 1. unfold resolve. rewrite Hx.
  unfold bind at 1. cbn [row id]. by rewrite (resolve_opt_Some db _ Hy).
Qed.

Lemma lookup_obj_id t k :
  (∀ y, k = Some y → is_Some (t !! y)) → id <$> lookup_obj t k = k.
Proof.
  intros H. destruct k as [y|]; simpl; [|done].
  by destruct (H y eq_refl) as [ry ->].
Qed.

Lemma lookup_obj_Some t k y :
  lookup_obj t k = Some y → k = Some (id y) ∧ t !! id y = Some (row y).
Proof.
  destruct k as [z|]; simpl; [|done].
  destruct (t !! z) as [rz|] eqn:E; simpl; [|done]. intros [= <-]. done.
Qed.

Lemma row_eta (r : Row) : mkRow (name r) (path r) (parent_id r) = r.
Proof. by destruct r. Qed.

Lemma valid_target_Some t x y :
  valid_target t x (Some y) = true →
  ∃ rx ry, t !! x = Some rx ∧ t !! y = Some ry ∧ y ≠ x ∧
           is_ancestor_of (mkDomain x rx) (mkDomain y ry) = false.
Proof.
  unfold valid_target. destruct (t !! x) as [rx|]; [|done].
  destruct (t !! y) as [ry|]; [|done].
  intros [H1 H2]%andb_prop. exists rx, ry. split_and!; try done.
  - apply negb_true_iff in H1. by apply bool_decide_eq_false in H1.
  - by apply negb_true_iff in H2.
Qed.

Lemma valid_target_ok (t : table) (x : positive) (rx : Row)
    (new_parent : option positive) :
  I1 t → t !! x = Some rx → valid_target t x new_parent = true →
  ∀ y, new_parent = Some y → is_Some (t !! y) ∧ y ≠ x ∧ ¬ desc t x y.
Proof.
  intros HI1 Hx Hv y ->.
  apply valid_target_Some in Hv as (rx' & ry & Hx2 & Hy2 & Hne & Ha).
  split; [eauto|]. split; [done|]. intros Hd.
  rewrite Hx in Hx2. injection Hx2 as <-.
  pose proof (desc_startswith _ _ _ _ _ HI1 Hd Hx Hy2) as Hs.
  unfold is_ancestor_of, dpath in Ha. simpl in Ha. congruence.
Qed.

(** [move] on a consistent tree, to a target that is absent or is a
    stored node that is neither the node nor below it.  Whatever the
    outcome, names and parents of the other nodes stay and rows
    outside the subtree are not written.  When the call returns, the
    node has its path from the new parent, the table satisfies I1 and
    the subtree has followed; it fails to return only when the depth
    allowed is not above the longest path, or when a new path is too
    long for the column. *)
Lemma move_outcome fuel db x rx new_parent :
  let t := domains db in
  let new_path := match lookup_obj t new_parent with
                  | Some p => child_path (dpath p) (id p)
                  | None => "/"%string
                  end in
  let run := move fuel x new_parent db in
  I1 t → t !! x = Some rx → valid_target t x new_parent = true →
  ∃ t',
    db_of run =
      mkDB t' (Pos.max (domain_seq db) (Pos.succ x)) (projects db)
           (tasks db) (users db) (report_notes db) (saved_reports db) ∧
    same_tree (<[x := mkRow (name rx) (path rx) new_parent]> t) t' ∧
    (∀ d, d ≠ x → ¬ desc t x d → t' !! d = t !! d) ∧
    ((run = Ok (mkDomain x (mkRow (name rx) new_path new_parent)) (db_of run) ∧
      t' !! x = Some (mkRow (name rx) new_path new_parent) ∧
      I1 t' ∧
      (∀ d, desc t x d →
            ∃ rd, t' !! d = Some rd ∧
                  Py.startswith (path rd) (child_path new_path x) = true)) ∨
     (run = Raise RecursionError (db_of run) ∧ fuel ≤ max_path_length t) ∨
     (run = Raise DataError (db_of run) ∧
      (max_length < String.length new_path ∨
       ∃ d s, repaired (<[x := mkRow (name rx) new_path new_parent]> t) x
                new_path d s ∧
              max_length < String.length s))).
Proof.
  intros t new_path run HI1 Hx Hv.
  pose proof (valid_target_ok _ _ _ _ HI1 Hx Hv) as Hok.
  assert (Hres : ∀ y, new_parent = Some y → is_Some (t !! y)).
  { intros y Hy. by destruct (Hok y Hy). }
  assert (Hrun : run = save fuel (mkInstance (Some x) (name rx) (path rx)
                                    (lookup_obj t new_parent)) db).
  { unfold run, move.
    by rewrite (update_run fuel db x rx None (Some new_parent) Hx). }
  pose proof (lookup_obj_id t new_parent Hres) as Hid.
  destruct (decide (parent_id rx = new_parent)) as [E|E].
  - (* the stored parent again: one UPDATE, no repair *)
    assert (Hnp : new_path = path rx).
    { unfold new_path. subst new_parent.
      destruct (parent_id rx) as [p|] eqn:Hp; simpl.
      - destruct (I1_parent _ _ _ _ HI1 Hx Hp) as (pr & Hpr & ->).
        by rewrite Hpr.
      - symmetry. by eapply I1_root. }
    assert (Hrow : mkRow (name rx) new_path new_parent = rx).
    { rewrite Hnp, <- E. apply row_eta. }
    assert (Hrun' : run =
      Ok (mkDomain x rx)
         (mkDB t (Pos.max (domain_seq db) (Pos.succ x)) (projects db)
               (tasks db) (users db) (report_notes db) (saved_reports db))).
    { rewrite Hrun, (save_existing fuel x rx (name rx) _ db Hx).
      - cbv zeta. rewrite Hid. rewrite decide_True by done.
        rewrite <- E, row_eta. fold t. by rewrite (insert_id _ _ _ Hx).
      - intros p Hp. by eapply I1_fk.
      - intros y [_ Hy]%lookup_obj_Some. eauto. }
    rewrite Hrun', Hrow. clearbody run. exists t. split_and!.
    + done.
    + rewrite <- E, row_eta, (insert_id _ _ _ Hx). apply same_tree_refl.
    + done.
    + left. split_and!; [done..|].
      intros d Hd. destruct (desc_lookup _ _ _ Hd) as [rd Hrd].
      exists rd. split; [done|]. rewrite Hnp. by eapply desc_startswith.
  - destruct (save_moved_outcome fuel db x rx (name rx) (lookup_obj t new_parent))
      as (t' & Hdb & Hsame & Hframe & Hout); try done.
    + intros y [_ Hy]%lookup_obj_Some. done.
    + intros y [-> Hy]%lookup_obj_Some. destruct (Hok _ eq_refl) as (_ & ? & ?).
      done.
    + by rewrite Hid.
    + rewrite <- Hrun in Hdb, Hout. rewrite Hid in Hsame, Hout.
      fold new_path in Hsame, Hout. clearbody run.
      exists t'. split_and!; [done| |done|].
      * eapply same_tree_trans; [|exact Hsame].
        by apply same_tree_insert_shape.
      * destruct Hout as [(H1 & H2 & H3 & H4)|[H|H]]; [left|by right; left|by right; right].
        done.
Qed.


Lemma children_all_nil t i :
  (∀ c r, t !! c = Some r → parent_id r ≠ Some i) → children_all t i = [].
Proof.
  intros H. apply elem_of_nil_inv. intros d [Hd Hp]%children_all_spec.
  by apply (H _ _ Hd).
Qed.

(** [save] of a fresh object, as [perform_create] calls it: one
    INSERT under the next key, refused when the path is too long, and
    a repair walk that finds no child. *)
Lemma save_new fuel db nm np :
  seq_ok db →
  (∀ c r p, domains db !! c = Some r → parent_id r = Some p →
            is_Some (domains db !! p)) →
  (∀ y, np = Some y → is_Some (domains db !! id y)) →
  let new_path := match np with
                  | Some p => child_path (dpath p) (id p)
                  | None => "/"%string
                  end in
  let r := mkRow nm new_path (id <$> np) in
  save (S fuel) (mkInstance None nm "" np) db =
  if column_accepts None new_path then
    Ok (mkDomain (domain_seq db) r)
       (mkDB (<[domain_seq db := r]> (domains db)) (Pos.succ (domain_seq db))
             (projects db) (tasks db) (users db) (report_notes db)
             (saved_reports db))
  else Raise DataError db.
Proof.
  intros Hseq Hfk Hnp new_path r. unfold save, save_with.
  unfold bind at 1. unfold ret at 1. cbn [pk self_name self_path parent].
  rewrite (bool_decide_eq_true_2 (None = None)) by done.
  cbn [pk self_name self_path parent negb andb orb].
  unfold bind at 1.
  lazymatch goal with
  | |- match ?X with _ => _ end = _ =>
      assert (X = if column_accepts None new_path then
                    Ok (domain_seq db)
                       (mkDB (<[domain_seq db := r]> (domains db))
                             (Pos.succ (domain_seq db))
                             (projects db) (tasks db) (users db) (report_notes db)
                             (saved_reports db))
                  else Raise DataError db) as ->
  end.
  { unfold base_save. cbn [pk self_name self_path parent mbind option_bind].
    fold new_path. destruct (column_accepts None new_path); [|done].
    destruct np as [y|]; [|done].
    by rewrite bool_decide_eq_true_2 by auto. }
  destruct (column_accepts None new_path); [|done].
  unfold bind at 1. unfold ret at 1. unfold bind at 1.
  simpl _update_children_paths. unfold bind at 1. unfold read. cbn [domains id].
  rewrite children_all_nil; [done|].
  intros c rc Hc Hp. destruct (decide (c = domain_seq db)) as [->|Hne].
  - rewrite lookup_insert_eq in Hc. injection Hc as <-. simpl in Hp.
    destruct np as [y|]; [|done]. injection Hp as Hp.
    destruct (Hnp y eq_refl) as [ry Hy]. rewrite Hp in Hy.
    apply (map_Forall_lookup_1 _ _ _ _ Hseq) in Hy. lia.
  - rewrite lookup_insert_ne in Hc by done.
    destruct (Hfk _ _ _ Hc Hp) as [rp Hrp].
    apply (map_Forall_lookup_1 _ _ _ _ Hseq) in Hrp. lia.
Qed.

Lemma seq_fresh (db : DB) : seq_ok db → domains db !! domain_seq db = None.
Proof.
  intros Hseq. destruct (domains db !! domain_seq db) as [r0|] eqn:E; [|done].
  apply (map_Forall_lookup_1 _ _ _ _ Hseq) in E. lia.
Qed.

(** [create] under a parent that resolves: one INSERT, when the column
    takes the path. *)
Lemma create_run (fuel : nat) (db : DB) (nm : string) (pid : option positive) :
  I1 (domains db) → seq_ok db →
  (∀ y, pid = Some y → is_Some (domains db !! y)) →
  let new_path := match lookup_obj (domains db) pid with
                  | Some p => child_path (dpath p) (id p)
                  | None => "/"%string
                  end in
  let r := mkRow nm new_path pid in
  create (S fuel) nm pid db =
  if column_accepts None new_path then
    Ok (mkDomain (domain_seq db) r)
       (mkDB (<[domain_seq db := r]> (domains db)) (Pos.succ (domain_seq db))
             (projects db) (tasks db) (users db) (report_notes db)
             (saved_reports db))
  else Raise DataError db.
Proof.
  intros HI1 Hseq Hres new_path r. unfold create. unfold bind at 1.
  rewrite (resolve_opt_Some db _ Hres). rewrite save_new; [|done| |].
  - cbv zeta. unfold r, new_path. by rewrite (lookup_obj_id _ _ Hres).
  - intros c rc p Hc Hp. by eapply I1_fk.
  - intros y [_ Hy]%lookup_obj_Some. eauto.
Qed.

(** A row with the path of its parent, inserted under the next key,
    keeps I1. *)
Lemma create_I1 (db : DB) (nm : string) (pid : option positive) :
  I1 (domains db) → seq_ok db →
  (∀ y, pid = Some y → is_Some (domains db !! y)) →
  let new_path := match lookup_obj (domains db) pid with
                  | Some p => child_path (dpath p) (id p)
                  | None => "/"%string
                  end in
  let r := mkRow nm new_path pid in
  expected_path (domains db) r = Some (path r) ∧
  I1 (<[domain_seq db := r]> (domains db)).
Proof.
  intros HI1 Hseq Hres new_path r.
  assert (Hexp : expected_path (domains db) r = Some (path r)).
  { unfold expected_path, r, new_path. simpl. destruct pid as [y|]; [|done].
    simpl. destruct (Hres y eq_refl) as [ry Hy]. by rewrite Hy. }
  pose proof (seq_fresh db Hseq) as Hfresh.
  split; [done|].
  apply map_Forall_lookup_2. intros i ri Hi.
  assert (∀ r', expected_path (domains db) r' = Some (path r') →
                expected_path (<[domain_seq db := r]> (domains db)) r'
                = Some (path r')) as Hkeep.
  { intros r' Hr'. unfold expected_path in *.
    destruct (parent_id r') as [p|]; [|done].
    destruct (decide (p = domain_seq db)) as [->|Hne].
    - by rewrite Hfresh in Hr'.
    - by rewrite lookup_insert_ne. }
  destruct (decide (i = domain_seq db)) as [->|Hne].
  + rewrite lookup_insert_eq in Hi. injection Hi as <-. by apply Hkeep.
  + rewrite lookup_insert_ne in Hi by done. apply Hkeep.
    by apply (map_Forall_lookup_1 _ _ _ _ HI1) in Hi.
Qed.

Lemma new_path_fits (t : table) (pid : option positive) :
  (∀ y ry, pid = Some y → t !! y = Some ry →
           String.length (child_path (path ry) y) ≤ max_length) →
  column_accepts None match lookup_obj t pid with
                      | Some p => child_path (dpath p) (id p)
                      | None => "/"%string
                      end = true.
Proof.
  intros Hfit. apply column_accepts_fits. destruct pid as [y|]; simpl.
  - destruct (t !! y) as [ry|] eqn:Hy; simpl.
    + by eapply Hfit.
    + unfold max_length. lia.
  - unfold max_length. lia.
Qed.

(** What [create] leaves behind, when the path of the new node fits
    the column. *)
Lemma create_correct fuel db nm pid :
  I1 (domains db) → seq_ok db → 0 < fuel →
  (∀ y, pid = Some y → is_Some (domains db !! y)) →
  (∀ y ry, pid = Some y → domains db !! y = Some ry →
           String.length (child_path (path ry) y) ≤ max_length) →
  ∃ r, create fuel nm pid db =
         Ok (mkDomain (domain_seq db) r)
            (mkDB (<[domain_seq db := r]> (domains db)) (Pos.succ (domain_seq db))
                  (projects db) (tasks db) (users db) (report_notes db)
                  (saved_reports db)) ∧
       expected_path (domains db) r = Some (path r) ∧
       name r = nm ∧ parent_id r = pid ∧
       I1 (<[domain_seq db := r]> (domains db)).
Proof.
  intros HI1 Hseq Hfuel Hres Hfit. destruct fuel as [|fuel]; [lia|].
  pose proof (create_run fuel db nm pid HI1 Hseq Hres) as Hrun.
  cbv zeta in Hrun. rewrite (new_path_fits _ _ Hfit) in Hrun.
  destruct (create_I1 db nm pid HI1 Hseq Hres) as [Hexp HI1'].
  eexists. split; [exact Hrun|]. done.
Qed.

Lemma create_not_found fuel db nm y :
  domains db !! y = None → create fuel nm (Some y) db = Raise NotFound db.
Proof.
  intros Hy. unfold create. unfold bind at 1. by rewrite resolve_opt_None.
Qed.
End api.

(** ** The repair walk on a cycle *)

Section cycles.
Implicit Types (t : table) (db : DB).

(** The first step of a descent. *)
Lemma desc_first t a d :
  desc t a d →
  ∃ c rc, t !! c = Some rc ∧ parent_id rc = Some a ∧ (c = d ∨ desc t c d).
Proof.
  induction 1 as [d r Hd Hp|d r p Hd Hp _ (c & rc & Hc & Hpc & Hcd)].
  - exists d, r. auto.
  - exists c, rc. split_and!; [done..|]. right.
    destruct Hcd as [->|Hcd]; [by eapply desc_child|by eapply desc_step].
Qed.

(** A node on a cycle has a child on that cycle. *)
Lemma cycle_child t a :
  desc t a a → ∃ c rc, t !! c = Some rc ∧ parent_id rc = Some a ∧ desc t c c.
Proof.
  intros (c & rc & Hc & Hpc & Hca)%desc_first. exists c, rc. split_and!; [done..|].
  destruct Hca as [->|Hca]; [by eapply desc_child|].
  eapply desc_trans; [exact Hca|]. by eapply desc_child.
Qed.

Lemma desc_reparent_any t x r2 d :
  desc t x d → d = x ∨ desc (<[x := r2]> t) x d.
Proof.
  induction 1 as [d r Hd Hp|d r p Hd Hp _ IH].
  - destruct (decide (d = x)) as [->|Hne]; [by left|right].
    eapply desc_child; [|done]. by rewrite lookup_insert_ne.
  - destruct (decide (d = x)) as [->|Hne]; [by left|right].
    destruct IH as [->|IH].
    + eapply desc_child; [|done]. by rewrite lookup_insert_ne.
    + eapply desc_step; [|done..]. by rewrite lookup_insert_ne.
Qed.

(** A move under the node itself or under one of its descendants:
    [save] stores the new parent, and the call does not return: the
    repair walk goes round the cycle until the stack or the column
    stops it. *)
Lemma move_cycle fuel db x y :
  I1 (domains db) → is_Some (domains db !! x) →
  y = x ∨ desc (domains db) x y →
  ∃ e t', move fuel x (Some y) db =
            Raise e
              (mkDB t' (Pos.max (domain_seq db) (Pos.succ x)) (projects db)
                    (tasks db) (users db) (report_notes db) (saved_reports db)) ∧
          (e = RecursionError ∨ e = DataError) ∧
          parent_id <$> t' !! x = Some (Some y) ∧
          desc t' x x.
Proof.
  intros HI1 [rx Hx] Hcyc.
  assert (Hy : is_Some (domains db !! y)).
  { destruct Hcyc as [->|Hd]; [eauto|by eapply desc_lookup]. }
  assert (Hres : ∀ z, Some y = Some z → is_Some (domains db !! z)).
  { by intros z [= <-]. }
  assert (Hmoved : parent_id rx ≠ Some y).
  { intros Hp. apply (I1_acyclic (domains db) x HI1).
    destruct Hcyc as [->|Hd]; [by eapply desc_child|by eapply desc_step]. }
  assert (Hloop : ∀ r, parent_id r = Some y → desc (<[x := r]> (domains db)) x x).
  { intros r Hr.
    assert (Hx1 : <[x := r]> (domains db) !! x = Some r)
      by apply lookup_insert_eq.
    destruct Hcyc as [->|Hd]; [by eapply desc_child|].
    apply (desc_reparent_any _ _ r) in Hd as [->|Hd].
    - by eapply desc_child.
    - by eapply desc_step. }
  unfold move. rewrite (update_run fuel db x rx None (Some (Some y)) Hx) by done.
  change (default (parent_id rx) (Some (Some y))) with (Some y).
  change (default (name rx) None) with (name rx).
  rewrite (save_existing fuel x rx (name rx) _ db Hx).
  - cbv zeta. rewrite (lookup_obj_id _ _ Hres). rewrite decide_False by done.
    destruct (column_accepts (Some rx) _).
    2:{ eexists DataError, _. split; [done|]. split; [by right|].
        split; [by rewrite lookup_insert_eq|]. by apply Hloop. }
    set (r2 := mkRow _ _ _).
    set (db1 := mkDB _ _ _ _ _ _ _).
    destruct (update_children_paths_outcome fuel (mkDomain x r2) db1)
      as (t' & Hw & Hout).
    { simpl. rewrite lookup_insert_eq. eauto. }
    simpl in Hw, Hout.
    pose proof (writes_same_tree _ _ _ Hw) as Hst.
    assert (Hpar : parent_id <$> t' !! x = Some (Some y)).
    { specialize (Hst x).
      rewrite lookup_insert_eq in Hst. simpl in Hst.
      destruct (t' !! x) as [rx'|]; simpl in *; [|done].
      unfold shape, r2 in Hst. simpl in Hst. injection Hst as _ Hp.
      by rewrite <- Hp. }
    assert (Hd' : desc t' x x).
    { eapply same_tree_desc; [exact Hst|]. by apply Hloop. }
    destruct Hout as [[_ Hh]|[Hrun|[Hrun _]]].
    + exfalso. apply (height_le_acyclic _ _ _ Hh). by apply Hloop.
    + exists RecursionError, t'. rewrite Hrun. split; [done|].
      split; [by left|done].
    + exists DataError, t'. rewrite Hrun. split; [done|].
      split; [by right|done].
  - intros p Hp. by eapply I1_fk.
  - intros z [_ Hz]%lookup_obj_Some. eauto.
Qed.
End cycles.

(** ** Reading a path back *)

Section tokens.
Implicit Types (s u v : string) (c a : ascii).

Lemma split_nonempty c s : Py.split c s ≠ [].
Proof.
  destruct s as [|a s]; simpl; [done|].
  destruct (Ascii.eqb a c); [done|]. by destruct (Py.split c s).
Qed.

Lemma split_cons_sep c s : Py.split c (String c s) = ""%string :: Py.split c s.
Proof. simpl. by rewrite Ascii.eqb_refl. Qed.

(** Splitting at a separator splits the list of fields. *)
Lemma split_append c u v :
  Py.split c (String.append u (String c v)) = Py.split c u ++ Py.split c v.
Proof.
  induction u as [|a u IH].
  - rewrite append_nil_l, split_cons_sep. done.
  - rewrite append_cons. simpl. rewrite IH.
    destruct (Ascii.eqb a c); [done|].
    pose proof (split_nonempty c u). by destruct (Py.split c u).
Qed.

Lemma split_free c s : free_of c s = true → Py.split c s = [s].
Proof.
  induction s as [|a s IH]; simpl; [done|].
  destruct (Ascii.eqb a c); simpl; [done|]. intros H. by rewrite IH.
Qed.

(** The non-empty fields of a string. *)
Let tokens c s : list string := filter (λ x, Py.truthy x = true) (Py.split c s).

Lemma tokens_cons_sep c s : tokens c (String c s) = tokens c s.
Proof. unfold tokens. rewrite split_cons_sep. by rewrite filter_cons_False. Qed.

Lemma tokens_append c u v :
  tokens c (String.append u (String c v)) = tokens c u ++ tokens c v.
Proof. unfold tokens. by rewrite split_append, filter_app. Qed.

Lemma tokens_lstrip c s : tokens c (Py.lstrip c s) = tokens c s.
Proof.
  induction s as [|a s IH]; simpl; [done|].
  destruct (Ascii.eqb_spec a c) as [->|Hne]; [|done].
  by rewrite IH, tokens_cons_sep.
Qed.

Lemma rstrip_decomp c s :
  ∃ z, s = String.append (Py.rstrip c s) z ∧ Py.lstrip c z = ""%string.
Proof.
  induction s as [|a s (z & Hs & Hz)].
  - by exists ""%string.
  - simpl Py.rstrip. destruct (Py.rstrip c s) as [|b r] eqn:E.
    + rewrite append_nil_l in Hs. subst z.
      destruct (Ascii.eqb_spec a c) as [->|Hne].
      * exists (String c s). split; [done|]. simpl. by rewrite Ascii.eqb_refl.
      * exists s. split; [done|]. done.
    + exists z. split; [|done]. rewrite append_cons. by rewrite <- Hs.
Qed.

Lemma tokens_rstrip c s : tokens c (Py.rstrip c s) = tokens c s.
Proof.
  destruct (rstrip_decomp c s) as (z & Hs & Hz). rewrite Hs at 2.
  destruct z as [|a z].
  - by rewrite append_nil_r.
  - simpl in Hz. destruct (Ascii.eqb_spec a c) as [->|Hne]; [|done].
    rewrite tokens_append. rewrite <- (tokens_lstrip c z), Hz.
    unfold tokens at 3. simpl. rewrite filter_cons_False by (simpl; congruence).
    by rewrite filter_nil, app_nil_r.
Qed.

Lemma tokens_strip c s : tokens c (Py.strip c s) = tokens c s.
Proof. unfold Py.strip. by rewrite tokens_rstrip, tokens_lstrip. Qed.

Lemma tokens_free c s :
  free_of c s = true → s ≠ ""%string → tokens c s = [s].
Proof.
  intros Hf Hs. unfold tokens. rewrite split_free by done.
  rewrite filter_cons_True; [done|]. by destruct s.
Qed.

Lemma tokens_segments ids :
  tokens Py.slash (segments ids) = map (λ i, Py.str (Z.pos i)) ids.
Proof.
  induction ids as [|i ids IH]; simpl.
  - unfold tokens. simpl. by rewrite filter_cons_False by (simpl; congruence).
  - change (String "/" (segments ids)) with (String Py.slash (segments ids)).
    rewrite tokens_append, IH.
    by rewrite tokens_free by (apply str_free || apply str_nonempty).
Qed.

Lemma ints_str (ids : list positive) :
  Py.ints (map (λ i, Py.str (Z.pos i)) ids) = Some (map Z.pos ids).
Proof.
  induction ids as [|i ids IH]; simpl; [done|]. by rewrite int_str, IH.
Qed.

(** The ids read back from the path of a chain are the chain. *)
Lemma path_ids_render ids : path_ids (render ids) = Some (map Z.pos ids).
Proof.
  unfold path_ids. fold (tokens Py.slash (Py.strip Py.slash (render ids))).
  rewrite tokens_strip. unfold render.
  change (String "/" (segments ids)) with (String Py.slash (segments ids)).
  rewrite tokens_cons_sep, tokens_segments. apply ints_str.
Qed.
End tokens.

(** ** The order of a query set *)

Section ordering.
Implicit Types (t : table) (d x : Domain) (l : list Domain).

Lemma ascii_compare_refl (a : ascii) : Ascii.compare a a = Eq.
Proof. unfold Ascii.compare. apply N.compare_refl. Qed.

Lemma compare_append_lt (p s : string) :
  s ≠ ""%string → String.compare p (String.append p s) = Lt.
Proof.
  intros Hs. induction p as [|a p IH].
  - rewrite append_nil_l. by destruct s.
  - rewrite append_cons. simpl. by rewrite ascii_compare_refl.
Qed.

Lemma path_lt_leb d1 d2 :
  path_lt d1 d2 →
  String.leb (dpath d1) (dpath d2) = true ∧ String.leb (dpath d2) (dpath d1) = false.
Proof.
  intros (s & Hs & ->). unfold String.leb.
  rewrite (String.compare_antisym (String.append _ _)).
  by rewrite compare_append_lt.
Qed.

Lemma path_lt_irrefl d : ¬ path_lt d d.
Proof.
  intros (s & Hs & E). apply (f_equal String.length) in E.
  rewrite length_append in E. destruct s; [done|]. simpl in E. lia.
Qed.

(** Inserting an object between the paths it extends and the paths
    that extend it. *)
Lemma insert_by_path_between x l1 l2 :
  Forall (λ d, path_lt d x) l1 → Forall (λ d, path_lt x d) l2 →
  insert_by_path x (l1 ++ l2) = l1 ++ x :: l2.
Proof.
  intros H1 H2. induction H1 as [|d l1 Hd _ IH]; simpl.
  - destruct H2 as [|d l2 Hd _]; simpl; [done|].
    by destruct (path_lt_leb _ _ Hd) as [-> _].
  - destruct (path_lt_leb _ _ Hd) as [_ ->]. by rewrite IH.
Qed.

(** A set of objects whose paths extend one another comes out of
    [order_by] in that one order. *)
Lemma order_by_path_chain l :
  ∀ c, StronglySorted path_lt c → l ≡ₚ c → order_by_path l = c.
Proof.
  induction l as [|x l IH]; intros c Hc Hp.
  - apply Permutation.Permutation_nil in Hp. by subst.
  - assert (x ∈ c) as Hx by (rewrite <- Hp; by left).
    apply list_elem_of_split in Hx as (c1 & c2 & ->).
    apply Permutation_cons_app_inv in Hp.
    apply StronglySorted_app in Hc as (H12 & Hc1 & Hc2).
    apply StronglySorted_cons in Hc2 as [Hx2 Hc2].
    simpl. rewrite (IH (c1 ++ c2)); [| |done].
    + apply insert_by_path_between; [|done].
      apply Forall_forall. intros d Hd. apply (H12 d x Hd). by left.
    + apply StronglySorted_app. split_and!; [|done..].
      intros d1 d2 Hd1 Hd2. apply H12; [done|]. by right.
Qed.

Lemma path_lt_trans d1 d2 d3 : path_lt d1 d2 → path_lt d2 d3 → path_lt d1 d3.
Proof.
  intros (s1 & H1 & E1) (s2 & H2 & E2). exists (String.append s1 s2). split.
  - destruct s1; [done|]. by rewrite append_cons.
  - by rewrite E2, E1, append_assoc.
Qed.

Lemma path_lt_child d1 d2 p :
  dpath d2 = child_path (dpath d1) p → path_lt d1 d2.
Proof.
  intros E. eexists. split; [|exact E].
  destruct (Py.str (Z.pos p)) eqn:Hs; [by apply str_nonempty in Hs|].
  by rewrite append_cons.
Qed.

Lemma StronglySorted_path_lt_NoDup l : StronglySorted path_lt l → NoDup l.
Proof.
  induction 1 as [|x l _ IH Hx]; constructor; [|done].
  intros Hin. rewrite Forall_forall in Hx. by apply (path_lt_irrefl x), Hx.
Qed.

Lemma objects_of_snoc t ids p rp :
  t !! p = Some rp → objects_of t (ids ++ [p]) = objects_of t ids ++ [mkDomain p rp].
Proof. intros Hp. unfold objects_of. rewrite omap_app. simpl. by rewrite Hp. Qed.

Lemma elem_of_objects_of t ids d :
  d ∈ objects_of t ids ↔ id d ∈ ids ∧ t !! id d = Some (row d).
Proof.
  unfold objects_of. rewrite list_elem_of_omap. split.
  - intros (i & Hi & E). destruct (t !! i) as [r|] eqn:Hr; [|done].
    injection E as <-. done.
  - intros [Hi Hr]. exists (id d). split; [done|]. rewrite Hr. by destruct d.
Qed.

(** The ancestors of a node, root first: their keys are the chain,
    and each one's path properly extends the one before and is
    properly extended by the node's own path. *)
Lemma chain_objects t n ids :
  I1 t → chain t n ids →
  map id (objects_of t ids) = ids ∧
  StronglySorted path_lt (objects_of t ids) ∧
  ∀ rn, t !! n = Some rn →
        Forall (λ d, path_lt d (mkDomain n rn)) (objects_of t ids).
Proof.
  intros HI1. induction 1 as [i r Hi Hp|i r p ids Hi Hp Hc (IH1 & IH2 & IH3)].
  - split_and!; [done|constructor|]. intros rn _. constructor.
  - destruct (I1_parent _ _ _ _ HI1 Hi Hp) as (rp & Hrp & Hpath).
    rewrite (objects_of_snoc t ids p rp Hrp). specialize (IH3 rp Hrp).
    split_and!.
    + by rewrite map_app, IH1.
    + apply StronglySorted_app. split_and!; [|done|repeat constructor].
      intros d1 d2 Hd1 ->%list_elem_of_singleton.
      rewrite Forall_forall in IH3. by apply IH3.
    + intros rn Hn. rewrite Hi in Hn. injection Hn as <-.
      assert (path_lt (mkDomain p rp) (mkDomain i r)) as Hlt
        by (by eapply path_lt_child).
      apply Forall_app. split; [|by constructor].
      eapply Forall_impl; [exact IH3|]. intros d Hd.
      exact (path_lt_trans _ _ _ Hd Hlt).
Qed.

Lemma NoDup_scan t : NoDup (scan t).
Proof.
  unfold scan. apply NoDup_fmap_2; [|apply NoDup_map_to_list].
  intros [i1 r1] [i2 r2] [= -> ->]. done.
Qed.

(** [get_ancestors] on a node of a table that satisfies I1: the
    ancestors, root first. *)
Lemma get_ancestors_chain t n rn ids :
  I1 t → t !! n = Some rn → chain t n ids →
  get_ancestors t (mkDomain n rn) = Some (objects_of t ids).
Proof.
  intros HI1 Hn Hc. unfold get_ancestors, dpath. cbn [row id].
  destruct (parent_id rn) as [p|] eqn:Hp.
  - rewrite (chain_path t n rn ids HI1 Hc Hn), path_ids_render.
    f_equal. unfold objects_filter.
    destruct (chain_objects t n ids HI1 Hc) as (_ & Hs & _).
    apply order_by_path_chain; [done|].
    apply NoDup_Permutation.
    + apply NoDup_filter, NoDup_scan.
    + by apply StronglySorted_path_lt_NoDup.
    + intros d. rewrite list_elem_of_filter, scan_spec, elem_of_objects_of.
      rewrite bool_decide_eq_true, list_elem_of_fmap. split.
      * intros [(i & [= Hi] & Hin) Hd]. by subst.
      * intros [Hin Hd]. split; [|done]. by exists (id d).
  - inversion Hc; simplify_eq. done.
Qed.
End ordering.

(** ** Deletion *)

Section deletion.
Implicit Types (t : table) (tg : tagged) (ds seen objs : gset positive).

Lemma points_into_true ds fk :
  points_into ds fk = true ↔ ∃ d, fk = Some d ∧ d ∈ ds.
Proof.
  destruct fk as [d|]; simpl.
  - rewrite bool_decide_eq_true. naive_solver.
  - naive_solver.
Qed.

Lemma elem_of_referencing tg ds k :
  k ∈ referencing tg ds ↔ ∃ d, tg !! k = Some (Some d) ∧ d ∈ ds.
Proof.
  unfold referencing. rewrite elem_of_dom. unfold is_Some.
  setoid_rewrite map_lookup_filter_Some. simpl.
  setoid_rewrite points_into_true. naive_solver.
Qed.

Lemma elem_of_children_of t ds c :
  c ∈ children_of t ds ↔ ∃ r p, t !! c = Some r ∧ parent_id r = Some p ∧ p ∈ ds.
Proof.
  unfold children_of. rewrite elem_of_dom. unfold is_Some.
  setoid_rewrite map_lookup_filter_Some. simpl.
  setoid_rewrite points_into_true. naive_solver.
Qed.

Lemma children_of_dom t ds : children_of t ds ⊆ dom t.
Proof.
  intros c (r & p & Hc & _)%elem_of_children_of. apply elem_of_dom. eauto.
Qed.

(** The collector returns when the stack allows one call more than
    there are rows. *)
Lemma collect_terminates fuel t :
  ∀ seen objs,
    seen ⊆ dom t → objs ⊆ dom t → size (dom t) - size seen < fuel →
    is_Some (collect fuel t seen objs).
Proof.
  induction fuel as [|fuel IH]; intros seen objs Hs Ho Hf; [lia|].
  simpl. destruct (decide (objs ∖ seen = ∅)) as [E|E]; [eauto|].
  assert (size (seen ∪ objs ∖ seen) = size seen + size (objs ∖ seen)) as Hsz
    by (apply size_union; set_solver).
  assert (size (objs ∖ seen) ≠ 0) as Hnz.
  { rewrite size_empty_iff. by intros ?%leibniz_equiv. }
  assert (size (seen ∪ objs ∖ seen) ≤ size (dom t)) as Hle
    by (apply subseteq_size; set_solver).
  apply IH; [set_solver|apply children_of_dom|lia].
Qed.

(** What it returns holds what it was given, is closed under
    children as far as its first argument was, and holds nothing that
    is not below what it was given. *)
Lemma collect_spec fuel t (P : positive → Prop) :
  (∀ c r p, t !! c = Some r → parent_id r = Some p → P p → P c) →
  ∀ seen objs gone,
    collect fuel t seen objs = Some gone →
    (∀ c r p, t !! c = Some r → parent_id r = Some p → p ∈ seen →
              c ∈ seen ∪ objs) →
    (∀ d, d ∈ seen ∪ objs → P d) →
    seen ∪ objs ⊆ gone ∧
    (∀ c r p, t !! c = Some r → parent_id r = Some p → p ∈ gone → c ∈ gone) ∧
    (∀ d, d ∈ gone → P d).
Proof.
  intros HP. induction fuel as [|fuel IH]; intros seen objs gone Hrun Hcl Hsound;
    [done|].
  simpl in Hrun. destruct (decide (objs ∖ seen = ∅)) as [E|E].
  - injection Hrun as <-.
    assert (objs ⊆ seen) as Hsub.
    { intros d Hd. destruct (decide (d ∈ seen)); [done|]. set_solver. }
    split_and!.
    + set_solver.
    + intros c r p Hc Hp Hin. specialize (Hcl c r p Hc Hp Hin). set_solver.
    + intros d Hd. apply Hsound. set_solver.
  - apply IH in Hrun as (Hsub & Hclosed & Hs).
    + split_and!; [|done..].
      intros d Hd. apply Hsub. destruct (decide (d ∈ seen)); set_solver.
    + intros c r p Hc Hp Hin. apply elem_of_union in Hin as [Hin|Hin].
      * specialize (Hcl c r p Hc Hp Hin).
        destruct (decide (c ∈ seen)); set_solver.
      * apply elem_of_union_r. apply elem_of_children_of. eauto.
    + intros d [Hd|Hd]%elem_of_union.
      * apply Hsound. set_solver.
      * apply elem_of_children_of in Hd as (r & p & Hc & Hp & Hin).
        apply (HP d r p Hc Hp). apply Hsound. set_solver.
Qed.

(** The cascade from [i]: [i] and everything below it. *)
Lemma collect_subtree fuel t i :
  is_Some (t !! i) → size t < fuel →
  ∃ gone, collect fuel t ∅ {[ i ]} = Some gone ∧
          ∀ d, d ∈ gone ↔ d = i ∨ desc t i d.
Proof.
  intros Hi Hf.
  destruct (collect_terminates fuel t ∅ {[ i ]}) as [gone Hrun].
  { set_solver. }
  { apply singleton_subseteq_l. by apply elem_of_dom. }
  { rewrite size_dom, size_empty. lia. }
  exists gone. split; [done|].
  destruct (collect_spec fuel t (λ d, d = i ∨ desc t i d)) with (2 := Hrun)
    as (Hsub & Hclosed & Hsound).
  - intros c r p Hc Hp [->|Hd]; right;
      [by eapply desc_child|by eapply desc_step].
  - set_solver.
  - intros d Hd. left. set_solver.
  - intros d. split; [apply Hsound|].
    intros [->|Hd]; [set_solver|].
    induction Hd as [d r Hd Hp|d r p Hd Hp _ IH].
    + eapply Hclosed; [done..|]. set_solver.
    + eapply Hclosed; done.
Qed.
End deletion.

(** ** The signal that no code path raises *)

Section signals.

(** [quiet m]: whatever [m] raises, it is not [InvalidHierarchy]. *)
Let quiet (A : Type) (m : M A) : Prop :=
  ∀ db e db', m db = Raise e db' → e ≠ InvalidHierarchy.

Lemma quiet_ret A (a : A) : quiet A (ret a).
Proof. by intros db e db'. Qed.

Lemma quiet_read A (f : DB → A) : quiet A (read f).
Proof. by intros db e db'. Qed.

Lemma quiet_raise A (e0 : exn) : e0 ≠ InvalidHierarchy → quiet A (raise e0).
Proof. intros H db e db'. by intros [= <- _]. Qed.

Lemma quiet_bind A B (m : M A) (k : A → M B) :
  quiet A m → (∀ a, quiet B (k a)) → quiet B (bind m k).
Proof.
  intros Hm Hk db e db'. unfold bind.
  destruct (m db) as [a db1|e1 db1] eqn:E.
  - apply Hk.
  - intros [= <- <-]. by eapply Hm.
Qed.

Lemma quiet_for_each A (xs : list A) (body : A → M unit) :
  (∀ x, quiet unit (body x)) → quiet unit (for_each xs body).
Proof.
  intros Hb. induction xs as [|x xs IH]; simpl.
  - apply quiet_ret.
  - apply quiet_bind; [apply Hb|]. by intros _.
Qed.

Lemma quiet_base_save self : quiet positive (base_save self).
Proof.
  intros db e db'. unfold base_save. cbv zeta.
  destruct (column_accepts _ _); [|by intros [= <- _]].
  destruct (parent self) as [p|].
  - destruct (bool_decide _); [|by intros [= <- _]]. by destruct (pk self).
  - by destruct (pk self).
Qed.

Lemma quiet_base_save_path i p : quiet unit (base_save_path i p).
Proof.
  intros db e db'. unfold base_save_path.
  destruct (column_accepts _ _); [|by intros [= <- _]].
  destruct (domains db !! i); [done|by intros [= <- _]].
Qed.

Lemma quiet_save_with ucp update_fields self :
  (∀ d, quiet unit (ucp d)) → quiet Domain (save_with ucp update_fields self).
Proof.
  intros Hucp. unfold save_with. apply quiet_bind.
  { destruct (pk self); [apply quiet_read|apply quiet_ret]. }
  intros old_parent. cbv zeta. apply quiet_bind.
  { destruct update_fields; [|apply quiet_base_save].
    match goal with |- quiet _ (match pk ?x with _ => _ end) => destruct (pk x) end.
    - apply quiet_bind; [apply quiet_base_save_path|]. intros _. apply quiet_ret.
    - by apply quiet_raise. }
  intros i. apply quiet_bind.
  { match goal with |- quiet _ (if ?b then _ else _) => destruct b end;
      [|apply quiet_ret].
    destruct update_fields; [by apply quiet_raise|].
    apply quiet_bind; [apply quiet_base_save_path|]. intros _. apply quiet_ret. }
  intros p. apply quiet_bind.
  { match goal with |- quiet _ (if ?b then _ else _) => destruct b end;
      [apply Hucp|apply quiet_ret]. }
  intros _. apply quiet_ret.
Qed.

Lemma quiet_update_children_paths fuel :
  ∀ self, quiet unit (_update_children_paths fuel self).
Proof.
  induction fuel as [|fuel IH]; intros self; simpl.
  - by apply quiet_raise.
  - apply quiet_bind; [apply quiet_read|]. intros kids.
    apply quiet_for_each. intros child. apply quiet_bind; [|apply IH].
    by apply quiet_save_with.
Qed.

Lemma quiet_resolve_opt k : quiet (option Domain) (resolve_opt k).
Proof.
  destruct k as [i|]; simpl; [|apply quiet_ret].
  apply quiet_bind; [|intros d; apply quiet_ret].
  intros db e db'. unfold resolve. destruct (domains db !! i); [done|].
  by intros [= <- _].
Qed.

Lemma quiet_update fuel i new_name new_parent :
  quiet Domain (update fuel i new_name new_parent).
Proof.
  unfold update. apply quiet_bind.
  { intros db e db'. unfold resolve. destruct (domains db !! i); [done|].
    by intros [= <- _]. }
  intros d. apply quiet_bind; [apply quiet_resolve_opt|]. intros p.
  apply quiet_save_with, quiet_update_children_paths.
Qed.

Lemma quiet_create fuel nm pid : quiet Domain (create fuel nm pid).
Proof.
  unfold create. apply quiet_bind; [apply quiet_resolve_opt|]. intros p.
  apply quiet_save_with, quiet_update_children_paths.
Qed.
End signals.

(** * The claims *)

Example str_42 : Py.str 42 = "42"%string.
Proof. reflexivity. Qed.

Example split_path :
  Py.split Py.slash (Py.strip Py.slash "/1/24/3/") = ["1"; "24"; "3"]%string.
Proof. reflexivity. Qed.

Example path_ids_root : path_ids "/" = Some [].
Proof. reflexivity. Qed.

Example create_three :
  db_of (create 1 "G" (Some 2%positive)
           (db_of (create 1 "C" (Some 1%positive)
                     (db_of (create 1 "R" None db_empty))))) = db_rcg.
Proof. vm_compute. reflexivity. Qed.

Lemma I1_rcg : I1 t_rcg.
Proof. apply (bool_decide_unpack (I1 t_rcg)). vm_compute. exact I. Qed.

Section policy.
Implicit Types (t : table) (user : User) (e : Entity) (d h : Domain).

(** C6.  For a caller with [is_staff] set, [filter_by_domain] returns
    the collection as it is, whatever the domains of the entities and
    whatever the caller's own domain. *)
Theorem C6_admin_bypass t (queryset : list Entity) user :
  is_staff user = true → filter_by_domain t queryset user = queryset.
Proof. intros H. unfold filter_by_domain. by rewrite H. Qed.

(** C7.  For a caller who is not staff, [filter_by_domain] keeps no
    entity without a domain, and [user_can_access_entity] is false
    for every entity without a domain. *)
Theorem C7_no_domain_excluded t (queryset : list Entity) user e :
  is_staff user = false → domain e = None →
  (e ∉ filter_by_domain t queryset user) ∧
  user_can_access_entity t user e = false.
Proof.
  intros Hs He. split.
  - unfold filter_by_domain. rewrite Hs.
    destruct (get_user_accessible_domain_ids t user) as [|i ids];
      [apply not_elem_of_nil|].
    rewrite list_elem_of_filter, He. simpl. naive_solver.
  - unfold user_can_access_entity. by rewrite Hs, He.
Qed.

(** C8.  For a caller who is not staff and has no home domain (no
    profile, or a profile without domain),
    [get_user_accessible_domain_ids] is the empty list and
    [filter_by_domain] of any collection is empty; both are values,
    not exceptions. *)
Theorem C8_domainless_sees_nothing t (queryset : list Entity) user :
  is_staff user = false →
  profile user = None ∨ profile user = Some None →
  get_user_domain t user = None ∧
  get_user_accessible_domain_ids t user = [] ∧
  filter_by_domain t queryset user = [].
Proof.
  intros Hs Hp.
  assert (get_user_domain t user = None) as Hd.
  { unfold get_user_domain. by destruct Hp as [-> | ->]. }
  assert (get_user_accessible_domain_ids t user = []) as Hids.
  { unfold get_user_accessible_domain_ids. by rewrite Hd. }
  split_and!; [done..|]. unfold filter_by_domain. by rewrite Hs, Hids.
Qed.

(** C4, on a consistent tree.  On a table that satisfies I1, for a
    caller who is not staff and whose home domain is [h],
    [user_can_access_domain] is true of a stored domain [d] exactly
    when [d] is [h] or [d] lies below [h] in the parent relation; the
    parent of [h] is not visible. *)
Theorem C4_visibility_downward_only t user h :
  I1 t → is_staff user = false → get_user_domain t user = Some h →
  (∀ d, t !! id d = Some (row d) →
        (user_can_access_domain t user d = true ↔
         id d = id h ∨ desc t (id h) (id d))) ∧
  (∀ p rp, parent_id (row h) = Some p → t !! p = Some rp →
           user_can_access_domain t user (mkDomain p rp) = false).
Proof.
  intros HI1 Hs Hh.
  assert (Hiff : ∀ d, user_can_access_domain t user d = true ↔
                      id d = id h ∨ is_ancestor_of h d = true).
  { intros d. unfold user_can_access_domain. rewrite Hs, Hh.
    destruct (decide (id h = id d)) as [E|E].
    - rewrite bool_decide_eq_true_2 by done. naive_solver.
    - rewrite bool_decide_eq_false_2 by done.
      destruct (is_ancestor_of h d); naive_solver. }
  assert (Hstored : t !! id h = Some (row h)).
  { unfold get_user_domain in Hh. destruct (profile user) as [[k|]|]; try done.
    destruct (t !! k) as [rk|] eqn:Hk; simpl in Hh; [|done].
    injection Hh as <-. done. }
  split.
  - intros d Hd. rewrite Hiff.
    destruct h as [hi hr], d as [di dr]. simpl in *.
    by rewrite (is_ancestor_of_desc t hi di hr dr HI1 Hstored Hd).
  - intros p rp Hp Hrp. apply not_true_iff_false. rewrite Hiff. simpl.
    destruct (I1_parent _ _ _ _ HI1 Hstored Hp) as (rp' & Hrp' & Hpath).
    rewrite Hrp in Hrp'. injection Hrp' as <-.
    pose proof (child_path_length (path rp) p) as Hl. rewrite <- Hpath in Hl.
    intros [E|Ha].
    + subst p. rewrite Hstored in Hrp. injection Hrp as <-. lia.
    + unfold is_ancestor_of, dpath in Ha. simpl in Ha.
      apply startswith_length in Ha.
      pose proof (child_path_length (path (row h)) (id h)). lia.
Qed.
End policy.

Lemma C6_admin_bypass_witness :
  is_staff user_admin = true ∧
  filter_by_domain t_rcg [e_none; e_c; e_r] user_admin = [e_none; e_c; e_r].
Proof. split; [reflexivity|]. apply C6_admin_bypass. reflexivity. Defined.

Lemma C7_no_domain_excluded_witness :
  is_staff user_c = false ∧ domain e_none = None ∧
  ((e_none ∉ filter_by_domain t_rcg [e_none; e_c; e_r] user_c) ∧
   user_can_access_entity t_rcg user_c e_none = false).
Proof.
  split; [reflexivity|]. split; [reflexivity|].
  apply C7_no_domain_excluded; reflexivity.
Defined.

Lemma C8_domainless_sees_nothing_witness :
  is_staff user_none = false ∧
  (profile user_none = None ∨ profile user_none = Some None) ∧
  (get_user_domain t_rcg user_none = None ∧
   get_user_accessible_domain_ids t_rcg user_none = [] ∧
   filter_by_domain t_rcg [e_none; e_c; e_r] user_none = []).
Proof.
  split; [reflexivity|]. split; [right; reflexivity|].
  apply C8_domainless_sees_nothing; [reflexivity|right; reflexivity].
Defined.

Lemma C4_visibility_downward_only_witness :
  I1 t_rcg ∧ is_staff user_c = false ∧ get_user_domain t_rcg user_c = Some dom_c ∧
  ((∀ d, t_rcg !! id d = Some (row d) →
         (user_can_access_domain t_rcg user_c d = true ↔
          id d = id dom_c ∨ desc t_rcg (id dom_c) (id d))) ∧
   (∀ p rp, parent_id (row dom_c) = Some p → t_rcg !! p = Some rp →
            user_can_access_domain t_rcg user_c (mkDomain p rp) = false)).
Proof.
  assert (H1 : I1 t_rcg)
    by (apply (bool_decide_unpack (I1 t_rcg)); vm_compute; exact I).
  assert (H2 : is_staff user_c = false) by reflexivity.
  assert (H3 : get_user_domain t_rcg user_c = Some dom_c)
    by (vm_compute; reflexivity).
  split; [exact H1|]. split; [exact H2|]. split; [exact H3|].
  exact (C4_visibility_downward_only t_rcg user_c dom_c H1 H2 H3).
Defined.

(** C4 as stated fails on a table that does not satisfy I1.  In what
    the cyclic request of C2 leaves of [R > C > G], the stored parent
    of [G] is [C], and a caller who is not staff and whose home domain
    is [G] can access [C]. *)
Lemma C4_parent_visible_after_cycle :
  ∃ h rc,
    get_user_domain (domains db_rcg_cyclic) (mkUser false (Some (Some 3%positive)))
      = Some h ∧
    parent_id (row h) = Some 2%positive ∧
    domains db_rcg_cyclic !! 2%positive = Some rc ∧
    user_can_access_domain (domains db_rcg_cyclic)
      (mkUser false (Some (Some 3%positive))) (mkDomain 2 rc) = true.
Proof.
  eexists _, _. split_and!; vm_compute; reflexivity.
Qed.

Example visible_below : user_can_access_domain t_rcg user_c dom_g = true.
Proof. vm_compute. reflexivity. Qed.

Example hidden_above : user_can_access_domain t_rcg user_c dom_r = false.
Proof. vm_compute. reflexivity. Qed.

Example filter_member :
  filter_by_domain t_rcg [e_none; e_c; e_r] user_c = [e_c].
Proof. vm_compute. reflexivity. Qed.

(** C10.  Saving a stored node whose parent stays what it is (a
    rename, or an update that names the same parent again) is one
    UPDATE of that node's row with its path unchanged: the path of every
    node in the table is what it was, and no repair walk runs (the call
    returns even when the stack has no room for one). *)
Theorem C10_save_same_parent_keeps_paths fuel db x rx new_name new_parent :
  domains db !! x = Some rx →
  (∀ p, parent_id rx = Some p → is_Some (domains db !! p)) →
  default (parent_id rx) new_parent = parent_id rx →
  ∃ sx db',
    update fuel x new_name new_parent db = Ok sx db' ∧
    dpath sx = path rx ∧
    domains db' =
      <[x := mkRow (default (name rx) new_name) (path rx) (parent_id rx)]> (domains db) ∧
    ∀ i, path <$> domains db' !! i = path <$> domains db !! i.
Proof.
  intros Hx Hfk Hsame.
  rewrite (update_run fuel db x rx new_name new_parent Hx) by (by rewrite Hsame).
  rewrite Hsame.
  rewrite (save_existing fuel x rx _ _ db Hx Hfk).
  - cbv zeta. rewrite (lookup_obj_id _ _ Hfk). rewrite decide_True by done.
    eexists _, _. split; [done|]. split_and!; [done..|].
    intros i. simpl. destruct (decide (i = x)) as [->|Hne].
    + by rewrite lookup_insert_eq, Hx.
    + by rewrite lookup_insert_ne.
  - intros y [_ Hy]%lookup_obj_Some. eauto.
Qed.

Lemma C10_save_same_parent_keeps_paths_witness :
  domains db_rcg !! 2%positive = Some (row dom_c) ∧
  (∀ p, parent_id (row dom_c) = Some p → is_Some (domains db_rcg !! p)) ∧
  default (parent_id (row dom_c)) None = parent_id (row dom_c) ∧
  ∃ sx db',
    update 0 2 (Some "Sales"%string) None db_rcg = Ok sx db' ∧
    dpath sx = path (row dom_c) ∧
    domains db' =
      <[2%positive := mkRow (default (name (row dom_c)) (Some "Sales"%string))
                            (path (row dom_c)) (parent_id (row dom_c))]>
        (domains db_rcg) ∧
    ∀ i, path <$> domains db' !! i = path <$> domains db_rcg !! i.
Proof.
  assert (H1 : domains db_rcg !! 2%positive = Some (row dom_c))
    by (vm_compute; reflexivity).
  assert (H2 : ∀ p, parent_id (row dom_c) = Some p → is_Some (domains db_rcg !! p)).
  { intros p [= <-]. vm_compute. eauto. }
  assert (H3 : default (parent_id (row dom_c)) None = parent_id (row dom_c))
    by reflexivity.
  split; [exact H1|]. split; [exact H2|]. split; [exact H3|].
  exact (C10_save_same_parent_keeps_paths 0 db_rcg 2 (row dom_c)
           (Some "Sales"%string) None H1 H2 H3).
Defined.

(** C9.  On a table that satisfies I1, [get_ancestors] of a stored
    node returns the stored objects whose ids are written in the node's
    path, the root first and the node's parent last; for a node without
    parent it returns the empty query set. *)
Theorem C9_get_ancestors_root_first t n rn :
  I1 t → t !! n = Some rn →
  ∃ ids,
    chain t n ids ∧
    path rn = render ids ∧
    path_ids (path rn) = Some (map Z.pos ids) ∧
    get_ancestors t (mkDomain n rn) = Some (objects_of t ids) ∧
    map id (objects_of t ids) = ids ∧
    last ids = parent_id rn ∧
    (parent_id rn = None → get_ancestors t (mkDomain n rn) = Some []).
Proof.
  intros HI1 Hn.
  destruct (I1_chain t HI1 _ n rn (le_n _) Hn) as (ids & Hc & Hpath).
  exists ids. split_and!; [done|done| | | | |].
  - rewrite Hpath. apply path_ids_render.
  - by apply get_ancestors_chain.
  - by destruct (chain_objects t n ids HI1 Hc) as (? & _).
  - inversion Hc as [i r Hi Hp|i r p ids' Hi Hp Hc']; subst; simplify_eq.
    + by rewrite Hp.
    + by rewrite last_snoc, Hp.
  - intros Hp. unfold get_ancestors. simpl. by rewrite Hp.
Qed.

Lemma C9_get_ancestors_root_first_witness :
  I1 t_rcg ∧ t_rcg !! 3%positive = Some (row dom_g) ∧
  ∃ ids,
    chain t_rcg 3 ids ∧
    path (row dom_g) = render ids ∧
    path_ids (path (row dom_g)) = Some (map Z.pos ids) ∧
    get_ancestors t_rcg (mkDomain 3 (row dom_g)) = Some (objects_of t_rcg ids) ∧
    map id (objects_of t_rcg ids) = ids ∧
    last ids = parent_id (row dom_g) ∧
    (parent_id (row dom_g) = None →
     get_ancestors t_rcg (mkDomain 3 (row dom_g)) = Some []).
Proof.
  assert (H1 : I1 t_rcg)
    by (apply (bool_decide_unpack (I1 t_rcg)); vm_compute; exact I).
  assert (H2 : t_rcg !! 3%positive = Some (row dom_g)) by (vm_compute; reflexivity).
  split; [exact H1|]. split; [exact H2|].
  exact (C9_get_ancestors_root_first t_rcg 3 (row dom_g) H1 H2).
Defined.

Example ancestors_of_G : get_ancestors t_rcg dom_g = Some [dom_r; dom_c].
Proof. vm_compute. reflexivity. Qed.



Example move_C_to_root :
  domains (db_of (move 6 2 None db_rcg)) !! 3%positive = Some (mkRow "G" "/2/" (Some 2%positive)).
Proof. vm_compute. reflexivity. Qed.

(** A move to a valid target on a consistent tree that does not fit
    the column.  [A] is moved under the end of the chain: the new path
    of [A] has 997 characters and is written, the new path of its
    child [B] would have 1001, and the call ends in [DataError] with
    [A] moved and [B] where it was: the table does not satisfy I1. *)
Example valid_move_past_the_column :
  I1 (domains db_deep) ∧
  valid_target (domains db_deep) 277 (Some 276%positive) = true ∧
  move 1000 277 (Some 276%positive) db_deep = Raise DataError db_deep_moved ∧
  ¬ I1 (domains db_deep_moved).
Proof.
  split_and!.
  - apply (bool_decide_unpack (I1 (domains db_deep))). vm_compute. exact I.
  - vm_compute. reflexivity.
  - vm_compute. reflexivity.
  - apply (proj1 (bool_decide_eq_false _)). vm_compute. reflexivity.
Qed.


(** C2 fails on a request the API accepts.  The database [R > C > G]
    satisfies I1; moving the root under its grandchild is not
    refused, the call does not return whatever depth is allowed, and
    what it leaves does not satisfy I1.  With the depth of the
    interpreter's default limit the call ends in [DataError], when the
    path written round the cycle passes the length of the column. *)
Theorem C2_cyclic_move_breaks_I1 :
  I1 (domains db_rcg) ∧
  move 1000 1 (Some 3%positive) db_rcg = Raise DataError db_rcg_cyclic ∧
  ∀ fuel, ∃ e db',
    move fuel 1 (Some 3%positive) db_rcg = Raise e db' ∧
    (e = RecursionError ∨ e = DataError) ∧
    ¬ I1 (domains db').
Proof.
  assert (H1 : I1 (domains db_rcg))
    by (apply (bool_decide_unpack (I1 (domains db_rcg))); vm_compute; exact I).
  split; [exact H1|]. split; [vm_compute; reflexivity|]. intros fuel.
  destruct (move_cycle fuel db_rcg 1 3 H1) as (e & t' & Hrun & He & _ & Hd).
  - vm_compute. eauto.
  - right. apply (desc_step _ 1 3 (row dom_g) 2); [vm_compute; reflexivity|done|].
    apply (desc_child _ 1 2 (row dom_c)); [vm_compute; reflexivity|done].
  - eexists e, _. split; [exact Hrun|]. split; [done|].
    simpl. intros HI1. by apply (I1_acyclic t' 1).
Qed.

(** C1, as the code has it.  [Domain.save] has no cycle check and
    nothing in the code raises [InvalidHierarchy]: whatever the node,
    the new name and the target, a move (an update of the parent) that
    fails, fails with another signal. *)
Theorem C1_no_invalid_hierarchy fuel x new_name new_parent db e db' :
  update fuel x new_name new_parent db = Raise e db' →
  e ≠ InvalidHierarchy.
Proof. exact (quiet_update fuel x new_name new_parent db e db'). Qed.

Lemma C1_no_invalid_hierarchy_witness :
  update 7 1 None (Some (Some 3%positive)) db_rcg =
    Raise RecursionError (db_of (move 7 1 (Some 3%positive) db_rcg)) ∧
  RecursionError ≠ InvalidHierarchy.
Proof.
  assert (H1 : update 7 1 None (Some (Some 3%positive)) db_rcg =
               Raise RecursionError (db_of (move 7 1 (Some 3%positive) db_rcg)))
    by (vm_compute; reflexivity).
  split; [exact H1|].
  exact (C1_no_invalid_hierarchy 7 1 None (Some (Some 3%positive))
           db_rcg RecursionError _ H1).
Defined.

(** C1 as stated fails: the grandchild is a descendant of the root,
    and moving the root under it is not answered with
    [InvalidHierarchy], whatever depth is allowed, and does not leave
    the tree as it was: the root's parent has changed in the table. *)
Lemma C1_cycle_not_rejected :
  is_ancestor_of dom_r dom_g = true ∧
  parent_id <$> domains db_rcg !! 1%positive = Some None ∧
  ∀ fuel, ∃ e db',
    move fuel 1 (Some 3%positive) db_rcg = Raise e db' ∧
    e ≠ InvalidHierarchy ∧
    parent_id <$> domains db' !! 1%positive = Some (Some 3%positive).
Proof.
  split; [vm_compute; reflexivity|]. split; [vm_compute; reflexivity|].
  intros fuel.
  assert (H1 : I1 (domains db_rcg))
    by (apply (bool_decide_unpack (I1 (domains db_rcg))); vm_compute; exact I).
  destruct (move_cycle fuel db_rcg 1 3 H1) as (e & t' & Hrun & He & Hp & _).
  - vm_compute. eauto.
  - right. apply (desc_step _ 1 3 (row dom_g) 2); [vm_compute; reflexivity|done|].
    apply (desc_child _ 1 2 (row dom_c)); [vm_compute; reflexivity|done].
  - eexists e, _. split; [exact Hrun|]. split; [|exact Hp].
    by destruct He as [-> | ->].
Qed.

Lemma no_blockers (db : DB) (gone : gset positive) :
  size (referencing (projects db) gone) + size (referencing (tasks db) gone) = 0 ↔
  ∀ k d, projects db !! k = Some (Some d) ∨ tasks db !! k = Some (Some d) → d ∉ gone.
Proof.
  split.
  - intros H k d Hk Hd.
    assert (size (referencing (projects db) gone) = 0) as Hp by lia.
    assert (size (referencing (tasks db) gone) = 0) as Ht by lia.
    apply size_empty_iff in Hp, Ht.
    destruct Hk as [Hk|Hk].
    + assert (k ∈ referencing (projects db) gone) as Hin
        by (apply elem_of_referencing; eauto).
      by apply Hp in Hin.
    + assert (k ∈ referencing (tasks db) gone) as Hin
        by (apply elem_of_referencing; eauto).
      by apply Ht in Hin.
  - intros H.
    assert (referencing (projects db) gone ≡ ∅) as Hp.
    { intros k. split; [|done]. intros (d & Hk & Hd)%elem_of_referencing.
      exfalso. apply (H k d); auto. }
    assert (referencing (tasks db) gone ≡ ∅) as Ht.
    { intros k. split; [|done]. intros (d & Hk & Hd)%elem_of_referencing.
      exfalso. apply (H k d); auto. }
    apply size_empty_iff in Hp, Ht. lia.
Qed.

(** C5, as the code has it.  Only projects and tasks hold a PROTECT
    key on a domain.  [delete(node)] with no project and no task that
    references the node or one of its descendants removes the node and
    every descendant, and nothing else from the tree; a user profile
    that pointed into the subtree is kept with its domain set to NULL.
    [delete(node)] with at least one such project or task fails with
    [Blocked] carrying the number of those projects and tasks, and
    changes nothing. *)
Theorem C5_delete_cascade_or_block fuel db i :
  is_Some (domains db !! i) → size (domains db) < fuel →
  ∃ gone : gset positive,
    (∀ d, d ∈ gone ↔ d = i ∨ desc (domains db) i d) ∧
    let blockers :=
      size (referencing (projects db) gone) + size (referencing (tasks db) gone) in
    (blockers = 0 ↔
     ∀ k d, projects db !! k = Some (Some d) ∨ tasks db !! k = Some (Some d) →
            d ∉ gone) ∧
    (blockers = 0 →
     ∃ db', perform_destroy fuel i db = Ok tt db' ∧
            (∀ d, domains db' !! d =
                  if decide (d ∈ gone) then None else domains db !! d) ∧
            projects db' = projects db ∧ tasks db' = tasks db ∧
            (∀ k fk, users db !! k = Some fk →
                     users db' !! k =
                     Some (if points_into gone fk then None else fk))) ∧
    (blockers ≠ 0 → perform_destroy fuel i db = Raise (Blocked blockers) db).
Proof.
  intros [ri Hi] Hfuel.
  destruct (collect_subtree fuel (domains db) i) as (gone & Hrun & Hgone);
    [eauto|done|].
  exists gone. split; [done|]. cbv zeta. split; [apply no_blockers|].
  assert (Hres : resolve i db = Ok (mkDomain i ri) db).
  { unfold resolve. by rewrite Hi. }
  split.
  - intros Hz. eexists. split.
    + unfold perform_destroy. rewrite Hres. unfold delete. rewrite Hrun.
      cbv zeta. rewrite decide_True by done. reflexivity.
    + simpl. split_and!; [|done|done|].
      * intros d. destruct (decide (d ∈ gone)) as [Hd|Hd].
        -- apply map_lookup_filter_None. right. intros r _. simpl. auto.
        -- destruct (domains db !! d) as [r|] eqn:E.
           ++ by apply map_lookup_filter_Some.
           ++ apply map_lookup_filter_None. by left.
      * intros k fk Hk. rewrite lookup_fmap, Hk. simpl. f_equal.
        destruct fk as [x|]; simpl; [|done].
        destruct (decide (x ∈ gone)).
        -- by rewrite bool_decide_eq_true_2.
        -- by rewrite bool_decide_eq_false_2.
  - intros Hnz. unfold perform_destroy. rewrite Hres. unfold delete. rewrite Hrun.
    cbv zeta. by rewrite decide_False.
Qed.

Lemma C5_delete_cascade_or_block_witness :
  is_Some (domains db_rcg_work !! 2%positive) ∧ size (domains db_rcg_work) < 4 ∧
  ∃ gone : gset positive,
    (∀ d, d ∈ gone ↔ d = 2%positive ∨ desc (domains db_rcg_work) 2 d) ∧
    let blockers :=
      size (referencing (projects db_rcg_work) gone) +
      size (referencing (tasks db_rcg_work) gone) in
    (blockers = 0 ↔
     ∀ k d, projects db_rcg_work !! k = Some (Some d) ∨
            tasks db_rcg_work !! k = Some (Some d) → d ∉ gone) ∧
    (blockers = 0 →
     ∃ db', perform_destroy 4 2 db_rcg_work = Ok tt db' ∧
            (∀ d, domains db' !! d =
                  if decide (d ∈ gone) then None else domains db_rcg_work !! d) ∧
            projects db' = projects db_rcg_work ∧ tasks db' = tasks db_rcg_work ∧
            (∀ k fk, users db_rcg_work !! k = Some fk →
                     users db' !! k =
                     Some (if points_into gone fk then None else fk))) ∧
    (blockers ≠ 0 →
     perform_destroy 4 2 db_rcg_work = Raise (Blocked blockers) db_rcg_work).
Proof.
  assert (H1 : is_Some (domains db_rcg_work !! 2%positive))
    by (vm_compute; eauto).
  assert (H2 : size (domains db_rcg_work) < 4) by (vm_compute; lia).
  split; [exact H1|]. split; [exact H2|].
  exact (C5_delete_cascade_or_block 4 db_rcg_work 2 H1 H2).
Defined.

Example delete_blocked :
  perform_destroy 4 2 db_rcg_work = Raise (Blocked 2) db_rcg_work.
Proof. vm_compute. reflexivity. Qed.

Example delete_cascades :
  domains (db_of (perform_destroy 4 2 db_rcg)) = <[1%positive := mkRow "R" "/" None]> ∅.
Proof. vm_compute. reflexivity. Qed.

(** C5 as stated fails: a user profile references [C], no project and
    no task does, and deleting [C] is not refused: [C] and [G] go, and
    the profile is left without domain. *)
Lemma C5_user_reference_does_not_block :
  users db_rcg_user !! 1%positive = Some (Some 2%positive) ∧
  ∃ db', perform_destroy 4 2 db_rcg_user = Ok tt db' ∧
         domains db' !! 2%positive = None ∧
         domains db' !! 3%positive = None ∧
         users db' !! 1%positive = Some None.
Proof.
  split; [vm_compute; reflexivity|].
  eexists. split; [vm_compute; reflexivity|].
  split_and!; vm_compute; reflexivity.
Qed.

(** * Further properties of the code *)

(** ** The ancestor test *)

(** [is_ancestor_of] is a strict order on [Domain] objects, whatever
    their paths are: no object is its own ancestor, two objects are
    never ancestors of each other, and an ancestor of an ancestor is an
    ancestor.  [is_descendant_of] is the same test with its arguments
    exchanged. *)
Theorem is_ancestor_of_strict_order (a b c : Domain) :
  is_ancestor_of a a = false ∧
  (is_ancestor_of a b = true → is_ancestor_of b a = false) ∧
  (is_ancestor_of a b = true → is_ancestor_of b c = true →
   is_ancestor_of a c = true) ∧
  is_descendant_of a b = is_ancestor_of b a.
Proof.
  unfold is_ancestor_of, is_descendant_of. split_and!; [| | |done].
  - apply not_true_iff_false. intros H%startswith_length.
    pose proof (child_path_length (dpath a) (id a)). lia.
  - intros H1%startswith_length. apply not_true_iff_false.
    intros H2%startswith_length.
    pose proof (child_path_length (dpath a) (id a)).
    pose proof (child_path_length (dpath b) (id b)). lia.
  - intros H1 H2. eapply startswith_trans; [exact H2|].
    eapply startswith_trans; [apply startswith_child_path|exact H1].
Qed.

(** ** The order of query sets *)

Lemma compare_le_trans (s1 s2 s3 : string) :
  String.compare s1 s2 ≠ Gt → String.compare s2 s3 ≠ Gt →
  String.compare s1 s3 ≠ Gt.
Proof.
  revert s2 s3. induction s1 as [|a s1 IH]; intros [|b s2] [|c s3]; simpl;
    try done.
  unfold Ascii.compare.
  destruct (N.compare_spec (N_of_ascii a) (N_of_ascii b)) as [E1|E1|E1];
    destruct (N.compare_spec (N_of_ascii b) (N_of_ascii c)) as [E2|E2|E2];
    destruct (N.compare_spec (N_of_ascii a) (N_of_ascii c)) as [E3|E3|E3];
    try done; try lia; eauto.
Qed.

Lemma leb_trans (s1 s2 s3 : string) :
  String.leb s1 s2 = true → String.leb s2 s3 = true → String.leb s1 s3 = true.
Proof.
  unfold String.leb. intros H1 H2.
  pose proof (compare_le_trans s1 s2 s3) as H.
  destruct (String.compare s1 s2); destruct (String.compare s2 s3);
    destruct (String.compare s1 s3); try done; exfalso; by apply H.
Qed.

Lemma insert_by_path_sorted (x : Domain) (l : list Domain) :
  StronglySorted (λ d1 d2, String.leb (dpath d1) (dpath d2) = true) l →
  StronglySorted (λ d1 d2, String.leb (dpath d1) (dpath d2) = true)
                 (insert_by_path x l).
Proof.
  induction 1 as [|y l Hl IH Hy]; simpl; [repeat constructor|].
  destruct (String.leb (dpath x) (dpath y)) eqn:E.
  - constructor; [by constructor|]. constructor; [done|].
    eapply Forall_impl; [exact Hy|]. intros z Hz. simpl in Hz.
    exact (leb_trans _ _ _ E Hz).
  - constructor; [done|].
    rewrite (insert_by_path_perm x l). constructor; [|done].
    destruct (String.leb_total (dpath x) (dpath y)) as [H|H]; [congruence|done].
Qed.

Lemma order_by_path_sorted (l : list Domain) :
  StronglySorted (λ d1 d2, String.leb (dpath d1) (dpath d2) = true)
                 (order_by_path l).
Proof.
  induction l as [|x l IH]; simpl; [constructor|]. by apply insert_by_path_sorted.
Qed.

Lemma is_ancestor_of_path_lt (a b : Domain) :
  is_ancestor_of a b = true → path_lt a b.
Proof.
  unfold is_ancestor_of. intros [s Hs]%startswith_iff.
  exists (String.append (String.append (Py.str (Z.pos (id a))) "/") s). split.
  - destruct (Py.str (Z.pos (id a))) eqn:E; [by apply str_nonempty in E|].
    by rewrite !append_cons.
  - rewrite Hs. unfold child_path. by rewrite !append_assoc.
Qed.

(** Every query set of [Domain] (ordering by [path]) lists an object
    before the objects it is an ancestor of. *)
Theorem objects_filter_ancestor_first (t : table) (keep : Domain → bool)
    (a b : Domain) :
  a ∈ objects_filter t keep → b ∈ objects_filter t keep →
  is_ancestor_of a b = true →
  ∃ l1 l2 l3, objects_filter t keep = l1 ++ a :: l2 ++ b :: l3.
Proof.
  intros Ha Hb Hab.
  pose proof (is_ancestor_of_path_lt a b Hab) as Hlt.
  destruct (path_lt_leb a b Hlt) as [_ Hba].
  pose proof (order_by_path_sorted (filter (λ d, keep d = true) (scan t))) as Hs.
  fold (objects_filter t keep) in Hs.
  apply list_elem_of_split in Ha as (l1 & r & E). rewrite E in Hb, Hs |- *.
  apply StronglySorted_app in Hs as (H12 & _ & Hr).
  apply elem_of_app in Hb as [Hb|Hb].
  - rewrite (H12 b a Hb) in Hba; [done|by left].
  - apply elem_of_cons in Hb as [->|Hb]; [by apply path_lt_irrefl in Hlt|].
    apply list_elem_of_split in Hb as (l2 & l3 & ->). by exists l1, l2, l3.
Qed.

Lemma objects_filter_ancestor_first_witness :
  dom_r ∈ objects_filter t_rcg (λ _, true) ∧
  dom_g ∈ objects_filter t_rcg (λ _, true) ∧
  is_ancestor_of dom_r dom_g = true ∧
  ∃ l1 l2 l3, objects_filter t_rcg (λ _, true) = l1 ++ dom_r :: l2 ++ dom_g :: l3.
Proof.
  assert (H1 : dom_r ∈ objects_filter t_rcg (λ _, true))
    by (vm_compute; repeat constructor).
  assert (H2 : dom_g ∈ objects_filter t_rcg (λ _, true))
    by (vm_compute; repeat constructor).
  assert (H3 : is_ancestor_of dom_r dom_g = true) by (vm_compute; reflexivity).
  split; [exact H1|]. split; [exact H2|]. split; [exact H3|].
  exact (objects_filter_ancestor_first t_rcg (λ _, true) dom_r dom_g H1 H2 H3).
Defined.

(** ** Descendants *)

Lemma get_descendants_iff (t : table) (self d : Domain) :
  I1 t → t !! id self = Some (row self) →
  (d ∈ get_descendants t self ↔
   t !! id d = Some (row d) ∧ desc t (id self) (id d)).
Proof.
  intros HI1 Hself. unfold get_descendants. rewrite objects_filter_spec. split.
  - intros [Hd Hs]. split; [done|]. by eapply startswith_desc.
  - intros [Hd Hdesc]. split; [done|]. by eapply desc_startswith.
Qed.

Lemma NoDup_get_descendants (t : table) (self : Domain) :
  NoDup (get_descendants t self).
Proof.
  unfold get_descendants, objects_filter. rewrite order_by_path_perm.
  apply NoDup_filter, NoDup_scan.
Qed.

(** On a table that satisfies I1, [get_descendants] of a stored node
    returns, without repetition, exactly the stored nodes below it in
    the parent relation; the node itself is never among them. *)
Theorem get_descendants_below (t : table) (self : Domain) :
  I1 t → t !! id self = Some (row self) →
  (∀ d, d ∈ get_descendants t self ↔
        t !! id d = Some (row d) ∧ desc t (id self) (id d)) ∧
  NoDup (get_descendants t self) ∧
  self ∉ get_descendants t self.
Proof.
  intros HI1 Hself. split_and!.
  - intros d. by apply get_descendants_iff.
  - apply NoDup_get_descendants.
  - rewrite get_descendants_iff by done. intros [_ Hd].
    by apply (I1_acyclic t (id self)).
Qed.

Lemma get_descendants_below_witness :
  I1 t_rcg ∧ t_rcg !! id dom_r = Some (row dom_r) ∧
  ((∀ d, d ∈ get_descendants t_rcg dom_r ↔
         t_rcg !! id d = Some (row d) ∧ desc t_rcg (id dom_r) (id d)) ∧
   NoDup (get_descendants t_rcg dom_r) ∧
   dom_r ∉ get_descendants t_rcg dom_r).
Proof.
  assert (H1 : I1 t_rcg)
    by (apply (bool_decide_unpack (I1 t_rcg)); vm_compute; exact I).
  assert (H2 : t_rcg !! id dom_r = Some (row dom_r)) by (vm_compute; reflexivity).
  split; [exact H1|]. split; [exact H2|].
  exact (get_descendants_below t_rcg dom_r H1 H2).
Defined.

Example descendants_of_R : get_descendants t_rcg dom_r = [dom_c; dom_g].
Proof. vm_compute. reflexivity. Qed.

(** On a table that satisfies I1, [get_all_descendant_ids] of a stored
    node lists each key once: the keys of the nodes below it, and then
    its own. *)
Theorem get_all_descendant_ids_subtree (t : table) (self : Domain) :
  I1 t → t !! id self = Some (row self) →
  (∀ i, i ∈ get_all_descendant_ids t self ↔ i = id self ∨ desc t (id self) i) ∧
  NoDup (get_all_descendant_ids t self) ∧
  last (get_all_descendant_ids t self) = Some (id self).
Proof.
  intros HI1 Hself.
  pose proof (λ d, get_descendants_iff t self d HI1 Hself) as Hiff.
  pose proof (NoDup_get_descendants t self) as Hnd.
  assert (Hin : ∀ i, i ∈ map id (get_descendants t self) ↔ desc t (id self) i).
  { intros i. rewrite list_elem_of_fmap. split.
    - intros (d & -> & Hd). by apply Hiff in Hd as [_ ?].
    - intros Hd. destruct (desc_lookup _ _ _ Hd) as [r Hr].
      exists (mkDomain i r). split; [done|]. by apply Hiff. }
  unfold get_all_descendant_ids. split_and!.
  - intros i. rewrite elem_of_app, list_elem_of_singleton, Hin. tauto.
  - apply NoDup_app. split_and!.
    + apply NoDup_fmap_2_strong; [|done].
      intros [i1 r1] [i2 r2] H1%Hiff H2%Hiff E. simpl in *. subst i2.
      destruct H1 as [H1 _], H2 as [H2 _]. congruence.
    + intros i Hi%Hin ->%list_elem_of_singleton. by apply (I1_acyclic t (id self)).
    + apply NoDup_singleton.
  - apply last_snoc.
Qed.

Lemma get_all_descendant_ids_subtree_witness :
  I1 t_rcg ∧ t_rcg !! id dom_c = Some (row dom_c) ∧
  ((∀ i, i ∈ get_all_descendant_ids t_rcg dom_c ↔
         i = id dom_c ∨ desc t_rcg (id dom_c) i) ∧
   NoDup (get_all_descendant_ids t_rcg dom_c) ∧
   last (get_all_descendant_ids t_rcg dom_c) = Some (id dom_c)).
Proof.
  assert (H1 : I1 t_rcg)
    by (apply (bool_decide_unpack (I1 t_rcg)); vm_compute; exact I).
  assert (H2 : t_rcg !! id dom_c = Some (row dom_c)) by (vm_compute; reflexivity).
  split; [exact H1|]. split; [exact H2|].
  exact (get_all_descendant_ids_subtree t_rcg dom_c H1 H2).
Defined.

(** ** Paths written and read back *)

Lemma ints_snoc (l : list string) (ids : list Z) (n : Z) :
  Py.ints l = Some ids → Py.ints (l ++ [Py.str n]) = Some (ids ++ [n]).
Proof.
  revert ids. induction l as [|x l IH]; intros ids; simpl.
  - intros [= <-]. by rewrite int_str.
  - destruct (Py.int x) as [m|]; [|done].
    destruct (Py.ints l) as [ms|]; [|done]. intros [= <-].
    by rewrite (IH ms eq_refl).
Qed.

(** The ids that [get_ancestors] reads from the path [save] writes for
    a child: for a parent path that ends with a slash and reads as
    [ids], the child's path reads as [ids] followed by the parent's
    id.  The root path reads as no id at all. *)
Theorem path_ids_child_path (p : string) (i : positive) (ids : list Z) :
  (∃ q, p = String.append q "/") → path_ids p = Some ids →
  path_ids (child_path p i) = Some (ids ++ [Z.pos i]).
Proof.
  intros [q ->]. unfold path_ids.
  pose proof (tokens_strip Py.slash) as Hstrip. cbv zeta in Hstrip.
  pose proof (tokens_append Py.slash) as Happ. cbv zeta in Happ.
  rewrite !Hstrip. unfold child_path. rewrite append_assoc.
  change (String.append "/" (String.append (Py.str (Z.pos i)) "/"))
    with (String Py.slash (String.append (Py.str (Z.pos i)) (String Py.slash ""))).
  change (String.append q "/") with (String.append q (String Py.slash "")).
  rewrite !Happ.
  pose proof (tokens_free Py.slash (Py.str (Z.pos i)) (str_free _) (str_nonempty _))
    as Hfree. cbv zeta in Hfree. rewrite Hfree.
  assert (filter (λ x, Py.truthy x = true) (Py.split Py.slash "") = []) as ->
    by reflexivity.
  rewrite !app_nil_r. apply ints_snoc.
Qed.

Lemma path_ids_child_path_witness :
  (∃ q, "/1/"%string = String.append q "/") ∧
  path_ids "/1/" = Some [1%Z] ∧
  path_ids (child_path "/1/" 24) = Some ([1%Z] ++ [Z.pos 24]).
Proof.
  assert (H1 : ∃ q, "/1/"%string = String.append q "/")
    by (exists "/1"%string; reflexivity).
  assert (H2 : path_ids "/1/" = Some [1%Z]) by reflexivity.
  split; [exact H1|]. split; [exact H2|].
  exact (path_ids_child_path "/1/" 24 [1%Z] H1 H2).
Defined.

(** ** The access policy *)

Lemma elem_of_get_all_descendant_ids (t : table) (h d : Domain) :
  t !! id d = Some (row d) →
  (id d ∈ get_all_descendant_ids t h ↔
   id h = id d ∨ is_ancestor_of h d = true).
Proof.
  intros Hd. unfold get_all_descendant_ids, get_descendants.
  rewrite elem_of_app, list_elem_of_singleton, list_elem_of_fmap.
  setoid_rewrite objects_filter_spec. unfold is_ancestor_of. split.
  - intros [(x & Ex & Hx & Hp)|Heq]; [|by left]. right.
    assert (x = d) as ->; [|done].
    destruct x as [xi xr], d as [di dr]. simpl in *. subst xi. congruence.
  - intros [E|H]; [by right|]. left. by exists d.
Qed.

Lemma user_can_access_domain_cases (t : table) (user : User) (h d : Domain) :
  is_staff user = false → get_user_domain t user = Some h →
  (user_can_access_domain t user d = true ↔
   id h = id d ∨ is_ancestor_of h d = true).
Proof.
  intros Hs Hh. unfold user_can_access_domain. rewrite Hs, Hh.
  case_bool_decide; [tauto|].
  destruct (is_ancestor_of h d); [tauto|]. split; [done|]. by intros [?|?].
Qed.

(** For a caller who is not staff, the list of accessible ids and the
    test on one domain agree on every stored domain: its key is in
    [get_user_accessible_domain_ids] exactly when
    [user_can_access_domain] is true of it. *)
Theorem accessible_ids_agree (t : table) (user : User) (d : Domain) :
  is_staff user = false → t !! id d = Some (row d) →
  (id d ∈ get_user_accessible_domain_ids t user ↔
   user_can_access_domain t user d = true).
Proof.
  intros Hs Hd. unfold get_user_accessible_domain_ids.
  destruct (get_user_domain t user) as [h|] eqn:Hh.
  - etrans; [exact (elem_of_get_all_descendant_ids t h d Hd)|].
    symmetry. by apply user_can_access_domain_cases.
  - unfold user_can_access_domain. rewrite Hs, Hh. by rewrite elem_of_nil.
Qed.

Lemma accessible_ids_agree_witness :
  is_staff user_c = false ∧ t_rcg !! id dom_g = Some (row dom_g) ∧
  (id dom_g ∈ get_user_accessible_domain_ids t_rcg user_c ↔
   user_can_access_domain t_rcg user_c dom_g = true).
Proof.
  assert (H1 : is_staff user_c = false) by reflexivity.
  assert (H2 : t_rcg !! id dom_g = Some (row dom_g)) by (vm_compute; reflexivity).
  split; [exact H1|]. split; [exact H2|].
  exact (accessible_ids_agree t_rcg user_c dom_g H1 H2).
Defined.

(** The filter on a collection and the test on one entity agree: when
    the entity's domain key resolves, [filter_by_domain] keeps an entity
    of the collection exactly when [user_can_access_entity] is true of
    it, for staff and for everyone else. *)
Theorem filter_by_domain_agrees (t : table) (queryset : list Entity)
    (user : User) (e : Entity) :
  (∀ d, domain e = Some d → is_Some (t !! d)) →
  (e ∈ filter_by_domain t queryset user ↔
   e ∈ queryset ∧ user_can_access_entity t user e = true).
Proof.
  intros Hfk. unfold filter_by_domain, user_can_access_entity.
  destruct (is_staff user) eqn:Hs; [tauto|].
  assert (Hkeep : id_in (get_user_accessible_domain_ids t user) (domain e) = true ↔
                  match domain e ≫= (λ d, mkDomain d <$> t !! d) with
                  | Some entity_domain => user_can_access_domain t user entity_domain
                  | None => false
                  end = true).
  { destruct (domain e) as [d|]; simpl; [|done].
    destruct (Hfk d eq_refl) as [rd Hd]. rewrite Hd. simpl.
    rewrite bool_decide_eq_true. unfold get_user_accessible_domain_ids.
    destruct (get_user_domain t user) as [h|] eqn:Hh.
    - etrans; [exact (elem_of_get_all_descendant_ids t h (mkDomain d rd) Hd)|].
      symmetry. by apply user_can_access_domain_cases.
    - unfold user_can_access_domain. rewrite Hs, Hh. by rewrite elem_of_nil. }
  destruct (get_user_accessible_domain_ids t user) as [|i ids] eqn:E.
  - rewrite elem_of_nil. split; [done|]. intros [_ H]. apply Hkeep in H.
    by destruct (domain e).
  - rewrite list_elem_of_filter. rewrite Hkeep. tauto.
Qed.

Lemma filter_by_domain_agrees_witness :
  (∀ d, domain e_c = Some d → is_Some (t_rcg !! d)) ∧
  (e_c ∈ filter_by_domain t_rcg [e_none; e_c; e_r] user_c ↔
   e_c ∈ [e_none; e_c; e_r] ∧ user_can_access_entity t_rcg user_c e_c = true).
Proof.
  assert (H1 : ∀ d, domain e_c = Some d → is_Some (t_rcg !! d)).
  { intros d [= <-]. vm_compute. eauto. }
  split; [exact H1|].
  exact (filter_by_domain_agrees t_rcg [e_none; e_c; e_r] user_c e_c H1).
Defined.

(** [filter_by_domain] composes with itself and with concatenation:
    filtering what was filtered changes nothing, and a concatenation is
    filtered part by part. *)
Theorem filter_by_domain_compose (t : table) (q1 q2 : list Entity) (user : User) :
  filter_by_domain t (filter_by_domain t q1 user) user = filter_by_domain t q1 user ∧
  filter_by_domain t (q1 ++ q2) user =
    filter_by_domain t q1 user ++ filter_by_domain t q2 user.
Proof.
  unfold filter_by_domain. destruct (is_staff user); [done|].
  destruct (get_user_accessible_domain_ids t user) as [|i ids]; [done|].
  split; [|apply filter_app].
  rewrite list_filter_filter. apply list_filter_iff. tauto.
Qed.

(** Visibility never goes upward: for a caller who is not staff, on a
    table that satisfies I1, no stored domain above the caller's home
    domain is visible, at any distance. *)
Theorem no_upward_visibility (t : table) (user : User) (h a : Domain) :
  I1 t → is_staff user = false → get_user_domain t user = Some h →
  t !! id a = Some (row a) → desc t (id a) (id h) →
  user_can_access_domain t user a = false.
Proof.
  intros HI1 Hs Hh Ha Hdesc.
  assert (Hstored : t !! id h = Some (row h)).
  { unfold get_user_domain in Hh. destruct (profile user) as [[k|]|]; try done.
    destruct (t !! k) as [rk|] eqn:Hk; simpl in Hh; [|done].
    injection Hh as <-. done. }
  unfold user_can_access_domain. rewrite Hs, Hh.
  destruct (decide (id h = id a)) as [E|E].
  - exfalso. rewrite E in Hdesc. by apply (I1_acyclic t (id a)).
  - rewrite bool_decide_eq_false_2 by done.
    destruct (is_ancestor_of h a) eqn:Hanc; [|done]. exfalso.
    destruct h as [hi hr], a as [ai ar]. simpl in *.
    apply (is_ancestor_of_desc t hi ai hr ar HI1 Hstored Ha) in Hanc.
    apply (I1_acyclic t ai HI1). by eapply desc_trans.
Qed.

Lemma no_upward_visibility_witness :
  I1 t_rcg ∧ is_staff (mkUser false (Some (Some 3%positive))) = false ∧
  get_user_domain t_rcg (mkUser false (Some (Some 3%positive))) = Some dom_g ∧
  t_rcg !! id dom_r = Some (row dom_r) ∧ desc t_rcg (id dom_r) (id dom_g) ∧
  user_can_access_domain t_rcg (mkUser false (Some (Some 3%positive))) dom_r = false.
Proof.
  assert (H1 : I1 t_rcg)
    by (apply (bool_decide_unpack (I1 t_rcg)); vm_compute; exact I).
  assert (H2 : is_staff (mkUser false (Some (Some 3%positive))) = false)
    by reflexivity.
  assert (H3 : get_user_domain t_rcg (mkUser false (Some (Some 3%positive)))
               = Some dom_g) by (vm_compute; reflexivity).
  assert (H4 : t_rcg !! id dom_r = Some (row dom_r)) by (vm_compute; reflexivity).
  assert (H5 : desc t_rcg (id dom_r) (id dom_g)).
  { apply (desc_step t_rcg 1 3 (row dom_g) 2); [vm_compute; reflexivity|reflexivity|].
    apply (desc_child t_rcg 1 2 (row dom_c)); [vm_compute; reflexivity|reflexivity]. }
  split; [exact H1|]. split; [exact H2|]. split; [exact H3|]. split; [exact H4|].
  split; [exact H5|].
  exact (no_upward_visibility t_rcg _ dom_g dom_r H1 H2 H3 H4 H5).
Defined.

Lemma get_user_domain_stored (t : table) (user : User) (h : Domain) :
  get_user_domain t user = Some h → t !! id h = Some (row h).
Proof.
  unfold get_user_domain. intros Hh.
  destruct (profile user) as [[k|]|]; try done.
  destruct (t !! k) as [rk|] eqn:Hk; simpl in Hh; [|done].
  injection Hh as <-. done.
Qed.

Lemma is_ancestor_of_trans (a b c : Domain) :
  is_ancestor_of a b = true → is_ancestor_of b c = true →
  is_ancestor_of a c = true.
Proof.
  unfold is_ancestor_of. intros H1 H2. eapply startswith_trans; [exact H2|].
  eapply startswith_trans; [apply startswith_child_path|exact H1].
Qed.

Lemma stored_eq (t : table) (a b : Domain) :
  t !! id a = Some (row a) → t !! id b = Some (row b) → id a = id b → a = b.
Proof.
  destruct a as [ai ar], b as [bi br]. simpl. intros Ha Hb ->. congruence.
Qed.

(** Whoever can see the home domain of a caller who is not staff can
    see every stored domain that caller can see. *)
Theorem visibility_monotone (t : table) (u1 u2 : User) (h2 d : Domain) :
  is_staff u2 = false → get_user_domain t u2 = Some h2 →
  t !! id d = Some (row d) →
  user_can_access_domain t u1 h2 = true →
  user_can_access_domain t u2 d = true →
  user_can_access_domain t u1 d = true.
Proof.
  intros Hs2 Hh2 Hd H1 H2.
  pose proof (get_user_domain_stored _ _ _ Hh2) as Hstored.
  apply (user_can_access_domain_cases t u2 h2 d Hs2 Hh2) in H2.
  destruct H2 as [E|Hanc].
  { by rewrite <- (stored_eq t h2 d Hstored Hd E). }
  destruct (is_staff u1) eqn:Hs1.
  { unfold user_can_access_domain. by rewrite Hs1. }
  destruct (get_user_domain t u1) as [h1|] eqn:Hh1.
  2:{ unfold user_can_access_domain in H1. by rewrite Hs1, Hh1 in H1. }
  apply (user_can_access_domain_cases t u1 h1 _ Hs1 Hh1) in H1.
  apply (user_can_access_domain_cases t u1 h1 _ Hs1 Hh1). right.
  destruct H1 as [E|H1].
  - pose proof (get_user_domain_stored _ _ _ Hh1) as Hs.
    by rewrite (stored_eq t h1 h2 Hs Hstored E).
  - by eapply is_ancestor_of_trans.
Qed.

Lemma visibility_monotone_witness :
  is_staff user_c = false ∧ get_user_domain t_rcg user_c = Some dom_c ∧
  t_rcg !! id dom_g = Some (row dom_g) ∧
  user_can_access_domain t_rcg (mkUser false (Some (Some 1%positive))) dom_c = true ∧
  user_can_access_domain t_rcg user_c dom_g = true ∧
  user_can_access_domain t_rcg (mkUser false (Some (Some 1%positive))) dom_g = true.
Proof.
  assert (H1 : is_staff user_c = false) by reflexivity.
  assert (H2 : get_user_domain t_rcg user_c = Some dom_c) by (vm_compute; reflexivity).
  assert (H3 : t_rcg !! id dom_g = Some (row dom_g)) by (vm_compute; reflexivity).
  assert (H4 : user_can_access_domain t_rcg
                 (mkUser false (Some (Some 1%positive))) dom_c = true)
    by (vm_compute; reflexivity).
  assert (H5 : user_can_access_domain t_rcg user_c dom_g = true)
    by (vm_compute; reflexivity).
  split; [exact H1|]. split; [exact H2|]. split; [exact H3|]. split; [exact H4|].
  split; [exact H5|].
  exact (visibility_monotone t_rcg _ user_c dom_c dom_g H1 H2 H3 H4 H5).
Defined.

(** ** The repair walk on a consistent tree *)

Lemma I1_height (t : table) (a : positive) (n : nat) :
  I1 t → is_Some (t !! a) → max_path_length t < n → height_le t a n.
Proof.
  intros HI1 Ha Hn.
  apply (height_le_rank t (λ a, is_Some (t !! a))
           (λ a, from_option (λ r, String.length (path r)) 0 (t !! a))
           (max_path_length t)); [|done|lia].
  intros p c r [pr Hp] Hc Hpar.
  destruct (I1_parent _ _ _ _ HI1 Hc Hpar) as (pr' & Hp' & Hpath).
  assert (pr' = pr) as -> by congruence.
  rewrite Hc, Hp. simpl. split; [eauto|].
  pose proof (child_path_length (path pr) p).
  pose proof (max_path_length_ge _ _ _ Hc). rewrite Hpath in *. lia.
Qed.

Lemma repaired_I1 (t : table) (a : positive) (ra : Row) (d : positive) (s : string) :
  I1 t → t !! a = Some ra → repaired t a (path ra) d s →
  path <$> t !! d = Some s.
Proof.
  intros HI1 Ha. induction 1 as [d r Hd Hp|d r p s Hd Hp Hrep IH].
  - destruct (I1_parent _ _ _ _ HI1 Hd Hp) as (pr & Hpr & Hpath).
    assert (pr = ra) as -> by congruence. by rewrite Hd, <- Hpath.
  - destruct (I1_parent _ _ _ _ HI1 Hd Hp) as (pr & Hpr & Hpath).
    rewrite Hpr in IH. injection IH as <-. by rewrite Hd, <- Hpath.
Qed.

(** On a tree that satisfies I1, [_update_children_paths] of a stored
    node returns and leaves the database as it was: every path it
    writes is the path already stored. *)
Theorem update_children_paths_idempotent (fuel : nat) (db : DB) (self : Domain) :
  I1 (domains db) → domains db !! id self = Some (row self) →
  max_path_length (domains db) < fuel →
  _update_children_paths fuel self db = Ok tt db.
Proof.
  intros HI1 Hself Hfuel.
  assert (Hh : height_le (domains db) (id self) fuel)
    by (apply I1_height; eauto).
  clear Hfuel. revert self Hself Hh.
  induction fuel as [|fuel IHf]; intros self Hself Hh; [inversion Hh|].
  set (t := domains db) in *. set (a := id self).
  set (cp := child_path (dpath self) a).
  set (body := λ child : Domain,
    let* child := save_with (_update_children_paths fuel) true
                    (mkInstance (Some (id child)) (name (row child)) cp (Some self)) in
    _update_children_paths fuel child).
  assert (Hloop : ∀ ks,
    (∀ k, k ∈ ks → t !! id k = Some (row k) ∧ parent_id (row k) = Some a) →
    for_each ks body db = Ok tt db).
  { induction ks as [|k ks IHks]; intros Hks; [done|].
    destruct (Hks k) as [Hk Hpk]; [by left|].
    destruct (I1_parent _ _ _ _ HI1 Hk Hpk) as (ra & Hra & Hpath).
    assert (ra = row self) as -> by (unfold a, t in *; congruence).
    assert (Hcp : cp = path (row k)) by done.
    assert (Hrow : mkRow (name (row k)) cp (Some a) = row k).
    { rewrite Hcp, <- Hpk. apply row_eta. }
    assert (Hstep : for_each (k :: ks) body db =
              match _update_children_paths fuel (mkDomain (id k) (row k)) db with
              | Ok _ db' => for_each ks body db'
              | Raise e db' => Raise e db'
              end).
    { pose proof (update_children_paths_step fuel self db t k ks (row k) Hk Hpk)
        as Hstep.
      cbv zeta in Hstep. fold a cp in Hstep. rewrite Hrow in Hstep.
      rewrite Hcp in Hstep at 1. rewrite column_accepts_stored in Hstep.
      assert (<[id k := with_path (row k) cp]> t = t) as Hid.
      { apply insert_id. rewrite Hk. f_equal. symmetry. unfold with_path.
        rewrite Hcp. apply row_eta. }
      rewrite Hid in Hstep. unfold t in Hstep.
      rewrite set_domains_id in Hstep. apply Hstep. eauto. }
    rewrite Hstep. rewrite (IHf (mkDomain (id k) (row k))); [|done|].
    - apply IHks. intros k' Hk'. apply Hks. by right.
    - inversion Hh; subst. eauto. }
  simpl. unfold bind at 1, read. apply Hloop.
  intros k Hk. by apply children_all_spec in Hk.
Qed.

Lemma update_children_paths_idempotent_witness :
  I1 (domains db_rcg) ∧ domains db_rcg !! id dom_r = Some (row dom_r) ∧
  max_path_length (domains db_rcg) < 6 ∧
  _update_children_paths 6 dom_r db_rcg = Ok tt db_rcg.
Proof.
  assert (H1 : I1 (domains db_rcg))
    by (apply (bool_decide_unpack (I1 (domains db_rcg))); vm_compute; exact I).
  assert (H2 : domains db_rcg !! id dom_r = Some (row dom_r))
    by (vm_compute; reflexivity).
  assert (H3 : max_path_length (domains db_rcg) < 6) by (vm_compute; lia).
  split; [exact H1|]. split; [exact H2|]. split; [exact H3|].
  exact (update_children_paths_idempotent 6 db_rcg dom_r H1 H2 H3).
Defined.

(** ** A node that has just been created *)

(** [perform_create] on a tree that satisfies I1, under a parent that
    resolves and with a path that fits the column: the new node gets
    the next key of the sequence, which no row had; it carries the
    name and the parent of the request; no row that existed changes;
    the new node has no descendants; I1 holds again and the keys stay
    below the sequence; and no other table is written. *)
Theorem create_fresh_leaf (fuel : nat) (db : DB) (nm : string)
    (pid : option positive) :
  I1 (domains db) → seq_ok db → 0 < fuel →
  (∀ y, pid = Some y → is_Some (domains db !! y)) →
  (∀ y ry, pid = Some y → domains db !! y = Some ry →
           String.length (child_path (path ry) y) ≤ max_length) →
  ∃ d db',
    create fuel nm pid db = Ok d db' ∧
    id d = domain_seq db ∧ domains db !! id d = None ∧
    name (row d) = nm ∧ parent_id (row d) = pid ∧
    domains db' !! id d = Some (row d) ∧
    (∀ i, i ≠ id d → domains db' !! i = domains db !! i) ∧
    get_descendants (domains db') d = [] ∧
    I1 (domains db') ∧ seq_ok db' ∧
    projects db' = projects db ∧ tasks db' = tasks db ∧ users db' = users db ∧
    report_notes db' = report_notes db ∧ saved_reports db' = saved_reports db.
Proof.
  intros HI1 Hseq Hfuel Hres Hfit.
  destruct (create_correct fuel db nm pid HI1 Hseq Hfuel Hres Hfit)
    as (r & Hrun & _ & Hnm & Hpar & HI1').
  pose proof (seq_fresh db Hseq) as Hfresh.
  exists (mkDomain (domain_seq db) r). eexists. split; [exact Hrun|].
  cbn [id row domains projects tasks users report_notes saved_reports].
  split_and!; try done.
  - by rewrite lookup_insert_eq.
  - intros i Hi. by rewrite lookup_insert_ne.
  - apply elem_of_nil_inv. intros d Hd.
    apply (get_descendants_iff _ (mkDomain (domain_seq db) r) d HI1') in Hd;
      [|by cbn; rewrite lookup_insert_eq].
    destruct Hd as [_ Hd]. cbn in Hd.
    destruct (desc_first _ _ _ Hd) as (c & rc & Hc & Hpc & _).
    destruct (decide (c = domain_seq db)) as [->|Hne].
    + rewrite lookup_insert_eq in Hc. injection Hc as <-.
      rewrite Hpar in Hpc. destruct (Hres _ Hpc) as [? ?]. congruence.
    + rewrite lookup_insert_ne in Hc by done.
      destruct (I1_fk _ _ _ _ HI1 Hc Hpc) as [? ?]. congruence.
  - intros i ri Hi. cbn in *. destruct (decide (i = domain_seq db)) as [->|Hne].
    + lia.
    + rewrite lookup_insert_ne in Hi by done.
      apply (map_Forall_lookup_1 _ _ _ _ Hseq) in Hi. lia.
Qed.

Lemma create_fresh_leaf_witness :
  I1 (domains db_rcg) ∧ seq_ok db_rcg ∧ 0 < 1 ∧
  (∀ y, Some 3%positive = Some y → is_Some (domains db_rcg !! y)) ∧
  (∀ y ry, Some 3%positive = Some y → domains db_rcg !! y = Some ry →
           String.length (child_path (path ry) y) ≤ max_length) ∧
  ∃ d db',
    create 1 "N" (Some 3%positive) db_rcg = Ok d db' ∧
    id d = domain_seq db_rcg ∧ domains db_rcg !! id d = None ∧
    name (row d) = "N"%string ∧ parent_id (row d) = Some 3%positive ∧
    domains db' !! id d = Some (row d) ∧
    (∀ i, i ≠ id d → domains db' !! i = domains db_rcg !! i) ∧
    get_descendants (domains db') d = [] ∧
    I1 (domains db') ∧ seq_ok db' ∧
    projects db' = projects db_rcg ∧ tasks db' = tasks db_rcg ∧
    users db' = users db_rcg ∧
    report_notes db' = report_notes db_rcg ∧
    saved_reports db' = saved_reports db_rcg.
Proof.
  assert (H1 : I1 (domains db_rcg))
    by (apply (bool_decide_unpack (I1 (domains db_rcg))); vm_compute; exact I).
  assert (H2 : seq_ok db_rcg)
    by (apply (bool_decide_unpack (seq_ok db_rcg)); vm_compute; exact I).
  assert (H3 : 0 < 1) by lia.
  assert (H4 : ∀ y, Some 3%positive = Some y → is_Some (domains db_rcg !! y)).
  { intros y [= <-]. vm_compute. eauto. }
  assert (H5 : ∀ y ry, Some 3%positive = Some y → domains db_rcg !! y = Some ry →
                       String.length (child_path (path ry) y) ≤ max_length).
  { intros y ry [= <-] [= <-]. vm_compute. lia. }
  split; [exact H1|]. split; [exact H2|]. split; [exact H3|]. split; [exact H4|].
  split; [exact H5|].
  exact (create_fresh_leaf 1 db_rcg "N" (Some 3%positive) H1 H2 H3 H4 H5).
Defined.





(** ** What a move leaves alone *)

(** Whatever its outcome, a move of a stored node of a consistent tree
    to a valid target keeps the set of stored keys and the name of the
    node, keeps the name and the parent of every other node, leaves
    every row outside the moved subtree as it was, and writes no other
    table. *)
Theorem move_frame (fuel : nat) (db : DB) (x : positive) (rx : Row)
    (new_parent : option positive) :
  I1 (domains db) → domains db !! x = Some rx →
  valid_target (domains db) x new_parent = true →
  (∀ d, is_Some (domains (db_of (move fuel x new_parent db)) !! d) ↔
        is_Some (domains db !! d)) ∧
  name <$> domains (db_of (move fuel x new_parent db)) !! x = Some (name rx) ∧
  (∀ d rd, d ≠ x → domains db !! d = Some rd →
           ∃ rd', domains (db_of (move fuel x new_parent db)) !! d = Some rd' ∧
                  name rd' = name rd ∧ parent_id rd' = parent_id rd) ∧
  (∀ d, d ≠ x → ¬ desc (domains db) x d →
        domains (db_of (move fuel x new_parent db)) !! d = domains db !! d) ∧
  projects (db_of (move fuel x new_parent db)) = projects db ∧
  tasks (db_of (move fuel x new_parent db)) = tasks db ∧
  users (db_of (move fuel x new_parent db)) = users db ∧
  report_notes (db_of (move fuel x new_parent db)) = report_notes db ∧
  saved_reports (db_of (move fuel x new_parent db)) = saved_reports db.
Proof.
  intros HI1 Hx Hv.
  destruct (move_outcome fuel db x rx new_parent HI1 Hx Hv)
    as (t' & Hdb & Hsame & Hout & _).
  cbv zeta in Hdb. rewrite Hdb.
  cbn [domains projects tasks users report_notes saved_reports].
  split_and!; try done.
  - intros d. specialize (Hsame d).
    destruct (decide (d = x)) as [->|Hne].
    + rewrite lookup_insert_eq in Hsame. rewrite Hx.
      destruct (t' !! x); [|done]. split; eauto.
    + rewrite lookup_insert_ne in Hsame by done.
      destruct (t' !! d), (domains db !! d); try done; split; eauto.
  - specialize (Hsame x). rewrite lookup_insert_eq in Hsame.
    destruct (t' !! x) as [r|]; [|done]. simpl in *.
    by injection Hsame as <- _.
  - intros d rd Hne Hd.
    apply (same_tree_lookup _ _ d rd Hsame). by rewrite lookup_insert_ne.
Qed.

Lemma move_frame_witness :
  I1 (domains db_rcg) ∧ domains db_rcg !! 3%positive = Some (row dom_g) ∧
  valid_target (domains db_rcg) 3 (Some 1%positive) = true ∧
  (∀ d, is_Some (domains (db_of (move 6 3 (Some 1%positive) db_rcg)) !! d) ↔
        is_Some (domains db_rcg !! d)) ∧
  name <$> domains (db_of (move 6 3 (Some 1%positive) db_rcg)) !! 3%positive
    = Some (name (row dom_g)) ∧
  (∀ d rd, d ≠ 3%positive → domains db_rcg !! d = Some rd →
           ∃ rd', domains (db_of (move 6 3 (Some 1%positive) db_rcg)) !! d
                    = Some rd' ∧
                  name rd' = name rd ∧ parent_id rd' = parent_id rd) ∧
  (∀ d, d ≠ 3%positive → ¬ desc (domains db_rcg) 3 d →
        domains (db_of (move 6 3 (Some 1%positive) db_rcg)) !! d
        = domains db_rcg !! d) ∧
  projects (db_of (move 6 3 (Some 1%positive) db_rcg)) = projects db_rcg ∧
  tasks (db_of (move 6 3 (Some 1%positive) db_rcg)) = tasks db_rcg ∧
  users (db_of (move 6 3 (Some 1%positive) db_rcg)) = users db_rcg ∧
  report_notes (db_of (move 6 3 (Some 1%positive) db_rcg)) = report_notes db_rcg ∧
  saved_reports (db_of (move 6 3 (Some 1%positive) db_rcg)) = saved_reports db_rcg.
Proof.
  assert (H1 : I1 (domains db_rcg))
    by (apply (bool_decide_unpack (I1 (domains db_rcg))); vm_compute; exact I).
  assert (H2 : domains db_rcg !! 3%positive = Some (row dom_g))
    by (vm_compute; reflexivity).
  assert (H3 : valid_target (domains db_rcg) 3 (Some 1%positive) = true)
    by (vm_compute; reflexivity).
  split; [exact H1|]. split; [exact H2|]. split; [exact H3|].
  exact (move_frame 6 db_rcg 3 (row dom_g) (Some 1%positive) H1 H2 H3).
Defined.

Lemma child_path_length_eq (s : string) (p : positive) :
  String.length (child_path s p) =
  String.length s + String.length (Py.str (Z.pos p)) + 1.
Proof. unfold child_path. rewrite !length_append. simpl. lia. Qed.

(** The path the repair walk gives a node of the moved subtree is its
    old path with the old path of the moved node replaced by the new
    one. *)
Lemma repaired_rebase (t : table) (x : positive) (rx r2 : Row) (np : string)
    (d : positive) (s : string) :
  I1 t → t !! x = Some rx →
  (∀ y, parent_id r2 = Some y → y ≠ x ∧ ¬ desc t x y) →
  repaired (<[x := r2]> t) x np d s →
  ∃ rd, t !! d = Some rd ∧ desc t x d ∧
        String.length s + String.length (path rx) =
        String.length np + String.length (path rd).
Proof.
  intros HI1 Hx Hok.
  induction 1 as [d r Hd Hp|d r p sp Hd Hp _ (rp & Hrp & Hdp & Hlen)].
  - assert (d ≠ x) as Hne.
    { intros ->. rewrite lookup_insert_eq in Hd. injection Hd as <-.
      by destruct (Hok _ Hp). }
    rewrite lookup_insert_ne in Hd by done.
    destruct (I1_parent _ _ _ _ HI1 Hd Hp) as (rx' & Hx' & Hpath).
    assert (rx' = rx) as -> by congruence.
    exists r. split_and!; [done|by eapply desc_child|].
    rewrite Hpath, !child_path_length_eq. lia.
  - assert (d ≠ x) as Hne.
    { intros ->. rewrite lookup_insert_eq in Hd. injection Hd as <-.
      by destruct (Hok _ Hp). }
    rewrite lookup_insert_ne in Hd by done.
    destruct (I1_parent _ _ _ _ HI1 Hd Hp) as (rp' & Hrp' & Hpath).
    assert (rp' = rp) as -> by congruence.
    exists r. split_and!; [done|by eapply desc_step|].
    rewrite Hpath, !child_path_length_eq. lia.
Qed.

(** A move of a stored node of a consistent tree to a valid target
    returns, and leaves a consistent tree, when the depth allowed is
    above the longest path and the new paths fit the column: the new
    path of the node, and the path of every node below it once the
    old path of the node has been replaced by the new one. *)
Theorem move_returns (fuel : nat) (db : DB) (x : positive) (rx : Row)
    (new_parent : option positive) :
  I1 (domains db) → domains db !! x = Some rx →
  valid_target (domains db) x new_parent = true →
  max_path_length (domains db) < fuel →
  (∀ d rd, d = x ∨ desc (domains db) x d → domains db !! d = Some rd →
           String.length match lookup_obj (domains db) new_parent with
                         | Some p => child_path (dpath p) (id p)
                         | None => "/"%string
                         end
           + String.length (path rd)
           ≤ max_length + String.length (path rx)) →
  ∃ sx db', move fuel x new_parent db = Ok sx db' ∧ I1 (domains db').
Proof.
  intros HI1 Hx Hv Hfuel Hfit.
  pose proof (valid_target_ok _ _ _ _ HI1 Hx Hv) as Hok.
  destruct (move_outcome fuel db x rx new_parent HI1 Hx Hv)
    as (t' & Hdb & _ & _ & Hout).
  cbv zeta in Hdb, Hout.
  destruct Hout as [(Hrun & _ & HI1' & _)|[[_ Hbad]|[_ Hbad]]].
  - eexists _, _. split; [exact Hrun|]. by rewrite Hdb.
  - lia.
  - exfalso. destruct Hbad as [Hlong|(d & s & Hr & Hlong)].
    + specialize (Hfit x rx (or_introl eq_refl) Hx). lia.
    + apply (repaired_rebase _ _ rx) in Hr as (rd & Hd & Hdesc & Hlen);
        [|done..|].
      * specialize (Hfit d rd (or_intror Hdesc) Hd). lia.
      * intros y Hy. destruct (Hok y Hy) as (_ & ? & ?). done.
Qed.

Lemma move_returns_witness :
  I1 (domains db_rcg) ∧ domains db_rcg !! 2%positive = Some (row dom_c) ∧
  valid_target (domains db_rcg) 2 None = true ∧
  max_path_length (domains db_rcg) < 6 ∧
  (∀ d rd, d = 2%positive ∨ desc (domains db_rcg) 2 d →
           domains db_rcg !! d = Some rd →
           String.length match lookup_obj (domains db_rcg) None with
                         | Some p => child_path (dpath p) (id p)
                         | None => "/"%string
                         end
           + String.length (path rd)
           ≤ max_length + String.length (path (row dom_c))) ∧
  ∃ sx db', move 6 2 None db_rcg = Ok sx db' ∧ I1 (domains db').
Proof.
  assert (H1 : I1 (domains db_rcg))
    by (apply (bool_decide_unpack (I1 (domains db_rcg))); vm_compute; exact I).
  assert (H2 : domains db_rcg !! 2%positive = Some (row dom_c))
    by (vm_compute; reflexivity).
  assert (H3 : valid_target (domains db_rcg) 2 None = true) by reflexivity.
  assert (H4 : max_path_length (domains db_rcg) < 6) by (vm_compute; lia).
  assert (H5 : ∀ d rd, d = 2%positive ∨ desc (domains db_rcg) 2 d →
                       domains db_rcg !! d = Some rd →
                       String.length match lookup_obj (domains db_rcg) None with
                                     | Some p => child_path (dpath p) (id p)
                                     | None => "/"%string
                                     end
                       + String.length (path rd)
                       ≤ max_length + String.length (path (row dom_c))).
  { intros d rd _ Hd. pose proof (max_path_length_ge _ _ _ Hd) as Hle.
    assert (max_path_length (domains db_rcg) = 6 - 1) as E
      by (vm_compute; reflexivity).
    rewrite E in Hle. simpl. unfold max_length. lia. }
  split; [exact H1|]. split; [exact H2|]. split; [exact H3|]. split; [exact H4|].
  split; [exact H5|].
  exact (move_returns 6 db_rcg 2 (row dom_c) None H1 H2 H3 H4 H5).
Defined.

Lemma same_tree_chain (t t' : table) (i : positive) (ids : list positive) :
  same_tree t t' → chain t i ids → chain t' i ids.
Proof.
  intros Hsame. induction 1 as [i r Hi Hp|i r p ids Hi Hp Hc IH].
  - destruct (same_tree_lookup _ _ _ _ Hsame Hi) as (r' & Hi' & _ & Hp').
    apply (chain_root _ i r'); [done|congruence].
  - destruct (same_tree_lookup _ _ _ _ Hsame Hi) as (r' & Hi' & _ & Hp').
    apply (chain_step _ i r' p); [done|congruence|done].
Qed.

(** Under I1 the paths are a function of the names and parents: two
    consistent tables with the same names and parents are equal. *)
Lemma I1_same_tree_eq (t t' : table) :
  I1 t → I1 t' → same_tree t t' → t = t'.
Proof.
  intros HI1 HI1' Hsame. apply map_eq. intros i.
  destruct (t !! i) as [r|] eqn:Hi.
  - destruct (same_tree_lookup _ _ _ _ Hsame Hi) as (r' & Hi' & Hn & Hp).
    rewrite Hi'. f_equal.
    destruct (I1_chain _ HI1 _ i r (le_n _) Hi) as (ids & Hch & Hpath).
    pose proof (chain_path _ _ _ _ HI1' (same_tree_chain _ _ _ _ Hsame Hch) Hi')
      as Hpath'.
    destruct r, r'. simpl in *. congruence.
  - specialize (Hsame i). rewrite Hi in Hsame. by destruct (t' !! i).
Qed.

(** A valid move that has returned, followed by the move back under
    the old parent, restores the database as it is modelled: the name,
    the path and the parent of every domain, the key sequence and the
    other tables (the time stamps of the rows are not part of the
    model).  The paths of the store fit the column, and the depth
    allowed for the second move is above the longest path. *)
Theorem move_round_trip (fuel : nat) (db : DB) (x : positive) (rx : Row)
    (new_parent : option positive) (sx : Domain) (db1 : DB) :
  I1 (domains db) → seq_ok db → max_path_length (domains db) ≤ max_length →
  domains db !! x = Some rx →
  valid_target (domains db) x new_parent = true →
  move fuel x new_parent db = Ok sx db1 →
  ∀ fuel2, max_path_length (domains db1) < fuel2 →
           move fuel2 x (parent_id rx) db1 = Ok (mkDomain x rx) db.
Proof.
  intros HI1 Hseq Hfit Hx Hv Hrun fuel2 Hfuel2.
  destruct (move_outcome fuel db x rx new_parent HI1 Hx Hv)
    as (t1 & Hdb & Hsame & Hframe & Hout).
  cbv zeta in Hdb, Hout. rewrite Hrun in Hdb, Hout. simpl in Hdb.
  destruct Hout as [(_ & Hx1 & HI1' & _)|[[Hbad _]|[Hbad _]]]; [|done..].
  set (r1 := mkRow (name rx) _ new_parent) in Hx1.
  pose proof (valid_target_ok _ _ _ _ HI1 Hx Hv) as Hok.
  assert (Hmax : Pos.max (domain_seq db) (Pos.succ x) = domain_seq db).
  { apply (map_Forall_lookup_1 _ _ _ _ Hseq) in Hx. lia. }
  rewrite Hmax in Hdb. subst db1. cbn [domains] in Hfuel2.
  set (db1 := mkDB t1 _ _ _ _ _ _).
  (* the old parent is outside the subtree: its row is unchanged *)
  assert (Hpar : ∀ p, parent_id rx = Some p →
            p ≠ x ∧ ¬ desc (domains db) x p ∧ t1 !! p = domains db !! p).
  { intros p Hp.
    assert (Hpx : desc (domains db) p x) by (by eapply desc_child).
    assert (Hne : p ≠ x) by (intros ->; by apply (I1_acyclic _ x HI1)).
    assert (Hnd : ¬ desc (domains db) x p).
    { intros Hd. apply (I1_acyclic _ x HI1). by eapply desc_trans. }
    split_and!; [done..|]. by apply Hframe. }
  assert (Hnp2 : match lookup_obj t1 (parent_id rx) with
                 | Some p => child_path (dpath p) (id p)
                 | None => "/"%string
                 end = path rx).
  { destruct (parent_id rx) as [p|] eqn:Hp; simpl.
    - destruct (Hpar p eq_refl) as (_ & _ & ->).
      destruct (I1_parent _ _ _ _ HI1 Hx Hp) as (pr & Hpr & ->).
      by rewrite Hpr.
    - symmetry. exact (I1_root _ _ _ HI1 Hx Hp). }
  assert (Hv2 : valid_target t1 x (parent_id rx) = true).
  { unfold valid_target. destruct (parent_id rx) as [p|] eqn:Hp; [|done].
    rewrite Hx1. destruct (Hpar p eq_refl) as (Hne & Hnd & Hp1).
    destruct (I1_fk _ _ _ _ HI1 Hx Hp) as [rp Hrp].
    rewrite Hp1, Hrp. rewrite bool_decide_eq_false_2 by done. simpl.
    apply negb_true_iff, not_true_iff_false. intros Ha.
    assert (Hd : desc t1 x p).
    { apply (is_ancestor_of_desc t1 x p r1 rp HI1' Hx1); [|done].
      by rewrite Hp1. }
    apply (same_tree_desc _ _ _ _ (same_tree_sym _ _ Hsame)) in Hd.
    apply (desc_reparent_old (domains db) x
             (mkRow (name rx) (path rx) new_parent)) in Hd; [done|].
    intros y Hy. destruct (Hok y Hy) as (_ & ? & ?). done. }
  destruct (move_outcome fuel2 db1 x r1 (parent_id rx) HI1' Hx1 Hv2)
    as (t2 & Hdb2 & Hsame2 & _ & Hout2).
  cbv zeta in Hdb2, Hout2. unfold db1 in Hdb2, Hsame2, Hout2.
  cbn [domains domain_seq projects tasks users report_notes saved_reports]
    in Hdb2, Hsame2, Hout2. fold db1 in Hdb2, Hout2.
  rewrite Hnp2 in Hout2. rewrite Hmax in Hdb2.
  change (name r1) with (name rx) in Hsame2, Hout2.
  rewrite (row_eta rx) in Hout2.
  assert (Hst : same_tree (domains db) (<[x := rx]> t1)).
  { intros i. destruct (decide (i = x)) as [->|Hne].
    - by rewrite lookup_insert_eq, Hx.
    - rewrite lookup_insert_ne by done. rewrite <- (Hsame i).
      by rewrite lookup_insert_ne. }
  destruct Hout2 as [(Hok2 & Hx2 & HI2 & _)|[[_ Hbad]|[_ Hbad]]].
  - assert (Heq : t2 = domains db).
    { symmetry. apply I1_same_tree_eq; [done..|].
      eapply same_tree_trans; [exact Hst|].
      eapply same_tree_trans; [|exact Hsame2].
      by apply same_tree_insert_shape. }
    rewrite Hok2, Hdb2, Heq. f_equal. by destruct db.
  - lia.
  - exfalso. pose proof (max_path_length_ge _ _ _ Hx) as Hlx.
    destruct Hbad as [Hlong|(d & s & Hr & Hlong)]; [lia|].
    apply (same_tree_repaired _ _ _ _ _ _ (same_tree_sym _ _ Hst)) in Hr.
    apply (repaired_I1 _ _ _ _ _ HI1 Hx) in Hr.
    destruct (lookup_path_Some _ _ _ Hr) as (rd & Hrd & <-).
    pose proof (max_path_length_ge _ _ _ Hrd). lia.
Qed.

Lemma move_round_trip_witness :
  I1 (domains db_rcg) ∧ seq_ok db_rcg ∧
  max_path_length (domains db_rcg) ≤ max_length ∧
  domains db_rcg !! 3%positive = Some (row dom_g) ∧
  valid_target (domains db_rcg) 3 (Some 1%positive) = true ∧
  move 6 3 (Some 1%positive) db_rcg =
    Ok (mkDomain 3 (mkRow "G" "/1/" (Some 1%positive)))
       (db_of (move 6 3 (Some 1%positive) db_rcg)) ∧
  ∀ fuel2, max_path_length (domains (db_of (move 6 3 (Some 1%positive) db_rcg)))
           < fuel2 →
           move fuel2 3 (parent_id (row dom_g))
                (db_of (move 6 3 (Some 1%positive) db_rcg))
           = Ok (mkDomain 3 (row dom_g)) db_rcg.
Proof.
  assert (H1 : I1 (domains db_rcg))
    by (apply (bool_decide_unpack (I1 (domains db_rcg))); vm_compute; exact I).
  assert (H0 : seq_ok db_rcg)
    by (apply (bool_decide_unpack (seq_ok db_rcg)); vm_compute; exact I).
  assert (H5 : max_path_length (domains db_rcg) ≤ max_length)
    by (vm_compute; lia).
  assert (H2 : domains db_rcg !! 3%positive = Some (row dom_g))
    by (vm_compute; reflexivity).
  assert (H3 : valid_target (domains db_rcg) 3 (Some 1%positive) = true)
    by (vm_compute; reflexivity).
  assert (H4 : move 6 3 (Some 1%positive) db_rcg =
               Ok (mkDomain 3 (mkRow "G" "/1/" (Some 1%positive)))
                  (db_of (move 6 3 (Some 1%positive) db_rcg)))
    by (vm_compute; reflexivity).
  split; [exact H1|]. split; [exact H0|]. split; [exact H5|]. split; [exact H2|].
  split; [exact H3|]. split; [exact H4|].
  exact (move_round_trip 6 db_rcg 3 (row dom_g) (Some 1%positive) _ _
           H1 H0 H5 H2 H3 H4).
Defined.

(** ** What a deletion keeps *)

Lemma fk_ok_spec (t : table) (tg : tagged) :
  fk_ok t tg ↔ ∀ k d, tg !! k = Some (Some d) → is_Some (t !! d).
Proof.
  unfold fk_ok. rewrite map_Forall_lookup. split.
  - intros H k d Hk. exact (H k (Some d) Hk).
  - intros H k [d|] Hk; [by eapply H|done].
Qed.

Lemma collect_closed (fuel : nat) (t : table) (i : positive) (gone : gset positive) :
  collect fuel t ∅ {[ i ]} = Some gone →
  i ∈ gone ∧
  ∀ c r p, t !! c = Some r → parent_id r = Some p → p ∈ gone → c ∈ gone.
Proof.
  intros Hrun.
  destruct (collect_spec fuel t (λ _, True) (λ _ _ _ _ _ _, I) ∅ {[ i ]} gone Hrun)
    as (Hsub & Hcl & _).
  - intros c r p _ _ Hp. set_solver.
  - done.
  - split; [set_solver|done].
Qed.

(** Whatever its outcome, [perform_destroy] leaves a database in which
    I1 holds, every foreign key names a stored domain and the keys lie
    below the sequence, when it found one; and after a deletion that
    went through the key is gone. *)
Theorem perform_destroy_keeps_invariants (fuel : nat) (db : DB) (i : positive) :
  I1 (domains db) → refs_ok db →
  I1 (domains (db_of (perform_destroy fuel i db))) ∧
  refs_ok (db_of (perform_destroy fuel i db)) ∧
  (seq_ok db → seq_ok (db_of (perform_destroy fuel i db))) ∧
  (∀ db', perform_destroy fuel i db = Ok tt db' → domains db' !! i = None).
Proof.
  intros HI1 (Hp & Ht & Hu & Hn & Hs).
  unfold perform_destroy, resolve.
  destruct (domains db !! i) as [ri|] eqn:Hi; [|by simpl].
  unfold delete.
  destruct (collect fuel (domains db) ∅ {[ i ]}) as [gone|] eqn:Hrun; [|by simpl].
  cbv zeta.
  destruct (decide (size (referencing (projects db) gone) +
                    size (referencing (tasks db) gone) = 0)) as [Hz|Hnz];
    [|by simpl].
  destruct (collect_closed _ _ _ _ Hrun) as [Hin Hcl].
  pose proof (proj1 (no_blockers db gone) Hz) as Hfree.
  assert (Hkeep : ∀ d, d ∉ gone → is_Some (domains db !! d) →
                  is_Some (filter (λ kv, fst kv ∉ gone) (domains db) !! d)).
  { intros d Hd [r Hr]. exists r. by apply map_lookup_filter_Some. }
  simpl. split_and!.
  - apply map_Forall_lookup_2. intros c r [Hc Hcg]%map_lookup_filter_Some.
    simpl in Hcg. pose proof (map_Forall_lookup_1 _ _ _ _ HI1 Hc) as He.
    unfold expected_path in *. destruct (parent_id r) as [p|] eqn:Hpar; [|done].
    destruct (domains db !! p) as [pr|] eqn:Hpr; [|done].
    assert (p ∉ gone) by (intros Hpg; apply Hcg; by eapply Hcl).
    by rewrite (proj2 (map_lookup_filter_Some _ _ _ _) (conj Hpr H)).
  - unfold refs_ok. simpl. rewrite !fk_ok_spec in *. split_and!.
    + intros k d Hk. apply Hkeep; [|by eapply Hp]. eapply Hfree; eauto.
    + intros k d Hk. apply Hkeep; [|by eapply Ht]. eapply Hfree; eauto.
    + intros k d Hk. rewrite lookup_fmap in Hk.
      destruct (users db !! k) as [[x|]|] eqn:Hk'; simpl in Hk; try done.
      destruct (decide (x ∈ gone)); [done|]. injection Hk as <-.
      apply Hkeep; [done|by eapply Hu].
    + intros k d [Hk Hkr]%map_lookup_filter_Some. simpl in Hkr.
      apply Hkeep; [|by eapply Hn]. intros Hd. apply Hkr.
      apply elem_of_referencing. eauto.
    + intros k d [Hk Hkr]%map_lookup_filter_Some. simpl in Hkr.
      apply Hkeep; [|by eapply Hs]. intros Hd. apply Hkr.
      apply elem_of_referencing. eauto.
  - intros Hseq. unfold seq_ok. simpl.
    apply map_Forall_lookup_2. intros c r [Hc _]%map_lookup_filter_Some.
    by apply (map_Forall_lookup_1 _ _ _ _ Hseq) in Hc.
  - intros db' [= <-]. simpl. apply map_lookup_filter_None. right.
    intros r _. simpl. auto.
Qed.

Lemma perform_destroy_keeps_invariants_witness :
  I1 (domains db_rcg_user) ∧ refs_ok db_rcg_user ∧
  I1 (domains (db_of (perform_destroy 4 2 db_rcg_user))) ∧
  refs_ok (db_of (perform_destroy 4 2 db_rcg_user)) ∧
  (seq_ok db_rcg_user → seq_ok (db_of (perform_destroy 4 2 db_rcg_user))) ∧
  (∀ db', perform_destroy 4 2 db_rcg_user = Ok tt db' →
          domains db' !! 2%positive = None).
Proof.
  assert (H1 : I1 (domains db_rcg_user))
    by (apply (bool_decide_unpack (I1 (domains db_rcg_user))); vm_compute; exact I).
  assert (H2 : refs_ok db_rcg_user).
  { unfold refs_ok. split_and!;
      apply (bool_decide_unpack (fk_ok _ _)); vm_compute; exact I. }
  split; [exact H1|]. split; [exact H2|].
  exact (perform_destroy_keeps_invariants 4 db_rcg_user 2 H1 H2).
Defined.

(** ** The tree action *)

Lemma desc_up (t : table) (a d : positive) :
  desc t a d →
  ∃ r p, t !! d = Some r ∧ parent_id r = Some p ∧ (p = a ∨ desc t a p).
Proof. destruct 1 as [d r Hd Hp|d r p Hd Hp Hdesc]; eauto 6. Qed.

(** The nodes above a node are linearly ordered. *)
Lemma desc_comparable (t : table) (a b d : positive) :
  desc t a d → desc t b d → a = b ∨ desc t a b ∨ desc t b a.
Proof.
  intros Ha. revert b. induction Ha as [d r Hd Hp|d r p Hd Hp Ha IH]; intros b Hb.
  - destruct (desc_up _ _ _ Hb) as (r' & p' & Hd' & Hp' & [E|Hbp]).
    + left. congruence.
    + right. right. assert (p' = a) as -> by congruence. done.
  - destruct (desc_up _ _ _ Hb) as (r' & p' & Hd' & Hp' & [E|Hbp]).
    + right. left. assert (p' = p) as -> by congruence. by subst.
    + assert (p' = p) as -> by congruence. by apply IH.
Qed.

Lemma sibling_not_desc (t : table) (a k1 k2 : positive) (r1 r2 : Row) :
  I1 t → t !! k1 = Some r1 → parent_id r1 = Some a →
  t !! k2 = Some r2 → parent_id r2 = Some a → ¬ desc t k1 k2.
Proof.
  intros HI1 H1 Hp1 H2 Hp2 Hd.
  assert (Ha1 : desc t a k1) by (by eapply desc_child).
  destruct (desc_up _ _ _ Hd) as (r' & p' & H2' & Hp' & [E|Hd']).
  - assert (a = k1) as -> by congruence. by apply (I1_acyclic t k1).
  - assert (p' = a) as -> by congruence.
    apply (I1_acyclic t a HI1). by eapply desc_trans.
Qed.

Lemma NoDup_flat_map {A B : Type} (f : A → list B) (l : list A) :
  NoDup l → (∀ x, x ∈ l → NoDup (f x)) →
  (∀ x y b, x ∈ l → y ∈ l → b ∈ f x → b ∈ f y → x = y) →
  NoDup (flat_map f l).
Proof.
  induction 1 as [|x l Hx Hl IH]; intros Hf Hdisj; simpl; [constructor|].
  apply NoDup_app. split_and!.
  - apply Hf. left.
  - intros b Hb Hb'. apply list_elem_of_In, in_flat_map in Hb' as (y & Hy & Hby).
    apply list_elem_of_In in Hy, Hby.
    assert (x = y) as <-; [|done].
    apply (Hdisj x y b); [left|by right|done..].
  - apply IH.
    + intros y Hy. apply Hf. by right.
    + intros y z b Hy Hz. apply Hdisj; by right.
Qed.

Lemma elem_of_flat_map {A B : Type} (f : A → list B) (l : list A) (b : B) :
  b ∈ flat_map f l ↔ ∃ x, x ∈ l ∧ b ∈ f x.
Proof.
  rewrite list_elem_of_In, in_flat_map. split.
  - intros (x & Hx & Hb). exists x. by rewrite !list_elem_of_In.
  - intros (x & Hx & Hb). exists x. by rewrite <- !list_elem_of_In.
Qed.

Lemma mapM_flat_map {A B C : Type} (f : A → option B) (g : B → list C)
    (l : list A) (k : list B) :
  mapM f l = Some k → flat_map g k = flat_map (λ x, from_option g [] (f x)) l.
Proof.
  rewrite mapM_Some. induction 1 as [|x y l k Hxy _ IH]; simpl; [done|].
  by rewrite Hxy, IH.
Qed.

Lemma NoDup_objects_filter (t : table) (keep : Domain → bool) :
  NoDup (objects_filter t keep).
Proof.
  unfold objects_filter. rewrite order_by_path_perm.
  apply NoDup_filter, NoDup_scan.
Qed.

(** The serializer on a stored node of a consistent tree: it returns
    when the nesting allowed covers the height below the node, and its
    answer holds the node and the stored nodes below it, each once. *)
Lemma to_representation_subtree (t : table) (fuel : nat) :
  I1 t → ∀ obj,
    t !! id obj = Some (row obj) → height_le t (id obj) fuel →
    ∃ n, to_representation fuel t obj = Some n ∧
         (∀ d, d ∈ flatten n ↔
               d = obj ∨ (t !! id d = Some (row d) ∧ desc t (id obj) (id d))) ∧
         NoDup (flatten n).
Proof.
  intros HI1. induction fuel as [|fuel IH]; intros obj Hobj Hh; [inversion Hh|].
  inversion Hh as [a h Hkids Ea Eh]. subst a h.
  assert (Hall : ∀ k, k ∈ children_all t (id obj) →
            ∃ n, to_representation fuel t k = Some n ∧
                 (∀ d, d ∈ flatten n ↔
                       d = k ∨ (t !! id d = Some (row d) ∧ desc t (id k) (id d))) ∧
                 NoDup (flatten n)).
  { intros k [Hk Hp]%children_all_spec. apply IH; [done|]. by eapply Hkids. }
  assert (∃ ns, mapM (to_representation fuel t) (children_all t (id obj)) = Some ns)
    as [ns Hns].
  { apply (mapM_is_Some_2 (to_representation fuel t)), Forall_forall.
    intros k Hk. destruct (Hall k Hk) as (n & Hn & _). simpl. eauto. }
  exists (TreeNode obj ns). split; [simpl; by rewrite Hns|].
  simpl flatten. rewrite (mapM_flat_map _ flatten _ _ Hns).
  set (sub := λ k, from_option flatten [] (to_representation fuel t k)).
  assert (Hsub : ∀ k d, k ∈ children_all t (id obj) →
            (d ∈ sub k ↔
             d = k ∨ (t !! id d = Some (row d) ∧ desc t (id k) (id d)))).
  { intros k d Hk. destruct (Hall k Hk) as (n & Hn & Hin & _).
    unfold sub. rewrite Hn. simpl. apply Hin. }
  assert (Hflat : ∀ d, d ∈ flat_map sub (children_all t (id obj)) ↔
                       t !! id d = Some (row d) ∧ desc t (id obj) (id d)).
  { intros d. rewrite elem_of_flat_map. split.
    - intros (k & Hk & Hd). pose proof Hk as [Hks Hkp]%children_all_spec.
      apply (Hsub k d Hk) in Hd as [->|[Hds Hdesc]].
      + split; [done|]. by eapply desc_child.
      + split; [done|]. eapply desc_trans; [|exact Hdesc]. by eapply desc_child.
    - intros [Hds Hdesc].
      destruct (desc_first _ _ _ Hdesc) as (c & rc & Hc & Hpc & Hcd).
      exists (mkDomain c rc). split; [by apply children_all_spec|].
      apply Hsub; [by apply children_all_spec|]. simpl.
      destruct Hcd as [->|Hcd]; [left|by right].
      destruct d as [di dr]. simpl in *. congruence. }
  split.
  - intros d. rewrite elem_of_cons, Hflat. tauto.
  - apply NoDup_cons. split.
    + rewrite Hflat. intros [_ Hd]. by apply (I1_acyclic t (id obj)).
    + apply NoDup_flat_map.
      * apply NoDup_objects_filter.
      * intros k Hk. destruct (Hall k Hk) as (n & Hn & _ & Hnd).
        unfold sub. by rewrite Hn.
      * intros k1 k2 d Hk1 Hk2 Hd1 Hd2.
        pose proof Hk1 as [Hs1 Hp1]%children_all_spec.
        pose proof Hk2 as [Hs2 Hp2]%children_all_spec.
        apply (Hsub k1 d Hk1) in Hd1. apply (Hsub k2 d Hk2) in Hd2.
        pose proof (sibling_not_desc t (id obj) _ _ _ _ HI1 Hs1 Hp1 Hs2 Hp2) as N12.
        pose proof (sibling_not_desc t (id obj) _ _ _ _ HI1 Hs2 Hp2 Hs1 Hp1) as N21.
        destruct Hd1 as [->|[Hds Hd1]], Hd2 as [E2|[_ Hd2]]; try done.
        -- subst d. by destruct N12.
        -- destruct (desc_comparable _ _ _ _ Hd1 Hd2) as [E|[Hd|Hd]].
           ++ by apply (stored_eq t).
           ++ by destruct N12.
           ++ by destruct N21.
Qed.

Lemma chain_root_desc (t : table) (i : positive) (ids : list positive) :
  chain t i ids →
  ∃ k rk, t !! k = Some rk ∧ parent_id rk = None ∧ (k = i ∨ desc t k i).
Proof.
  induction 1 as [i r Hi Hp|i r p ids Hi Hp Hc (k & rk & Hk & Hkp & Hd)].
  - exists i, r. auto.
  - exists k, rk. split_and!; [done..|]. right. destruct Hd as [->|Hd].
    + by eapply desc_child.
    + by eapply desc_step.
Qed.

(** The tree action on a consistent tree returns, and its answer holds
    every stored domain exactly once. *)
Theorem tree_lists_every_domain_once (fuel : nat) (t : table) :
  I1 t → max_path_length t < fuel →
  ∃ forest,
    tree fuel t = Some forest ∧
    (∀ d, d ∈ flat_map flatten forest ↔ t !! id d = Some (row d)) ∧
    NoDup (flat_map flatten forest).
Proof.
  intros HI1 Hfuel. unfold tree.
  set (roots := objects_filter t (λ d, bool_decide (parent_id (row d) = None))).
  assert (Hroot : ∀ k, k ∈ roots ↔ t !! id k = Some (row k) ∧ parent_id (row k) = None).
  { intros k. unfold roots. by rewrite objects_filter_spec, bool_decide_eq_true. }
  assert (Hall : ∀ k, k ∈ roots →
            ∃ n, to_representation fuel t k = Some n ∧
                 (∀ d, d ∈ flatten n ↔
                       d = k ∨ (t !! id d = Some (row d) ∧ desc t (id k) (id d))) ∧
                 NoDup (flatten n)).
  { intros k [Hk _]%Hroot. apply to_representation_subtree; [done..|].
    apply I1_height; eauto. }
  assert (∃ ns, mapM (to_representation fuel t) roots = Some ns) as [ns Hns].
  { apply (mapM_is_Some_2 (to_representation fuel t)), Forall_forall.
    intros k Hk. destruct (Hall k Hk) as (n & Hn & _). simpl. eauto. }
  exists ns. split; [done|].
  rewrite (mapM_flat_map _ flatten _ _ Hns).
  set (sub := λ k, from_option flatten [] (to_representation fuel t k)).
  assert (Hsub : ∀ k d, k ∈ roots →
            (d ∈ sub k ↔
             d = k ∨ (t !! id d = Some (row d) ∧ desc t (id k) (id d)))).
  { intros k d Hk. destruct (Hall k Hk) as (n & Hn & Hin & _).
    unfold sub. rewrite Hn. simpl. apply Hin. }
  assert (Hnoparent : ∀ k a, k ∈ roots → ¬ desc t a (id k)).
  { intros k a [Hk Hp]%Hroot Hd.
    destruct (desc_up _ _ _ Hd) as (r & p & Hr & Hpr & _). congruence. }
  split.
  - intros d. rewrite elem_of_flat_map. split.
    + intros (k & Hk & Hd). pose proof Hk as [Hks _]%Hroot.
      apply (Hsub k d Hk) in Hd as [->|[Hds _]]; done.
    + intros Hd.
      destruct (I1_chain _ HI1 _ (id d) (row d) (le_n _) Hd) as (ids & Hch & _).
      destruct (chain_root_desc _ _ _ Hch) as (k & rk & Hk & Hkp & Hkd).
      exists (mkDomain k rk). split; [by apply Hroot|].
      apply Hsub; [by apply Hroot|]. simpl. destruct Hkd as [->|Hkd]; [left|by right].
      destruct d as [di dr]. simpl in *. congruence.
  - apply NoDup_flat_map.
    + apply NoDup_objects_filter.
    + intros k Hk. destruct (Hall k Hk) as (n & Hn & _ & Hnd).
      unfold sub. by rewrite Hn.
    + intros k1 k2 d Hk1 Hk2 Hd1 Hd2.
      pose proof Hk1 as [Hs1 Hp1]%Hroot. pose proof Hk2 as [Hs2 Hp2]%Hroot.
      apply (Hsub k1 d Hk1) in Hd1. apply (Hsub k2 d Hk2) in Hd2.
      destruct Hd1 as [->|[Hds Hd1]], Hd2 as [E2|[_ Hd2]]; try done.
      * by destruct (Hnoparent k1 (id k2)).
      * subst d. by destruct (Hnoparent k2 (id k1)).
      * destruct (desc_comparable _ _ _ _ Hd1 Hd2) as [E|[Hd|Hd]].
        -- by apply (stored_eq t).
        -- by destruct (Hnoparent k2 (id k1)).
        -- by destruct (Hnoparent k1 (id k2)).
Qed.

Lemma tree_lists_every_domain_once_witness :
  I1 t_rcg ∧ max_path_length t_rcg < 6 ∧
  ∃ forest,
    tree 6 t_rcg = Some forest ∧
    (∀ d, d ∈ flat_map flatten forest ↔ t_rcg !! id d = Some (row d)) ∧
    NoDup (flat_map flatten forest).
Proof.
  assert (H1 : I1 t_rcg)
    by (apply (bool_decide_unpack (I1 t_rcg)); vm_compute; exact I).
  assert (H2 : max_path_length t_rcg < 6) by (vm_compute; lia).
  split; [exact H1|]. split; [exact H2|].
  exact (tree_lists_every_domain_once 6 t_rcg H1 H2).
Defined.

Example tree_of_rcg :
  tree 3 t_rcg = Some [TreeNode dom_r [TreeNode dom_c [TreeNode dom_g []]]].
Proof. vm_compute. reflexivity. Qed.

(** ** Creating a node and deleting it again *)




(** ** Ancestors, one level at a time *)

(** On a tree that satisfies I1, the ancestors of a stored node that has
    a parent are the ancestors of the parent, followed by the parent;
    [get_ancestors] raises on neither. *)
Theorem get_ancestors_parent (t : table) (n : positive) (rn : Row)
    (p : positive) (rp : Row) :
  I1 t → t !! n = Some rn → parent_id rn = Some p → t !! p = Some rp →
  ∃ anc,
    get_ancestors t (mkDomain p rp) = Some anc ∧
    get_ancestors t (mkDomain n rn) = Some (anc ++ [mkDomain p rp]).
Proof.
  intros HI1 Hn Hpar Hp.
  destruct (I1_chain _ HI1 _ p rp (le_n _) Hp) as (ids & Hch & _).
  exists (objects_of t ids). split; [by apply get_ancestors_chain|].
  rewrite <- (objects_of_snoc t ids p rp Hp).
  apply get_ancestors_chain; [done..|]. by apply (chain_step _ n rn p).
Qed.

Lemma get_ancestors_parent_witness :
  I1 t_rcg ∧ t_rcg !! 3%positive = Some (row dom_g) ∧
  parent_id (row dom_g) = Some 2%positive ∧
  t_rcg !! 2%positive = Some (row dom_c) ∧
  ∃ anc,
    get_ancestors t_rcg (mkDomain 2 (row dom_c)) = Some anc ∧
    get_ancestors t_rcg (mkDomain 3 (row dom_g))
    = Some (anc ++ [mkDomain 2 (row dom_c)]).
Proof.
  assert (H1 : I1 t_rcg)
    by (apply (bool_decide_unpack (I1 t_rcg)); vm_compute; exact I).
  assert (H2 : t_rcg !! 3%positive = Some (row dom_g)) by (vm_compute; reflexivity).
  assert (H3 : parent_id (row dom_g) = Some 2%positive) by reflexivity.
  assert (H4 : t_rcg !! 2%positive = Some (row dom_c)) by (vm_compute; reflexivity).
  split; [exact H1|]. split; [exact H2|]. split; [exact H3|]. split; [exact H4|].
  exact (get_ancestors_parent t_rcg 3 (row dom_g) 2 (row dom_c) H1 H2 H3 H4).
Defined.
